(** * STMLearn: the L* and TTT Mealy learners

    A shallow embedding of
      - [stmlearn/learners/_lstar_mealy_learner.py] (class [LStarMealyLearner]),
      - [stmlearn/learners/_ttt_mealy_learner.py]   (class [TTTMealyLearner]),
      - [stmlearn/util/distinguishingset/_minsepseq.py],
    and theorems about the observation table, the hypothesis construction,
    the discrimination tree and the distinguishing-set checks.

    Conventions.
      - A word is a Python tuple of symbols, here [list Sym].
      - A Python [set] is a duplicate-free list in insertion order, a
        [dict] an association list in insertion order.
      - A method that reads or writes [self] is a function in the monad
        [M St], which threads the object and propagates exceptions; a
        [while] loop takes fuel.
      - The teacher is a parameter: [member_query] is the (deterministic)
        membership oracle, [equivalence_query] the equivalence oracle.
        The type [Ans] of its answers is a parameter too: section 4.1 of
        the specification has it answer with the output word of the SUL,
        sections 4.3 and 4.4 with the final symbol of that word
        ([final_symbol_teacher]); the general theorems hold for every
        teacher.
      - Classes that the two learners use and that are not among the
        sources ([NotifierSet], [MealyState], [TTTAbstractLearner] with its
        discrimination tree) are modelled from the specification, each
        under a comment that says so. *)

From Stdlib Require Import List Bool Arith Lia Permutation.
From Stdlib Require String Ascii.
Import ListNotations.

Set Implicit Arguments.

(* ================================================================= *)
(** ** Exceptions and the state-and-exception monad *)

Inductive PyExc : Type :=
| Exception (msg : nat)   (* raise Exception("...") *)
| KeyError                (* d[k] with k missing *)
| AssertionError          (* a failed assert *)
| ValueError              (* a failed tuple unpacking *)
| IndexError              (* t[0] on an empty tuple *)
| AttributeError.         (* a method called on None *)

Inductive result (X : Type) : Type :=
| Ok (x : X)
| Raise (e : PyExc).
Arguments Ok {X} x.
Arguments Raise {X} e.

Definition M (St X : Type) : Type := St -> result (X * St).

Definition ret {St X} (x : X) : M St X := fun self => Ok (x, self).
Definition raise {St X} (e : PyExc) : M St X := fun _ => Raise e.
Definition bind {St X Y} (c : M St X) (k : X -> M St Y) : M St Y :=
  fun self => match c self with
              | Ok (x, self') => k x self'
              | Raise e => Raise e
              end.
Definition gets {St X} (f : St -> X) : M St X := fun self => Ok (f self, self).
Definition modify {St} (f : St -> St) : M St unit := fun self => Ok (tt, f self).
(** [try: c  except: pass] : a bare [except] swallows every exception; the
    body of the [try] changed nothing before it raised. *)
Definition try_except_pass {St} (c : M St unit) : M St unit :=
  fun self => match c self with
              | Ok r => Ok r
              | Raise _ => Ok (tt, self)
              end.

Declare Scope py_scope.
Delimit Scope py_scope with py.
Notation "x <- c ;; k" := (bind c (fun x => k))
  (at level 61, c at next level, right associativity) : py_scope.
Notation "c ;;; k" := (bind c (fun _ => k))
  (at level 61, right associativity) : py_scope.
Open Scope py_scope.

(** A list comprehension [[f(x) for x in l]]. *)
Fixpoint comprehension {St X Y} (f : X -> M St Y) (l : list X) : M St (list Y) :=
  match l with
  | [] => ret []
  | x :: l' => y <- f x ;; ys <- comprehension f l' ;; ret (y :: ys)
  end.

(** A list comprehension with a guard, [[x for x in l if p(x)]]. *)
Fixpoint comprehension_if {St X} (p : X -> M St bool) (l : list X) : M St (list X) :=
  match l with
  | [] => ret []
  | x :: l' => b <- p x ;; xs <- comprehension_if p l' ;;
               ret (if b then x :: xs else xs)
  end.

(** A [for] loop without [break] that updates an accumulator. *)
Fixpoint for_acc {St X Acc} (l : list X) (body : X -> Acc -> M St Acc) (acc : Acc)
  : M St Acc :=
  match l with
  | [] => ret acc
  | x :: l' => acc' <- body x acc ;; for_acc l' body acc'
  end.

(** A [for] loop without [break], run for its effect on [self]. *)
Fixpoint for_each {St X} (l : list X) (body : X -> M St unit) : M St unit :=
  match l with
  | [] => ret tt
  | x :: l' => body x ;;; for_each l' body
  end.

(** [itertools.combinations(l, 2)]. *)
Fixpoint combinations2 {X} (l : list X) : list (X * X) :=
  match l with
  | [] => []
  | x :: l' => map (pair x) l' ++ combinations2 l'
  end.

(** [dict] lookup and update on association lists (insertion order kept). *)
Section Dict.
Context {K V : Type}.
Variable K_eq_dec : forall x y : K, {x = y} + {x <> y}.

Fixpoint dict_get (d : list (K * V)) (k : K) : option V :=
  match d with
  | [] => None
  | (k', v) :: d' => if K_eq_dec k' k then Some v else dict_get d' k
  end.

Fixpoint dict_set (d : list (K * V)) (k : K) (v : V) : list (K * V) :=
  match d with
  | [] => [(k, v)]
  | (k', v') :: d' =>
      if K_eq_dec k' k then (k', v) :: d' else (k', v') :: dict_set d' k v
  end.

Definition dict_keys (d : list (K * V)) : list K := map fst d.

Lemma dict_get_In d k v : dict_get d k = Some v -> In (k, v) d.
Proof.
  induction d as [|[k' v'] d IH]; simpl; [discriminate|].
  destruct (K_eq_dec k' k) as [->|]; [intros [= ->]; now left | auto].
Qed.

Lemma dict_get_None d k : dict_get d k = None <-> ~ In k (dict_keys d).
Proof.
  induction d as [|[k' v'] d IH]; simpl; [tauto|].
  destruct (K_eq_dec k' k) as [->|]; [split; [discriminate | tauto] |].
  rewrite IH. tauto.
Qed.

Lemma dict_get_Some_key d k v : dict_get d k = Some v -> In k (dict_keys d).
Proof. intros H. apply dict_get_In in H. now apply (in_map fst) in H. Qed.

Lemma dict_get_set_same d k v : dict_get (dict_set d k v) k = Some v.
Proof.
  induction d as [|[k' v'] d IH]; simpl.
  - now destruct (K_eq_dec k k).
  - destruct (K_eq_dec k' k) as [->|N]; simpl.
    + now destruct (K_eq_dec k k).
    + now destruct (K_eq_dec k' k).
Qed.

Lemma dict_get_set_other d k k' v : k <> k' -> dict_get (dict_set d k v) k' = dict_get d k'.
Proof.
  intros N. induction d as [|[k0 v0] d IH]; simpl.
  - now destruct (K_eq_dec k k').
  - destruct (K_eq_dec k0 k) as [->|N0]; simpl.
    + destruct (K_eq_dec k k'); [contradiction | reflexivity].
    + now rewrite IH.
Qed.

Lemma dict_keys_set_new d k v :
  ~ In k (dict_keys d) -> dict_set d k v = d ++ [(k, v)].
Proof.
  induction d as [|[k0 v0] d IH]; simpl; [reflexivity|].
  intros N. destruct (K_eq_dec k0 k) as [->|]; [tauto|].
  rewrite IH by tauto. reflexivity.
Qed.

Lemma dict_keys_set d k v : forall x, In x (dict_keys (dict_set d k v)) <-> x = k \/ In x (dict_keys d).
Proof.
  induction d as [|[k0 v0] d IH]; simpl; intros x.
  - split; [intros [<-|[]]; now left | intros [->|[]]; now left].
  - destruct (K_eq_dec k0 k) as [->|N]; simpl.
    + split; [tauto | intros [->|H]; tauto].
    + rewrite IH. tauto.
Qed.
Lemma dict_set_same d k v : dict_get d k = Some v -> dict_set d k v = d.
Proof.
  induction d as [|[k0 v0] d IH]; simpl; [discriminate|].
  destruct (K_eq_dec k0 k) as [->|N]; [intros [= ->]; reflexivity|].
  intros H. now rewrite IH.
Qed.

Lemma dict_keys_set_in d k v : In k (dict_keys d) -> dict_keys (dict_set d k v) = dict_keys d.
Proof.
  induction d as [|[k0 v0] d IH]; simpl; [tauto|].
  destruct (K_eq_dec k0 k) as [->|N]; [reflexivity|].
  intros [H|H]; [contradiction|]. simpl. now rewrite IH.
Qed.

Lemma dict_get_set d k v k' :
  dict_get (dict_set d k v) k' = if K_eq_dec k k' then Some v else dict_get d k'.
Proof.
  destruct (K_eq_dec k k') as [<-|N];
    [apply dict_get_set_same | now apply dict_get_set_other].
Qed.
End Dict.

(** [try: c  except: h] with a body that returns a value. *)
Definition try_except {St X} (c : M St X) (h : M St X) : M St X :=
  fun self => match c self with
              | Ok r => Ok r
              | Raise _ => h self
              end.

(** [d[k]], raising [KeyError] when [k] is missing. *)
Definition dict_item {St K V} (K_eq_dec : forall x y : K, {x = y} + {x <> y})
  (d : list (K * V)) (k : K) : M St V :=
  match dict_get K_eq_dec d k with
  | Some v => ret v
  | None => raise KeyError
  end.

(** [enumerate(l)]. *)
Definition enumerate {X} (l : list X) : list (nat * X) :=
  combine (seq 0 (length l)) l.

(** Loops over calls that return a value and leave [self] as it is. *)
Lemma comprehension_pure {St X Y} (f : X -> M St Y) (g : X -> Y) (self : St) (l : list X) :
  (forall x, In x l -> f x self = Ok (g x, self)) ->
  comprehension f l self = Ok (map g l, self).
Proof.
  induction l as [|x l IH]; intros H; simpl; [reflexivity|].
  unfold bind. rewrite (H x) by now left.
  rewrite IH by (intros; apply H; now right). reflexivity.
Qed.

Lemma comprehension_if_pure {St X} (p : X -> M St bool) (g : X -> bool) (self : St) (l : list X) :
  (forall x, In x l -> p x self = Ok (g x, self)) ->
  comprehension_if p l self = Ok (filter g l, self).
Proof.
  induction l as [|x l IH]; intros H; simpl; [reflexivity|].
  unfold bind. rewrite (H x) by now left.
  rewrite IH by (intros; apply H; now right). reflexivity.
Qed.

Lemma for_acc_pure {St X Acc} (body : X -> Acc -> M St Acc) (g : Acc -> X -> Acc)
  (self : St) (l : list X) :
  (forall x acc, In x l -> body x acc self = Ok (g acc x, self)) ->
  forall acc, for_acc l body acc self = Ok (fold_left g l acc, self).
Proof.
  induction l as [|x l IH]; intros H acc; simpl; [reflexivity|].
  unfold bind. rewrite (H x) by now left.
  apply IH. intros; apply H; now right.
Qed.

Lemma fold_left_andb {X} (p : X -> bool) (l : list X) (b : bool) :
  fold_left (fun acc x => acc && p x) l b = b && forallb p l.
Proof.
  revert b. induction l as [|x l IH]; intros b; simpl.
  - now rewrite andb_true_r.
  - rewrite IH. now rewrite andb_assoc.
Qed.

Lemma in_combinations2 {X} (l : list X) (x y : X) :
  In (x, y) (combinations2 l) -> In x l /\ In y l.
Proof.
  induction l as [|z l IH]; simpl; [tauto|].
  rewrite in_app_iff, in_map_iff. intros [(w & [= <- <-] & Hw)|H]; [tauto|].
  destruct (IH H). tauto.
Qed.

(* ================================================================= *)
(** ** The Mealy model (stmlearn.suls)

    A [MealyState] object is stored in a heap and referred to by a key of
    type [Ref]; an edge holds the key of its target state, as the Python
    edge holds a reference to the target object. *)

Section Mealy.
Context {Sym Ans Ref : Type}.
Variable Sym_eq_dec : forall x y : Sym, {x = y} + {x <> y}.
Variable Ans_eq_dec : forall x y : Ans, {x = y} + {x <> y}.
Variable Ref_eq_dec : forall x y : Ref, {x = y} + {x <> y}.

Record MealyState : Type := {
  name : nat;                              (* the state is called s<name> *)
  edges : list (Sym * (Ref * Ans))         (* action -> (other_state, output) *)
}.

(** Modelled from the spec: [MealyState.add_edge] of stmlearn.suls, which
    is not among the sources.  Section 4.2: "inserts delta(q,a) = q',
    lambda(q,a) = o.  Optionally override=true replaces an existing edge;
    otherwise re-adding the same edge is a no-op and a conflicting edge is
    a programming error." *)
Definition add_edge (q : MealyState) (a : Sym) (o : Ans) (q' : Ref) (override : bool)
  : result MealyState :=
  let inserted := {| name := name q; edges := dict_set Sym_eq_dec (edges q) a (q', o) |} in
  if override then Ok inserted
  else match dict_get Sym_eq_dec (edges q) a with
       | None => Ok inserted
       | Some (t, o0) =>
           if Ref_eq_dec t q' then
             if Ans_eq_dec o0 o then Ok q else Raise (Exception 2)
           else Raise (Exception 2)
       end.

(** [MealyMachine(initial_state)]: the initial state and the heap in which
    the states it reaches live. *)
Record MealyMachine : Type := {
  initial_state : Ref;
  states : list (Ref * MealyState)
}.
End Mealy.
Arguments MealyState : clear implicits.
Arguments MealyMachine : clear implicits.

(** Modelled from the spec: the execution of a Mealy machine (section 3),
    "execution on a word w produces the output word of the same length".
    The SUL is such a machine, given by its transition function. *)
Fixpoint mealy_run {Q Sym Out} (delta : Q -> Sym -> Q * Out) (q : Q) (w : list Sym)
  : list Out :=
  match w with
  | [] => []
  | a :: w' => let (q', o) := delta q a in o :: mealy_run delta q' w'
  end.

Lemma mealy_run_length {Q Sym Out} (delta : Q -> Sym -> Q * Out) (w : list Sym) :
  forall q, length (mealy_run delta q w) = length w.
Proof.
  induction w as [|a w IH]; intros q; simpl; [reflexivity|].
  destruct (delta q a) as [q' o]. simpl. now rewrite IH.
Qed.

(** The final symbol of an output word; [None] for the empty word. *)
Definition final_symbol {Out} (out : list Out) : option Out :=
  last (map Some out) None.

(** Modelled from the spec: the teacher's membership query, which is not
    among the sources, for the SUL with the output words [sul], in the
    reading of sections 4.3 and 4.4: "the last symbol of the SUL's output
    word on s.a", "query SUL on w.v, take the final output symbol".  The
    learners annotate [query] with [str | None]: one output symbol, or
    [None] for the empty word. *)
Definition final_symbol_teacher {Sym Out} (sul : list Sym -> list Out) (w : list Sym)
  : option Out :=
  final_symbol (sul w).

Definition option_eq_dec {X} (X_eq_dec : forall x y : X, {x = y} + {x <> y})
  : forall x y : option X, {x = y} + {x <> y}.
Proof. decide equality. Defined.

(** Lifting a pure fallible call into the monad. *)
Definition lift {St X} (r : result X) : M St X :=
  fun self => match r with Ok x => Ok (x, self) | Raise e => Raise e end.

(** A computation is [readonly] when it returns [self] as it received it. *)
Definition readonly {St X} (c : M St X) : Prop :=
  forall self x self', c self = Ok (x, self') -> self' = self.

Lemma readonly_ret {St X} (x : X) : readonly (@ret St X x).
Proof. intros self y self' [= _ <-]. reflexivity. Qed.

Lemma readonly_raise {St X} e : readonly (@raise St X e).
Proof. intros self y self' [=]. Qed.

Lemma readonly_gets {St X} (f : St -> X) : readonly (gets f).
Proof. intros self y self' [= _ <-]. reflexivity. Qed.

Lemma readonly_lift {St X} (r : result X) : readonly (@lift St X r).
Proof. intros self y self'. unfold lift. destruct r; [intros [= _ <-]; reflexivity | intros [=]]. Qed.

Lemma readonly_bind {St X Y} (c : M St X) (k : X -> M St Y) :
  readonly c -> (forall x, readonly (k x)) -> readonly (bind c k).
Proof.
  intros Hc Hk self y self'. unfold bind.
  destruct (c self) as [[x s1]|e] eqn:E; [|intros [=]].
  apply Hc in E. subst s1. apply Hk.
Qed.

Lemma readonly_try_except {St X} (c h : M St X) :
  readonly c -> readonly h -> readonly (try_except c h).
Proof.
  intros Hc Hh self y self'. unfold try_except.
  destruct (c self) as [[x s1]|e] eqn:E.
  - intros [= <- <-]. now apply Hc in E.
  - apply Hh.
Qed.

Lemma readonly_dict_item {St K V} (dec : forall x y : K, {x = y} + {x <> y})
  (d : list (K * V)) k : readonly (@dict_item St K V dec d k).
Proof.
  unfold dict_item. destruct (dict_get dec d k); [apply readonly_ret | apply readonly_raise].
Qed.

Lemma readonly_comprehension {St X Y} (f : X -> M St Y) (l : list X) :
  (forall x, readonly (f x)) -> readonly (comprehension f l).
Proof.
  intros Hf. induction l as [|x l IH]; simpl; [apply readonly_ret|].
  apply readonly_bind; [apply Hf|]. intros y.
  apply readonly_bind; [apply IH|]. intros ys. apply readonly_ret.
Qed.

Lemma readonly_comprehension_if {St X} (p : X -> M St bool) (l : list X) :
  (forall x, readonly (p x)) -> readonly (comprehension_if p l).
Proof.
  intros Hp. induction l as [|x l IH]; simpl; [apply readonly_ret|].
  apply readonly_bind; [apply Hp|]. intros y.
  apply readonly_bind; [apply IH|]. intros ys. apply readonly_ret.
Qed.

Lemma readonly_for_acc {St X Acc} (body : X -> Acc -> M St Acc) (l : list X) :
  (forall x acc, readonly (body x acc)) -> forall acc, readonly (for_acc l body acc).
Proof.
  intros Hb. induction l as [|x l IH]; intros acc; simpl; [apply readonly_ret|].
  apply readonly_bind; [apply Hb | intros acc'; apply IH].
Qed.

Create HintDb readonly.
#[export] Hint Resolve readonly_ret readonly_raise readonly_gets readonly_lift
  readonly_dict_item : readonly.


(** [hoare P c Q E]: from a state that satisfies [P], [c] either returns
    [x] in a state that satisfies [Q x], or raises an exception that
    satisfies [E]. *)
Definition hoare {St X} (P : St -> Prop) (c : M St X) (Q : X -> St -> Prop)
  (E : PyExc -> Prop) : Prop :=
  forall self, P self ->
    match c self with
    | Ok (x, self') => Q x self'
    | Raise e => E e
    end.

Lemma hoare_ret {St X} (P : St -> Prop) (x : X) (Q : X -> St -> Prop) E :
  (forall self, P self -> Q x self) -> hoare P (ret x) Q E.
Proof. intros H self HP. simpl. auto. Qed.

Lemma hoare_raise {St X} (P : St -> Prop) e (Q : X -> St -> Prop) (E : PyExc -> Prop) :
  E e -> hoare P (raise e) Q E.
Proof. intros H self HP. exact H. Qed.

Lemma hoare_gets {St X} (P : St -> Prop) (f : St -> X) (Q : X -> St -> Prop) E :
  (forall self, P self -> Q (f self) self) -> hoare P (gets f) Q E.
Proof. intros H self HP. simpl. auto. Qed.

Lemma hoare_modify {St} (P : St -> Prop) (f : St -> St) (Q : unit -> St -> Prop) E :
  (forall self, P self -> Q tt (f self)) -> hoare P (modify f) Q E.
Proof. intros H self HP. simpl. auto. Qed.

Lemma hoare_bind {St X Y} (P : St -> Prop) (c : M St X) (R : X -> St -> Prop)
  (k : X -> M St Y) (Q : Y -> St -> Prop) E :
  hoare P c R E -> (forall x, hoare (R x) (k x) Q E) -> hoare P (bind c k) Q E.
Proof.
  intros Hc Hk self HP. unfold bind. specialize (Hc self HP).
  destruct (c self) as [[x s1]|e]; [|exact Hc]. now apply Hk.
Qed.

Lemma hoare_weaken {St X} (P P' : St -> Prop) (c : M St X) (Q Q' : X -> St -> Prop) E :
  hoare P' c Q' E -> (forall self, P self -> P' self) ->
  (forall x self, Q' x self -> Q x self) -> hoare P c Q E.
Proof.
  intros H HP HQ self Hs. specialize (H self (HP self Hs)).
  destruct (c self) as [[x s1]|e]; auto.
Qed.

Lemma hoare_for_each {St X} (I : St -> Prop) (l : list X) (body : X -> M St unit) E :
  (forall x, In x l -> hoare I (body x) (fun _ => I) E) ->
  hoare I (for_each l body) (fun _ => I) E.
Proof.
  induction l as [|x l IH]; intros H; simpl.
  - now apply hoare_ret.
  - eapply hoare_bind; [apply H; now left|]. intros u. apply IH.
    intros y Hy. apply H. now right.
Qed.

(* ================================================================= *)
(** ** The L* learner ([_lstar_mealy_learner.py]) *)

Module LStar.
Section WithTeacher.
Context {Sym Ans : Type}.
Variable Sym_eq_dec : forall x y : Sym, {x = y} + {x <> y}.
Variable Ans_eq_dec : forall x y : Ans, {x = y} + {x <> y}.

Local Notation "'word'" := (list Sym).
Local Notation "'Row'" := (list Ans).
Local Notation "'Hypothesis_'" := (MealyMachine Sym Ans (list Ans)).

(** [teacher.member_query] and [teacher.equivalence_query]; the teacher's
    answers are deterministic (section 4.1 of the specification). *)
Variable member_query : word -> Ans.
Variable equivalence_query : Hypothesis_ -> bool * word.

Definition word_eq_dec : forall x y : word, {x = y} + {x <> y} :=
  list_eq_dec Sym_eq_dec.
Definition Row_eq_dec : forall x y : Row, {x = y} + {x <> y} :=
  list_eq_dec Ans_eq_dec.

(** Modelled from the spec: [NotifierSet] of stmlearn.util, which is not
    among the sources.  Section 3: "Both S and E carry a change counter
    used to invalidate memoized derived sets"; section 5 fixes insertion
    order as the iteration order. *)
Record NotifierSet : Type := {
  elems : list word;
  change_counter : nat
}.

Definition NotifierSet_new : NotifierSet :=
  {| elems := []; change_counter := 0 |}.

Definition NotifierSet_add (x : word) (ns : NotifierSet) : NotifierSet :=
  {| elems := if in_dec word_eq_dec x (elems ns) then elems ns else elems ns ++ [x];
     change_counter := S (change_counter ns) |}.

Record Learner : Type := {
  self_S : NotifierSet;          (* self.S *)
  self_E : NotifierSet;          (* self.E *)
  self_T : list (word * Ans);    (* self.T *)
  self_A : list word             (* self.A *)
}.

Definition S_add (x : word) (self : Learner) : Learner :=
  {| self_S := NotifierSet_add x (self_S self); self_E := self_E self;
     self_T := self_T self; self_A := self_A self |}.
Definition E_add (x : word) (self : Learner) : Learner :=
  {| self_S := self_S self; self_E := NotifierSet_add x (self_E self);
     self_T := self_T self; self_A := self_A self |}.

(** [__init__]: S = {()}, T = {}, A = set([(x,) for x in alphabet]), E = A. *)
Definition __init__ (alphabet : list Sym) : Learner :=
  let A := nodup word_eq_dec (map (fun x => [x]) alphabet) in
  {| self_S := NotifierSet_add [] NotifierSet_new;
     self_E := fold_left (fun E a => NotifierSet_add a E) A NotifierSet_new;
     self_T := [];
     self_A := A |}.

(** [query].  The body starts with
      [return self.teacher.member_query(query)],
    so what follows it,
      [if query in self.T.keys(): return self.T[query]]
      [else: output = ...; self.T[query] = output; return output],
    is never reached: the answer is the teacher's, as returned, and
    [self.T] is neither read nor written. *)
Definition query (q : word) : M Learner Ans :=
  ret (member_query q).

(** [_SA]: set([s + a for (s, a) in product(S, A)]).union(A). *)
Definition _SA (self : Learner) : list word :=
  nodup word_eq_dec
    (map (fun x => fst x ++ snd x) (list_prod (elems (self_S self)) (self_A self))
     ++ self_A self).

(** [_SUSA]: S.union(SA). *)
Definition _SUSA (self : Learner) : list word :=
  nodup word_eq_dec (elems (self_S self) ++ _SA self).

(** [_get_row]. *)
Definition _get_row (s : word) : M Learner Row :=
  SUSA <- gets _SUSA ;;
  if in_dec word_eq_dec s SUSA then
    E <- gets (fun self => elems (self_E self)) ;;
    comprehension (fun e => query (s ++ e)) E
  else raise (Exception 0).

(** [_get_col]. *)
Definition _get_col (e : word) : M Learner (list Ans) :=
  E <- gets (fun self => elems (self_E self)) ;;
  if in_dec word_eq_dec e E then
    SUSA <- gets _SUSA ;;
    comprehension (fun s => query (s ++ e)) SUSA
  else raise (Exception 1).

(** [_is_closed]. *)
Definition _is_closed : M Learner bool :=
  S <- gets (fun self => elems (self_S self)) ;;
  S_rows <- comprehension _get_row S ;;
  SA <- gets _SA ;;
  for_acc SA (fun t is_closed =>
                row_t <- _get_row t ;;
                ret (is_closed && (if in_dec Row_eq_dec row_t S_rows then true else false)))
          true.

(** The comprehension shared by [_is_consistent] and [step]:
    [(s1, s2) for (s1, s2) in combinations(S, 2) if row(s1) == row(s2)]. *)
Definition eqrows : M Learner (list (word * word)) :=
  S <- gets (fun self => elems (self_S self)) ;;
  comprehension_if (fun p => r1 <- _get_row (fst p) ;; r2 <- _get_row (snd p) ;;
                             ret (if Row_eq_dec r1 r2 then true else false))
                   (combinations2 S).

(** [_is_consistent]. *)
Definition _is_consistent : M Learner bool :=
  eqs <- eqrows ;;
  A <- gets self_A ;;
  for_acc eqs (fun p is_consistent =>
     for_acc A (fun a is_consistent =>
                  r1 <- _get_row (fst p ++ a) ;;
                  r2 <- _get_row (snd p ++ a) ;;
                  ret (is_consistent && (if Row_eq_dec r1 r2 then true else false)))
             is_consistent)
     true.

(** The inner loop of the consistency branch of [step]:
    [for (a, e) in AE: ... if T_s1ae != T_s2ae: E.add(a + e); break].
    The result is [break_consistent]. *)
Fixpoint step_AE_loop (s1 s2 : word) (AE : list (word * word)) : M Learner bool :=
  match AE with
  | [] => ret false
  | (a, e) :: AE' =>
      T_s1ae <- query (s1 ++ a ++ e) ;;
      T_s2ae <- query (s2 ++ a ++ e) ;;
      if Ans_eq_dec T_s1ae T_s2ae then step_AE_loop s1 s2 AE'
      else modify (E_add (a ++ e)) ;;; ret true
  end.

(** The outer loop: [for (s1, s2) in eqrows: ... if break_consistent: break]. *)
Fixpoint step_eqrows_loop (eqs : list (word * word)) (AE : list (word * word))
  : M Learner bool :=
  match eqs with
  | [] => ret false
  | (s1, s2) :: eqs' =>
      break_consistent <- step_AE_loop s1 s2 AE ;;
      if break_consistent then ret true else step_eqrows_loop eqs' AE
  end.

(** The loop of the closedness branch of [step]; it has no [break]:
    [for (s, a) in SA: if row(s + a) not in S_rows: S.add(s + a)]. *)
Definition step_SA_loop (S_rows : list Row) (SA : list (word * word)) : M Learner unit :=
  for_each SA (fun sa =>
    row_sa <- _get_row (fst sa ++ snd sa) ;;
    if in_dec Row_eq_dec row_sa S_rows then ret tt
    else modify (S_add (fst sa ++ snd sa))).

(** [step]. *)
Definition step : M Learner unit :=
  consistent <- _is_consistent ;;
  closed <- _is_closed ;;
  (if negb consistent then
     eqs <- eqrows ;;
     A <- gets self_A ;;
     E <- gets (fun self => elems (self_E self)) ;;
     step_eqrows_loop eqs (list_prod A E) ;;; ret tt
   else ret tt) ;;;
  (if negb closed then
     S <- gets (fun self => elems (self_S self)) ;;
     S_rows <- comprehension _get_row S ;;
     A <- gets self_A ;;
     step_SA_loop S_rows (list_prod S A)
   else ret tt).

(** The pattern [(a,)] of [[a for (a,) in self.A]]. *)
Definition unpack1 (w : word) : M Learner Sym :=
  match w with
  | [a] => ret a
  | _ => raise ValueError
  end.

(** The body of [for a in A] in [build_dfa], for one [s] with row [s_row];
    [states] is the local dictionary from rows to state objects. *)
Definition build_dfa_edge (s : word) (s_row : Row) (a : Sym)
  (states : list (Row * MealyState Sym Ans Row))
  : M Learner (list (Row * MealyState Sym Ans Row)) :=
  sa_row <- _get_row (s ++ [a]) ;;
  if in_dec Row_eq_dec sa_row (dict_keys states) then
    try_except
      (cur_output <- query (s ++ [a]) ;;
       q <- dict_item Row_eq_dec states s_row ;;
       _ <- dict_item Row_eq_dec states sa_row ;;
       q' <- lift (add_edge Sym_eq_dec Ans_eq_dec Row_eq_dec q a cur_output sa_row false) ;;
       ret (dict_set Row_eq_dec states s_row q'))
      (ret states)
  else ret states.

(** The body of [for s in S] in [build_dfa]; the accumulator is
    [(states, visited_rows)]. *)
Definition build_dfa_state (A : list Sym) (s : word)
  (acc : list (Row * MealyState Sym Ans Row) * list Row)
  : M Learner (list (Row * MealyState Sym Ans Row) * list Row) :=
  s_row <- _get_row s ;;
  if in_dec Row_eq_dec s_row (snd acc) then
    ret (fst acc, snd acc ++ [s_row])
  else
    states' <- for_acc A (build_dfa_edge s s_row) (fst acc) ;;
    ret (states', snd acc).

(** The dictionary [states] of [build_dfa] as it is created: the state for
    the [n]-th row of [state_rows] is called s<n+1> and has no edge. *)
Definition new_states (state_rows : list Row) : list (Row * MealyState Sym Ans Row) :=
  map (fun nr => (snd nr, {| name := fst nr + 1; edges := [] |}))
      (enumerate state_rows).

(** [build_dfa]. *)
Definition build_dfa : M Learner Hypothesis_ :=
  S <- gets (fun self => elems (self_S self)) ;;
  rows <- comprehension _get_row S ;;
  let state_rows := nodup Row_eq_dec rows in
  initial_state_row <- _get_row [] ;;
  let states := new_states state_rows in
  _ <- dict_item Row_eq_dec states initial_state_row ;;
  A0 <- gets self_A ;;
  A <- comprehension unpack1 A0 ;;
  acc <- for_acc S (build_dfa_state A) (states, []) ;;
  ret {| initial_state := initial_state_row; states := fst acc |}.

(** The inner loop of [run],
    [while not (self._is_closed() and self._is_consistent()): self.step()].
    The result is [true] when the loop ended and [false] when the fuel did. *)
Fixpoint run_refine (fuel : nat) : M Learner bool :=
  match fuel with
  | 0 => ret false
  | S fuel' =>
      closed <- _is_closed ;;
      ok <- (if closed then _is_consistent else ret false) ;;
      if ok then ret true else step ;;; run_refine fuel'
  end.

(** The counterexample integration at the end of the body of [run]:
    [for i in range(1, len(cex) + 1): self.S.add(cex[0:i])]. *)
Definition add_prefixes (counterexample : word) : M Learner unit :=
  for_each (seq 1 (length counterexample))
           (fun i => modify (S_add (firstn i counterexample))).

(** One round of the outer loop of [run]: [inl h] is [return h], [inr tt]
    goes round again, [None] says that the inner loop ran out of fuel.
    Checkpoints, rendering, the [on_hypothesis] callback and the [print]
    statements (with the run of the hypothesis on the counterexample that
    one of them prints) are left out; the query on the counterexample that
    another one prints is kept. *)
Definition run_round (fuel_in : nat) : M Learner (option (Hypothesis_ + unit)) :=
  done <- run_refine fuel_in ;;
  if done then
    hypothesis <- build_dfa ;;
    let (equivalent, counterexample) := equivalence_query hypothesis in
    if equivalent then ret (Some (inl hypothesis))
    else
      _ <- query counterexample ;;
      add_prefixes counterexample ;;; ret (Some (inr tt))
  else ret None.

(** [run]: [Some h] is the machine returned, [None] means out of fuel. *)
Fixpoint run (fuel fuel_in : nat) : M Learner (option Hypothesis_) :=
  match fuel with
  | 0 => ret None
  | S fuel' =>
      r <- run_round fuel_in ;;
      match r with
      | Some (inl hypothesis) => ret (Some hypothesis)
      | Some (inr _) => run fuel' fuel_in
      | None => ret None
      end
  end.

(* ----------------------------------------------------------------- *)
(** *** The table as a function of the teacher *)

(** The row of [s] over the suffixes [E], as [_get_row] computes it. *)
Definition row (self : Learner) (s : word) : Row :=
  map (fun e => member_query (s ++ e)) (elems (self_E self)).

Definition in_rows (r : Row) (rows : list Row) : bool :=
  if in_dec Row_eq_dec r rows then true else false.

Definition S_rows_of (self : Learner) : list Row :=
  map (row self) (elems (self_S self)).

Definition same_row (self : Learner) (p : word * word) : bool :=
  if Row_eq_dec (row self (fst p)) (row self (snd p)) then true else false.

Lemma in_rows_true r rows : in_rows r rows = true <-> In r rows.
Proof. unfold in_rows. destruct (in_dec Row_eq_dec r rows); split; auto; discriminate. Qed.

Lemma in_rows_false r rows : in_rows r rows = false <-> ~ In r rows.
Proof. unfold in_rows. destruct (in_dec Row_eq_dec r rows); split; auto; try discriminate; tauto. Qed.

Lemma In_SA_SUSA self t : In t (_SA self) -> In t (_SUSA self).
Proof. unfold _SUSA. rewrite nodup_In, in_app_iff. auto. Qed.

Lemma In_S_SUSA self s : In s (elems (self_S self)) -> In s (_SUSA self).
Proof. unfold _SUSA. rewrite nodup_In, in_app_iff. auto. Qed.

Lemma In_app_SA self s a :
  In s (elems (self_S self)) -> In a (self_A self) -> In (s ++ a) (_SA self).
Proof.
  intros Hs Ha. unfold _SA. rewrite nodup_In, in_app_iff. left.
  apply in_map_iff. exists (s, a). split; [reflexivity|]. now apply in_prod.
Qed.

Lemma In_SA_inv self t :
  In t (_SA self) ->
  (exists s a, In s (elems (self_S self)) /\ In a (self_A self) /\ t = s ++ a)
  \/ In t (self_A self).
Proof.
  unfold _SA. rewrite nodup_In, in_app_iff, in_map_iff.
  intros [([s a] & <- & H)|H]; [left|now right].
  apply in_prod_iff in H. exists s, a. simpl. tauto.
Qed.

Lemma query_eq q self : query q self = Ok (member_query q, self).
Proof. reflexivity. Qed.

Lemma _get_row_in self s :
  In s (_SUSA self) -> _get_row s self = Ok (row self s, self).
Proof.
  intros H. unfold _get_row, bind, gets.
  destruct (in_dec word_eq_dec s (_SUSA self)) as [_|N]; [|contradiction].
  unfold row. apply comprehension_pure. intros; apply query_eq.
Qed.

Lemma _get_row_out self s :
  ~ In s (_SUSA self) -> _get_row s self = Raise (Exception 0).
Proof.
  intros H. unfold _get_row, bind, gets.
  destruct (in_dec word_eq_dec s (_SUSA self)) as [I|_]; [contradiction|reflexivity].
Qed.

Lemma rows_in self l :
  (forall s, In s l -> In s (_SUSA self)) ->
  comprehension _get_row l self = Ok (map (row self) l, self).
Proof. intros H. apply comprehension_pure. intros; apply _get_row_in; auto. Qed.

Lemma rows_S self :
  comprehension _get_row (elems (self_S self)) self = Ok (S_rows_of self, self).
Proof. apply rows_in. apply In_S_SUSA. Qed.

(** The verdicts of [_is_closed] and [_is_consistent] as functions of the
    table. *)
Definition closed (self : Learner) : bool :=
  forallb (fun t => in_rows (row self t) (S_rows_of self)) (_SA self).

Definition eqrows_of (self : Learner) : list (word * word) :=
  filter (same_row self) (combinations2 (elems (self_S self))).

Definition consistent (self : Learner) : bool :=
  forallb (fun p => forallb (fun a => same_row self (fst p ++ a, snd p ++ a)) (self_A self))
          (eqrows_of self).

Lemma _is_closed_eq self : _is_closed self = Ok (closed self, self).
Proof.
  unfold _is_closed, bind, gets. rewrite rows_S.
  rewrite (for_acc_pure _ (fun acc t => acc && in_rows (row self t) (S_rows_of self))).
  - now rewrite fold_left_andb.
  - intros t acc Ht. unfold bind. rewrite _get_row_in by now apply In_SA_SUSA.
    reflexivity.
Qed.

Lemma eqrows_eq self : eqrows self = Ok (eqrows_of self, self).
Proof.
  unfold eqrows, bind, gets. apply comprehension_if_pure.
  intros [s1 s2] H. apply in_combinations2 in H. destruct H as [H1 H2].
  unfold bind. simpl. rewrite !_get_row_in by now apply In_S_SUSA. reflexivity.
Qed.

Lemma eqrows_of_S self s1 s2 :
  In (s1, s2) (eqrows_of self) ->
  In s1 (elems (self_S self)) /\ In s2 (elems (self_S self)).
Proof. unfold eqrows_of. rewrite filter_In. intros [H _]. now apply in_combinations2. Qed.

Lemma _is_consistent_eq self : _is_consistent self = Ok (consistent self, self).
Proof.
  unfold _is_consistent, bind, gets. rewrite eqrows_eq.
  rewrite (for_acc_pure _
    (fun acc p => acc && forallb (fun a => same_row self (fst p ++ a, snd p ++ a)) (self_A self))).
  - now rewrite fold_left_andb.
  - intros [s1 s2] acc Hp. apply eqrows_of_S in Hp. destruct Hp as [H1 H2].
    rewrite (for_acc_pure _ (fun acc a => acc && same_row self (s1 ++ a, s2 ++ a))).
    + now rewrite fold_left_andb.
    + intros a acc' Ha. unfold bind. simpl.
      rewrite !_get_row_in by (apply In_SA_SUSA; now apply In_app_SA). reflexivity.
Qed.

(* ----------------------------------------------------------------- *)
(** *** What [step] does to the table *)

Lemma In_NotifierSet_add x y ns :
  In x (elems (NotifierSet_add y ns)) <-> x = y \/ In x (elems ns).
Proof.
  unfold NotifierSet_add; simpl.
  destruct (in_dec word_eq_dec y (elems ns)) as [I|N].
  - split; [auto | intros [->|H]; auto].
  - rewrite in_app_iff. simpl. split; [intros [H|[<-|[]]]; auto | intros [->|H]; auto].
Qed.

(** The first [a + e] of [AE] on which [s1] and [s2] are answered differently. *)
Fixpoint find_AE (s1 s2 : word) (AE : list (word * word)) : option word :=
  match AE with
  | [] => None
  | (a, e) :: AE' =>
      if Ans_eq_dec (member_query (s1 ++ a ++ e)) (member_query (s2 ++ a ++ e))
      then find_AE s1 s2 AE' else Some (a ++ e)
  end.

Fixpoint find_eqrows (eqs AE : list (word * word)) : option word :=
  match eqs with
  | [] => None
  | (s1, s2) :: eqs' =>
      match find_AE s1 s2 AE with
      | Some x => Some x
      | None => find_eqrows eqs' AE
      end
  end.

Lemma step_AE_loop_eq s1 s2 AE self :
  step_AE_loop s1 s2 AE self =
  match find_AE s1 s2 AE with
  | Some x => Ok (true, E_add x self)
  | None => Ok (false, self)
  end.
Proof.
  induction AE as [|[a e] AE IH]; simpl; [reflexivity|].
  unfold bind. rewrite !query_eq.
  destruct (Ans_eq_dec _ _); [apply IH | reflexivity].
Qed.

Lemma step_eqrows_loop_eq eqs AE self :
  step_eqrows_loop eqs AE self =
  match find_eqrows eqs AE with
  | Some x => Ok (true, E_add x self)
  | None => Ok (false, self)
  end.
Proof.
  induction eqs as [|[s1 s2] eqs IH]; simpl; [reflexivity|].
  unfold bind. rewrite step_AE_loop_eq.
  destruct (find_AE s1 s2 AE); [reflexivity | apply IH].
Qed.

(** [self] after the consistency branch of [step]. *)
Definition after_consistency (self : Learner) : Learner :=
  if consistent self then self
  else match find_eqrows (eqrows_of self)
                         (list_prod (self_A self) (elems (self_E self))) with
       | Some x => E_add x self
       | None => self
       end.

Definition S_adds (l : list word) (self : Learner) : Learner :=
  fold_left (fun st t => S_add t st) l self.

(** The words that the closedness branch of [step] hands to [S.add], in
    the order of the loop. *)
Definition unclosed (self : Learner) : list word :=
  filter (fun t => negb (in_rows (row self t) (S_rows_of self)))
         (map (fun x => fst x ++ snd x) (list_prod (elems (self_S self)) (self_A self))).

(** [self] after [step]. *)
Definition step_of (self : Learner) : Learner :=
  let self1 := after_consistency self in
  if closed self then self1 else S_adds (unclosed self1) self1.

Lemma row_S_add t self s : row (S_add t self) s = row self s.
Proof. reflexivity. Qed.

Lemma step_SA_loop_eq S_rows SA self :
  (forall sa, In sa SA -> In (fst sa) (elems (self_S self)) /\ In (snd sa) (self_A self)) ->
  step_SA_loop S_rows SA self =
  Ok (tt, S_adds (filter (fun t => negb (in_rows (row self t) S_rows))
                         (map (fun x => fst x ++ snd x) SA)) self).
Proof.
  unfold step_SA_loop. revert self.
  induction SA as [|[s a] SA IH]; intros self H; simpl; [reflexivity|].
  destruct (H (s, a) (or_introl eq_refl)) as [Hs Ha]. simpl in Hs, Ha.
  unfold bind at 1. unfold bind at 1.
  rewrite _get_row_in by (apply In_SA_SUSA; now apply In_app_SA).
  unfold in_rows at 1.
  destruct (in_dec Row_eq_dec (row self (s ++ a)) S_rows) as [I|N]; simpl.
  - apply IH. intros sa Hsa. apply H. now right.
  - unfold modify. rewrite IH.
    + reflexivity.
    + intros sa Hsa. destruct (H sa (or_intror Hsa)) as [H1 H2].
      split; [|exact H2]. simpl. apply In_NotifierSet_add. now right.
Qed.

Lemma after_consistency_cases self :
  after_consistency self = self \/ exists x, after_consistency self = E_add x self.
Proof.
  unfold after_consistency. destruct (consistent self); [now left|].
  destruct (find_eqrows _ _) as [x|]; [right; now exists x | now left].
Qed.

Lemma step_eq self : step self = Ok (tt, step_of self).
Proof.
  unfold step, step_of. unfold bind at 1. rewrite _is_consistent_eq.
  unfold bind at 1. rewrite _is_closed_eq.
  unfold bind at 1.
  assert (H1 : (if negb (consistent self)
                then eqs <- eqrows;; A <- gets self_A;;
                     E <- gets (fun self0 => elems (self_E self0));;
                     step_eqrows_loop eqs (list_prod A E);;; ret tt
                else ret tt) self = Ok (tt, after_consistency self)).
  { unfold after_consistency. destruct (consistent self); simpl; [reflexivity|].
    unfold bind, gets. rewrite eqrows_eq, step_eqrows_loop_eq.
    destruct (find_eqrows _ _); reflexivity. }
  rewrite H1. destruct (closed self); simpl; [reflexivity|].
  unfold bind, gets. rewrite rows_S.
  rewrite step_SA_loop_eq; [reflexivity|].
  intros [s a] H. apply in_prod_iff in H. exact H.
Qed.

(* ----------------------------------------------------------------- *)
(** *** What [build_dfa] builds *)

(** The invariants of the constructor that [build_dfa] relies on. *)
Definition singletons (A : list word) : Prop :=
  forall w, In w A -> exists x, w = [x].

(** [states[s_row].add_edge(a, o, states[sa_row])] inside [try/except:
    pass], for [sa_row] a key of [states]. *)
Definition try_add_edge (states : list (Row * MealyState Sym Ans Row))
  (s_row : Row) (a : Sym) (o : Ans) (sa_row : Row) : list (Row * MealyState Sym Ans Row) :=
  match dict_get Row_eq_dec states s_row with
  | Some q =>
      match add_edge Sym_eq_dec Ans_eq_dec Row_eq_dec q a o sa_row false with
      | Ok q' => dict_set Row_eq_dec states s_row q'
      | Raise _ => states
      end
  | None => states
  end.

Definition edge_of (self : Learner) (s : word)
  (states : list (Row * MealyState Sym Ans Row)) (a : Sym) :=
  if in_dec Row_eq_dec (row self (s ++ [a])) (dict_keys states)
  then try_add_edge states (row self s) a (member_query (s ++ [a])) (row self (s ++ [a]))
  else states.

Definition edges_of (self : Learner) (syms : list Sym)
  (states : list (Row * MealyState Sym Ans Row)) (s : word) :=
  fold_left (edge_of self s) syms states.

Definition states_of (self : Learner) (syms : list Sym) (l : list word) :=
  fold_left (edges_of self syms) l (new_states (nodup Row_eq_dec (S_rows_of self))).

Lemma dict_keys_new_states rows : dict_keys (new_states rows) = rows.
Proof.
  unfold dict_keys, new_states, enumerate. rewrite map_map. simpl.
  change (map (fun x : nat * Row => snd x)) with (@map (nat * Row) Row snd).
  generalize 0. induction rows as [|r rows IH]; intros n; simpl; [reflexivity|].
  now rewrite IH.
Qed.

Lemma build_dfa_edge_eq self s a states :
  In (s ++ [a]) (_SUSA self) ->
  build_dfa_edge s (row self s) a states self = Ok (edge_of self s states a, self).
Proof.
  intros H. unfold build_dfa_edge, edge_of, bind. rewrite _get_row_in by exact H.
  destruct (in_dec Row_eq_dec (row self (s ++ [a])) (dict_keys states)) as [I|N];
    [|reflexivity].
  unfold try_except, try_add_edge, bind, dict_item. rewrite query_eq.
  destruct (dict_get Row_eq_dec states (row self s)) as [q|]; [|reflexivity].
  unfold ret at 1.
  destruct (dict_get Row_eq_dec states (row self (s ++ [a]))) as [q2|] eqn:G2.
  - unfold ret at 1. unfold lift.
    destruct (add_edge _ _ _ q a _ _ false); reflexivity.
  - apply dict_get_None in G2. contradiction.
Qed.

Lemma unpack_singletons A self :
  singletons A -> comprehension unpack1 A self = Ok (concat A, self).
Proof.
  induction A as [|w A IH]; intros H; simpl; [reflexivity|].
  destruct (H w (or_introl eq_refl)) as [x ->]. unfold bind. simpl.
  rewrite IH by (intros w' Hw'; apply H; now right). reflexivity.
Qed.

Lemma In_concat_singletons A x : singletons A -> In x (concat A) -> In [x] A.
Proof.
  intros H. rewrite in_concat. intros (w & Hw & Hx).
  destruct (H w Hw) as [y ->]. destruct Hx as [->|[]]. exact Hw.
Qed.

Lemma build_dfa_state_eq self syms s states :
  In s (elems (self_S self)) ->
  (forall a, In a syms -> In [a] (self_A self)) ->
  build_dfa_state syms s (states, []) self
  = Ok ((edges_of self syms states s, []), self).
Proof.
  intros Hs Hsyms. unfold build_dfa_state, bind.
  rewrite _get_row_in by now apply In_S_SUSA. simpl.
  rewrite (for_acc_pure _ (edge_of self s)); [reflexivity|].
  intros a acc Ha. apply build_dfa_edge_eq. apply In_SA_SUSA.
  apply In_app_SA; auto.
Qed.

Lemma build_dfa_loop_eq self syms l states :
  (forall s, In s l -> In s (elems (self_S self))) ->
  (forall a, In a syms -> In [a] (self_A self)) ->
  for_acc l (build_dfa_state syms) (states, []) self
  = Ok ((fold_left (edges_of self syms) l states, []), self).
Proof.
  intros Hl Hsyms. revert states.
  induction l as [|s l IH]; intros states; simpl; [reflexivity|].
  unfold bind. rewrite build_dfa_state_eq by (auto; apply Hl; now left).
  apply IH. intros; apply Hl; now right.
Qed.

(** The machine that [build_dfa] returns. *)
Definition hypothesis_of (self : Learner) : Hypothesis_ :=
  {| initial_state := row self [];
     states := states_of self (concat (self_A self)) (elems (self_S self)) |}.

Lemma build_dfa_eq self :
  In [] (elems (self_S self)) -> singletons (self_A self) ->
  build_dfa self = Ok (hypothesis_of self, self).
Proof.
  intros H0 HA. unfold build_dfa, bind, gets. rewrite rows_S.
  rewrite _get_row_in by now apply In_S_SUSA.
  unfold dict_item.
  destruct (dict_get Row_eq_dec (new_states (nodup Row_eq_dec (S_rows_of self))) (row self []))
    as [q0|] eqn:G.
  - unfold ret at 1. rewrite unpack_singletons by exact HA.
    rewrite build_dfa_loop_eq; [reflexivity | auto |].
    intros a Ha. now apply In_concat_singletons.
  - apply dict_get_None in G. rewrite dict_keys_new_states in G.
    exfalso. apply G. apply nodup_In. unfold S_rows_of. now apply in_map.
Qed.

(** The edge of the state stored under [r] on input [a]. *)
Definition edge_at (states : list (Row * MealyState Sym Ans Row)) (r : Row) (a : Sym)
  : option (Row * Ans) :=
  match dict_get Row_eq_dec states r with
  | Some q => dict_get Sym_eq_dec (edges q) a
  | None => None
  end.

Lemma add_edge_no_override (q : MealyState Sym Ans Row) a o t :
  add_edge Sym_eq_dec Ans_eq_dec Row_eq_dec q a o t false =
  match dict_get Sym_eq_dec (edges q) a with
  | None => Ok {| name := name q; edges := dict_set Sym_eq_dec (edges q) a (t, o) |}
  | Some (t0, o0) =>
      if Row_eq_dec t0 t then if Ans_eq_dec o0 o then Ok q else Raise (Exception 2)
      else Raise (Exception 2)
  end.
Proof. reflexivity. Qed.

Lemma try_add_edge_keys states r0 a0 o t :
  dict_keys (try_add_edge states r0 a0 o t) = dict_keys states.
Proof.
  unfold try_add_edge. destruct (dict_get Row_eq_dec states r0) as [q|] eqn:G; [|reflexivity].
  destruct (add_edge _ _ _ q a0 o t false); [|reflexivity].
  apply dict_keys_set_in. eapply dict_get_Some_key; eauto.
Qed.

Lemma edge_at_try_add_edge states r0 a0 o t r a :
  edge_at (try_add_edge states r0 a0 o t) r a =
  match edge_at states r0 a0 with
  | Some _ => edge_at states r a
  | None =>
      if in_dec Row_eq_dec r0 (dict_keys states) then
        if Row_eq_dec r0 r then
          if Sym_eq_dec a0 a then Some (t, o) else edge_at states r a
        else edge_at states r a
      else edge_at states r a
  end.
Proof.
  unfold try_add_edge, edge_at.
  destruct (dict_get Row_eq_dec states r0) as [q|] eqn:G.
  - rewrite add_edge_no_override.
    destruct (dict_get Sym_eq_dec (edges q) a0) as [[t0 o0]|] eqn:Ge.
    + destruct (Row_eq_dec t0 t); [destruct (Ans_eq_dec o0 o)|]; try reflexivity.
      rewrite dict_set_same by exact G. reflexivity.
    + destruct (in_dec Row_eq_dec r0 (dict_keys states)) as [I|N].
      * rewrite dict_get_set. destruct (Row_eq_dec r0 r) as [<-|Nr]; [|reflexivity].
        simpl. rewrite dict_get_set. rewrite G.
        destruct (Sym_eq_dec a0 a); reflexivity.
      * exfalso. apply N. eapply dict_get_Some_key; eauto.
  - destruct (in_dec Row_eq_dec r0 (dict_keys states)) as [I|N]; [|reflexivity].
    apply dict_get_None in G. contradiction.
Qed.

Lemma edge_of_keys self s states a :
  dict_keys (edge_of self s states a) = dict_keys states.
Proof.
  unfold edge_of. destruct (in_dec _ _ _); [apply try_add_edge_keys | reflexivity].
Qed.

Lemma edges_of_keys self syms s states :
  dict_keys (edges_of self syms states s) = dict_keys states.
Proof.
  unfold edges_of. revert states.
  induction syms as [|a syms IH]; intros states; simpl; [reflexivity|].
  rewrite IH. apply edge_of_keys.
Qed.

(** An edge, once set, is never replaced: the first one added wins. *)
Lemma edge_of_keeps self s states a0 r a x :
  edge_at states r a = Some x -> edge_at (edge_of self s states a0) r a = Some x.
Proof.
  intros H. unfold edge_of. destruct (in_dec _ _ _); [|exact H].
  rewrite edge_at_try_add_edge.
  destruct (edge_at states (row self s) a0) eqn:G0; [exact H|].
  destruct (in_dec _ _ _); [|exact H].
  destruct (Row_eq_dec (row self s) r) as [<-|]; [|exact H].
  destruct (Sym_eq_dec a0 a) as [<-|]; [congruence | exact H].
Qed.

(** Where [edge_of] changes the edges at all, it adds the edge of [s] on
    [a0] with the teacher's answer on [s + (a0,)] as its output. *)
Lemma edge_of_cases self s states a0 r a :
  edge_at (edge_of self s states a0) r a = edge_at states r a
  \/ (r = row self s /\ a = a0 /\
      edge_at (edge_of self s states a0) r a
      = Some (row self (s ++ [a0]), member_query (s ++ [a0]))).
Proof.
  unfold edge_of. destruct (in_dec _ _ _); [|now left].
  rewrite edge_at_try_add_edge.
  destruct (edge_at states (row self s) a0); [now left|].
  destruct (in_dec _ _ _); [|now left].
  destruct (Row_eq_dec (row self s) r) as [<-|]; [|now left].
  destruct (Sym_eq_dec a0 a) as [<-|]; [now right | now left].
Qed.

(** When the target row is a state, the state of [row(s)] has an edge on
    [a0] after [edge_of]. *)
Lemma edge_of_sets self s states a0 :
  In (row self (s ++ [a0])) (dict_keys states) ->
  In (row self s) (dict_keys states) ->
  edge_at (edge_of self s states a0) (row self s) a0 <> None.
Proof.
  intros Ht Hs. unfold edge_of.
  destruct (in_dec _ _ _) as [_|N]; [|contradiction].
  rewrite edge_at_try_add_edge.
  destruct (edge_at states (row self s) a0) eqn:G0; [congruence|].
  destruct (in_dec _ _ _) as [_|N]; [|contradiction].
  destruct (Row_eq_dec (row self s) (row self s)); [|congruence].
  destruct (Sym_eq_dec a0 a0); congruence.
Qed.

Lemma edge_at_new_states rows r a : edge_at (new_states rows) r a = None.
Proof.
  unfold edge_at. destruct (dict_get Row_eq_dec (new_states rows) r) as [q|] eqn:G;
    [|reflexivity].
  apply dict_get_In in G. unfold new_states in G. apply in_map_iff in G.
  destruct G as (nr & [= _ <-] & _). reflexivity.
Qed.

Lemma edges_of_keeps self syms s states r a x :
  edge_at states r a = Some x -> edge_at (edges_of self syms states s) r a = Some x.
Proof.
  unfold edges_of. revert states.
  induction syms as [|a0 syms IH]; intros states H; simpl; [exact H|].
  apply IH. now apply edge_of_keeps.
Qed.

Lemma states_keeps self syms l states r a x :
  edge_at states r a = Some x ->
  edge_at (fold_left (edges_of self syms) l states) r a = Some x.
Proof.
  revert states. induction l as [|s l IH]; intros states H; simpl; [exact H|].
  apply IH. now apply edges_of_keeps.
Qed.

Lemma states_keys self syms l states :
  dict_keys (fold_left (edges_of self syms) l states) = dict_keys states.
Proof.
  revert states. induction l as [|s l IH]; intros states; simpl; [reflexivity|].
  rewrite IH. apply edges_of_keys.
Qed.

(** Every edge of the machine comes from a member [s] of [S] and a symbol
    [a]: it leads to the state of [row(s + (a,))] and its output is the
    teacher's answer on [s + (a,)]. *)
Definition edges_from_table (self : Learner) (syms : list Sym)
  (states : list (Row * MealyState Sym Ans Row)) : Prop :=
  forall r a t o, edge_at states r a = Some (t, o) ->
    exists s, In s (elems (self_S self)) /\ In a syms /\ row self s = r /\
              t = row self (s ++ [a]) /\ o = member_query (s ++ [a]).

Lemma edges_of_from_table self syms s states :
  In s (elems (self_S self)) ->
  edges_from_table self syms states ->
  edges_from_table self syms (edges_of self syms states s).
Proof.
  intros Hs. unfold edges_of.
  assert (G : forall l, incl l syms -> forall states,
             edges_from_table self syms states ->
             edges_from_table self syms (fold_left (edge_of self s) l states)).
  { induction l as [|a0 l IH]; intros Hl st P; simpl; [exact P|].
    apply IH; [intros y Hy; apply Hl; now right|].
    intros r a t o H.
    destruct (edge_of_cases self s st a0 r a) as [E|(-> & -> & E)].
    - rewrite E in H. now apply P.
    - rewrite E in H. injection H as <- <-. exists s.
      repeat split; auto. apply Hl. now left. }
  apply G. apply incl_refl.
Qed.

Lemma states_from_table self syms l states :
  incl l (elems (self_S self)) ->
  edges_from_table self syms states ->
  edges_from_table self syms (fold_left (edges_of self syms) l states).
Proof.
  revert states. induction l as [|s l IH]; intros states Hl P; simpl; [exact P|].
  apply IH; [intros y Hy; apply Hl; now right|].
  apply edges_of_from_table; [apply Hl; now left | exact P].
Qed.

Lemma edges_of_sets self syms s states a0 :
  In a0 syms ->
  In (row self (s ++ [a0])) (dict_keys states) ->
  In (row self s) (dict_keys states) ->
  edge_at (edges_of self syms states s) (row self s) a0 <> None.
Proof.
  unfold edges_of. revert states.
  induction syms as [|a syms IH]; intros states Ha Ht Hs; simpl; [destruct Ha|].
  destruct Ha as [->|Ha].
  - pose proof (edge_of_sets self s states a0 Ht Hs) as N.
    destruct (edge_at (edge_of self s states a0) (row self s) a0) as [x|] eqn:G;
      [|congruence].
    change (fold_left (edge_of self s) syms (edge_of self s states a0))
      with (edges_of self syms (edge_of self s states a0) s).
    rewrite (edges_of_keeps self syms s _ _ _ G). discriminate.
  - apply IH; [exact Ha | now rewrite edge_of_keys | now rewrite edge_of_keys].
Qed.

Lemma states_sets self syms l states s a0 :
  In s l -> In a0 syms ->
  In (row self (s ++ [a0])) (dict_keys states) ->
  In (row self s) (dict_keys states) ->
  edge_at (fold_left (edges_of self syms) l states) (row self s) a0 <> None.
Proof.
  revert states. induction l as [|s0 l IH]; intros states Hs Ha Ht Hr; simpl; [destruct Hs|].
  destruct Hs as [->|Hs].
  - pose proof (edges_of_sets self syms s states a0 Ha Ht Hr) as N.
    destruct (edge_at (edges_of self syms states s) (row self s) a0) as [x|] eqn:G;
      [|congruence].
    rewrite (states_keeps self syms l _ _ _ G). discriminate.
  - apply IH; auto; now rewrite edges_of_keys.
Qed.

Lemma combinations2_total {X} (l : list X) (x y : X) :
  In x l -> In y l -> x <> y -> In (x, y) (combinations2 l) \/ In (y, x) (combinations2 l).
Proof.
  induction l as [|z l IH]; simpl; [tauto|].
  intros [->|Hx] [->|Hy] N; try congruence; rewrite !in_app_iff.
  - left. left. now apply in_map.
  - right. left. now apply in_map.
  - destruct (IH Hx Hy N); auto.
Qed.

Lemma same_row_true self p : same_row self p = true <-> row self (fst p) = row self (snd p).
Proof. unfold same_row. destruct (Row_eq_dec _ _); split; auto; discriminate. Qed.

Lemma consistent_rows self s1 s2 a :
  consistent self = true ->
  In s1 (elems (self_S self)) -> In s2 (elems (self_S self)) ->
  row self s1 = row self s2 -> In a (self_A self) ->
  row self (s1 ++ a) = row self (s2 ++ a).
Proof.
  intros C H1 H2 R Ha.
  destruct (word_eq_dec s1 s2) as [->|N]; [reflexivity|].
  unfold consistent in C. rewrite forallb_forall in C.
  destruct (combinations2_total _ H1 H2 N) as [I|I].
  - assert (J : In (s1, s2) (eqrows_of self)).
    { apply filter_In. split; [exact I|]. now apply same_row_true. }
    specialize (C _ J). rewrite forallb_forall in C. specialize (C a Ha).
    now apply same_row_true in C.
  - assert (J : In (s2, s1) (eqrows_of self)).
    { apply filter_In. split; [exact I|]. apply same_row_true. now symmetry. }
    specialize (C _ J). rewrite forallb_forall in C. specialize (C a Ha).
    apply same_row_true in C. simpl in C. now symmetry.
Qed.

Lemma closed_rows self t :
  closed self = true -> In t (_SA self) -> In (row self t) (S_rows_of self).
Proof.
  unfold closed. rewrite forallb_forall. intros C Ht.
  apply in_rows_true. now apply C.
Qed.

Lemma row_entry self s1 s2 e :
  row self s1 = row self s2 -> In e (elems (self_E self)) ->
  member_query (s1 ++ e) = member_query (s2 ++ e).
Proof.
  unfold row. intros R He.
  revert R. induction (elems (self_E self)) as [|e0 E IH]; [destruct He|].
  simpl. intros [= R0 R]. destruct He as [->|He]; auto.
Qed.

(* ----------------------------------------------------------------- *)
(** *** Monotonicity of [S] and [E] *)

Lemma S_adds_E l self : self_E (S_adds l self) = self_E self.
Proof.
  unfold S_adds. revert self. induction l as [|t l IH]; intros self; simpl; [reflexivity|].
  now rewrite IH.
Qed.

Lemma S_adds_A l self : self_A (S_adds l self) = self_A self.
Proof.
  unfold S_adds. revert self. induction l as [|t l IH]; intros self; simpl; [reflexivity|].
  now rewrite IH.
Qed.

Lemma S_adds_T l self : self_T (S_adds l self) = self_T self.
Proof.
  unfold S_adds. revert self. induction l as [|t l IH]; intros self; simpl; [reflexivity|].
  now rewrite IH.
Qed.

Lemma In_S_adds l self x :
  In x (elems (self_S (S_adds l self))) <-> In x l \/ In x (elems (self_S self)).
Proof.
  unfold S_adds. revert self. induction l as [|t l IH]; intros self; simpl; [tauto|].
  rewrite IH. change (self_S (S_add t self)) with (NotifierSet_add t (self_S self)).
  rewrite In_NotifierSet_add. intuition congruence.
Qed.

Lemma NotifierSet_add_extends x ns :
  exists new, elems (NotifierSet_add x ns) = elems ns ++ new.
Proof.
  unfold NotifierSet_add; simpl. destruct (in_dec _ _ _).
  - exists []. now rewrite app_nil_r.
  - now exists [x].
Qed.

Lemma S_adds_extends l self :
  exists new, elems (self_S (S_adds l self)) = elems (self_S self) ++ new.
Proof.
  unfold S_adds. revert self. induction l as [|t l IH]; intros self; simpl.
  - exists []. now rewrite app_nil_r.
  - destruct (IH (S_add t self)) as [n1 E1]. rewrite E1.
    change (self_S (S_add t self)) with (NotifierSet_add t (self_S self)).
    destruct (NotifierSet_add_extends t (self_S self)) as [n2 E2]. rewrite E2.
    exists (n2 ++ n1). now rewrite app_assoc.
Qed.

Lemma after_consistency_S self : self_S (after_consistency self) = self_S self.
Proof. destruct (after_consistency_cases self) as [->|[x ->]]; reflexivity. Qed.

Lemma after_consistency_A self : self_A (after_consistency self) = self_A self.
Proof. destruct (after_consistency_cases self) as [->|[x ->]]; reflexivity. Qed.

Lemma after_consistency_T self : self_T (after_consistency self) = self_T self.
Proof. destruct (after_consistency_cases self) as [->|[x ->]]; reflexivity. Qed.

Lemma after_consistency_E self e :
  In e (elems (self_E self)) -> In e (elems (self_E (after_consistency self))).
Proof.
  destruct (after_consistency_cases self) as [->|[x ->]]; [auto|].
  intros H. simpl. apply In_NotifierSet_add. now right.
Qed.

Lemma row_eq_iff self s t :
  row self s = row self t <->
  forall e, In e (elems (self_E self)) -> member_query (s ++ e) = member_query (t ++ e).
Proof. unfold row. apply map_ext_in_iff. Qed.

Lemma step_of_S self s :
  In s (elems (self_S self)) -> In s (elems (self_S (step_of self))).
Proof.
  intros H. unfold step_of. destruct (closed self).
  - now rewrite after_consistency_S.
  - apply In_S_adds. right. now rewrite after_consistency_S.
Qed.

Lemma step_of_E self e :
  In e (elems (self_E self)) -> In e (elems (self_E (step_of self))).
Proof.
  intros H. unfold step_of. destruct (closed self).
  - now apply after_consistency_E.
  - rewrite S_adds_E. now apply after_consistency_E.
Qed.

Lemma step_of_A self : self_A (step_of self) = self_A self.
Proof.
  unfold step_of. destruct (closed self); [|rewrite S_adds_A]; apply after_consistency_A.
Qed.

Lemma step_of_T self : self_T (step_of self) = self_T self.
Proof.
  unfold step_of. destruct (closed self); [|rewrite S_adds_T]; apply after_consistency_T.
Qed.

Lemma In_unclosed self t :
  In t (unclosed self) <->
  exists s a, In s (elems (self_S self)) /\ In a (self_A self) /\ t = s ++ a /\
              ~ In (row self t) (S_rows_of self).
Proof.
  unfold unclosed. rewrite filter_In, in_map_iff, negb_true_iff, in_rows_false. split.
  - intros [([s a] & <- & H) N]. apply in_prod_iff in H. exists s, a. simpl. tauto.
  - intros (s & a & Hs & Ha & -> & N). split; [|exact N].
    exists (s, a). split; [reflexivity | now apply in_prod].
Qed.

(* ----------------------------------------------------------------- *)
(** *** Calls that leave the learner as it is *)

Ltac readonly_step :=
  first [ solve [auto with readonly]
        | apply readonly_bind; [|intros ?]
        | apply readonly_comprehension; intros ?
        | apply readonly_comprehension_if; intros ?
        | apply readonly_for_acc; intros ? ?
        | apply readonly_try_except ].

Lemma readonly_query q : readonly (query q).
Proof. apply readonly_ret. Qed.

Lemma readonly_get_row s : readonly (_get_row s).
Proof.
  unfold _get_row. apply readonly_bind; [auto with readonly|]. intros SUSA.
  destruct (in_dec word_eq_dec s SUSA); [|auto with readonly].
  apply readonly_bind; [auto with readonly|]. intros E.
  apply readonly_comprehension. intros e. apply readonly_query.
Qed.

#[local] Hint Resolve readonly_query readonly_get_row : readonly.

Lemma readonly_is_closed : readonly _is_closed.
Proof. unfold _is_closed. repeat readonly_step. Qed.

Lemma readonly_build_dfa_edge s s_row a states : readonly (build_dfa_edge s s_row a states).
Proof.
  unfold build_dfa_edge. apply readonly_bind; [apply readonly_get_row|]. intros sa_row.
  destruct (in_dec Row_eq_dec sa_row (dict_keys states)); [|auto with readonly].
  repeat readonly_step.
Qed.

Lemma readonly_unpack1 w : readonly (unpack1 w).
Proof. unfold unpack1. destruct w as [|a [|b w]]; auto with readonly. Qed.

#[local] Hint Resolve readonly_build_dfa_edge readonly_unpack1 : readonly.

Lemma readonly_build_dfa_state A s acc : readonly (build_dfa_state A s acc).
Proof.
  unfold build_dfa_state. apply readonly_bind; [apply readonly_get_row|]. intros s_row.
  destruct (in_dec Row_eq_dec s_row (snd acc)); [auto with readonly|].
  repeat readonly_step.
Qed.

#[local] Hint Resolve readonly_build_dfa_state : readonly.

Lemma readonly_build_dfa : readonly build_dfa.
Proof. unfold build_dfa. repeat readonly_step. Qed.

Lemma add_prefixes_eq w self :
  add_prefixes w self
  = Ok (tt, S_adds (map (fun i => firstn i w) (seq 1 (length w))) self).
Proof.
  unfold add_prefixes. generalize (seq 1 (length w)) as l. intros l. revert self.
  induction l as [|i l IH]; intros self; simpl; [reflexivity|].
  unfold bind, modify. apply IH.
Qed.

Lemma forallb_false {X} (p : X -> bool) (l : list X) :
  forallb p l = false -> exists x, In x l /\ p x = false.
Proof.
  induction l as [|x l IH]; simpl; [discriminate|].
  destruct (p x) eqn:P; simpl.
  - intros H. destruct (IH H) as (y & Hy & Py). exists y. auto.
  - intros _. exists x. auto.
Qed.

Lemma not_in_S_rows self t :
  ~ In (row self t) (S_rows_of self) <->
  forall s', In s' (elems (self_S self)) -> row self t <> row self s'.
Proof.
  unfold S_rows_of. rewrite in_map_iff. split.
  - intros N s' Hs' E. apply N. exists s'. auto.
  - intros N (s' & E & Hs'). apply (N s' Hs'). now symmetry.
Qed.

Lemma rows_after_consistency self s t :
  row (after_consistency self) s = row (after_consistency self) t ->
  row self s = row self t.
Proof.
  rewrite !row_eq_iff. intros H e He. apply H. now apply after_consistency_E.
Qed.

(* ----------------------------------------------------------------- *)
(** *** The closedness branch of [step] *)

(** C3, as amended.  When [_is_closed] answers [False], one call of
    [step] returns normally and adds to [S] every word [s + a], for [s] in
    [S] and [a] in [A], whose row is the row of no member of [S] (rows read
    over [E] as the same call leaves it); it adds nothing else, the words
    of [S] stay where they were, and at least one word is new.  The loop
    has no [break], so more than one word may be added. *)
Theorem step_adds_every_unclosed_row (self : Learner) :
  In [] (elems (self_S self)) ->
  _is_closed self = Ok (false, self) ->
  exists self',
    step self = Ok (tt, self') /\
    (forall t, In t (elems (self_S self')) <->
       In t (elems (self_S self)) \/
       exists s a, In s (elems (self_S self)) /\ In a (self_A self) /\ t = s ++ a /\
         forall s', In s' (elems (self_S self)) -> row self' t <> row self' s') /\
    (exists new, new <> [] /\ elems (self_S self') = elems (self_S self) ++ new).
Proof.
  intros H0 Hc. rewrite _is_closed_eq in Hc. injection Hc as Hc.
  exists (step_of self). split; [apply step_eq|].
  unfold step_of. rewrite Hc. set (self1 := after_consistency self).
  assert (HS : self_S self1 = self_S self) by apply after_consistency_S.
  assert (HA : self_A self1 = self_A self) by apply after_consistency_A.
  assert (Hrow : forall t, row (S_adds (unclosed self1) self1) t = row self1 t).
  { intros t. unfold row. now rewrite S_adds_E. }
  assert (Hmem : forall t, In t (elems (self_S (S_adds (unclosed self1) self1))) <->
       In t (elems (self_S self)) \/
       exists s a, In s (elems (self_S self)) /\ In a (self_A self) /\ t = s ++ a /\
         forall s', In s' (elems (self_S self)) ->
                    row (S_adds (unclosed self1) self1) t
                    <> row (S_adds (unclosed self1) self1) s').
  { intros t. rewrite In_S_adds, In_unclosed, HS, HA. split.
    - intros [(s & a & Hs & Ha & -> & N)|H]; [right|now left].
      exists s, a. repeat split; auto. intros s' Hs'. rewrite !Hrow.
      rewrite not_in_S_rows in N. apply N. now rewrite HS.
    - intros [H|(s & a & Hs & Ha & -> & N)]; [now right|left].
      exists s, a. repeat split; auto. apply not_in_S_rows. intros s' Hs'.
      rewrite HS in Hs'. specialize (N s' Hs'). now rewrite !Hrow in N. }
  split; [exact Hmem|].
  destruct (S_adds_extends (unclosed self1) self1) as [new Hnew].
  rewrite HS in Hnew. exists new. split; [|exact Hnew].
  intros ->. rewrite app_nil_r in Hnew.
  unfold closed in Hc. apply forallb_false in Hc. destruct Hc as (t & Ht & Nt).
  apply in_rows_false in Nt.
  assert (Hsa : exists s a, In s (elems (self_S self)) /\ In a (self_A self) /\ t = s ++ a).
  { destruct (In_SA_inv _ _ Ht) as [H|H]; [exact H|]. exists [], t. auto. }
  destruct Hsa as (s & a & Hs & Ha & Et).
  assert (Hin : In t (elems (self_S (S_adds (unclosed self1) self1)))).
  { apply Hmem. right. exists s, a. repeat split; auto.
    intros s' Hs'. rewrite !Hrow. intros E. apply rows_after_consistency in E.
    apply Nt. unfold S_rows_of. rewrite E. now apply in_map. }
  rewrite Hnew in Hin. apply Nt. unfold S_rows_of. now apply in_map.
Qed.

(* ----------------------------------------------------------------- *)
(** *** Hypothesis construction *)

Lemma edge_of_existing self s states a x :
  edge_at states (row self s) a = Some x -> edge_of self s states a = states.
Proof.
  intros H. unfold edge_of. destruct (in_dec _ _ _); [|reflexivity].
  unfold try_add_edge. unfold edge_at in H.
  destruct (dict_get Row_eq_dec states (row self s)) as [q|] eqn:G; [|reflexivity].
  rewrite add_edge_no_override, H. destruct x as [t0 o0].
  destruct (Row_eq_dec t0 _); [destruct (Ans_eq_dec o0 _)|]; try reflexivity.
  now apply dict_set_same.
Qed.

Lemma edge_of_refused self s states a q e :
  dict_get Row_eq_dec states (row self s) = Some q ->
  add_edge Sym_eq_dec Ans_eq_dec Row_eq_dec q a (member_query (s ++ [a]))
           (row self (s ++ [a])) false = Raise e ->
  edge_of self s states a = states.
Proof.
  intros G R. unfold edge_of. destruct (in_dec _ _ _); [|reflexivity].
  unfold try_add_edge. now rewrite G, R.
Qed.

(** C4, as amended.  [build_dfa] does not fail on an edge: on a table
    with the empty word in [S] it returns a machine, and inside its loop an
    [add_edge] that is refused, be it for a duplicate or for a conflicting
    edge, is swallowed by the bare [except]: the dictionary of states stays
    as it was, so the first edge added for a state and a symbol is kept. *)
Theorem build_dfa_ignores_refused_edges (self : Learner) :
  In [] (elems (self_S self)) ->
  singletons (self_A self) ->
  (exists h, build_dfa self = Ok (h, self)) /\
  (forall s a states x,
      In (s ++ [a]) (_SUSA self) ->
      edge_at states (row self s) a = Some x ->
      build_dfa_edge s (row self s) a states self = Ok (states, self)) /\
  (forall s a states q e,
      In (s ++ [a]) (_SUSA self) ->
      dict_get Row_eq_dec states (row self s) = Some q ->
      add_edge Sym_eq_dec Ans_eq_dec Row_eq_dec q a (member_query (s ++ [a]))
               (row self (s ++ [a])) false = Raise e ->
      build_dfa_edge s (row self s) a states self = Ok (states, self)).
Proof.
  intros H0 HA. split; [|split].
  - exists (hypothesis_of self). now apply build_dfa_eq.
  - intros s a states x Hin Hx. rewrite build_dfa_edge_eq by exact Hin.
    now rewrite (edge_of_existing self s states a Hx).
  - intros s a states q e Hin G R. rewrite build_dfa_edge_eq by exact Hin.
    now rewrite (edge_of_refused self s states a G R).
Qed.

(** Every edge of the dictionary of states that [build_dfa] builds was
    added for some [s] in [S] and [a] in [A]: it goes from the state of
    [row(s)] to the state of [row(s + (a,))] and its output is the
    teacher's answer to the membership query on [s + (a,)], as [query]
    returned it.  On a closed and consistent table whose [E] contains [A],
    this is the edge of every [s] in [S] on every [a] in [A]. *)
Lemma build_dfa_edges (self : Learner) :
  In [] (elems (self_S self)) ->
  singletons (self_A self) ->
  exists h,
    build_dfa self = Ok (h, self) /\
    (forall r a t o, edge_at (states h) r a = Some (t, o) ->
       exists s, In s (elems (self_S self)) /\ In [a] (self_A self) /\
                 row self s = r /\ t = row self (s ++ [a]) /\
                 o = member_query (s ++ [a])) /\
    (closed self = true -> consistent self = true ->
     incl (self_A self) (elems (self_E self)) ->
     forall s a, In s (elems (self_S self)) -> In [a] (self_A self) ->
       edge_at (states h) (row self s) a
       = Some (row self (s ++ [a]), member_query (s ++ [a]))).
Proof.
  intros H0 HA. exists (hypothesis_of self). split; [now apply build_dfa_eq|].
  assert (P : edges_from_table self (concat (self_A self)) (states (hypothesis_of self))).
  { simpl. unfold states_of. apply states_from_table; [apply incl_refl|].
    intros r a t o H. now rewrite edge_at_new_states in H. }
  split.
  - intros r a t o H. destruct (P r a t o H) as (s & Hs & Ha & Hr & Ht & Ho).
    exists s. repeat split; auto. now apply In_concat_singletons.
  - intros Hcl Hco HAE s a Hs Ha.
    assert (Hsyms : In a (concat (self_A self))).
    { apply in_concat. exists [a]. split; [exact Ha | now left]. }
    assert (Hkeys : dict_keys (new_states (nodup Row_eq_dec (S_rows_of self)))
                    = nodup Row_eq_dec (S_rows_of self)) by apply dict_keys_new_states.
    assert (N : edge_at (states (hypothesis_of self)) (row self s) a <> None).
    { simpl. unfold states_of. apply states_sets; auto; rewrite Hkeys; apply nodup_In.
      - apply closed_rows; [exact Hcl|]. now apply In_app_SA.
      - unfold S_rows_of. now apply in_map. }
    destruct (edge_at (states (hypothesis_of self)) (row self s) a) as [[t o]|] eqn:G;
      [|congruence].
    destruct (P _ _ _ _ G) as (s0 & Hs0 & _ & Hr & -> & ->).
    assert (R : row self (s0 ++ [a]) = row self (s ++ [a]))
      by (apply consistent_rows; auto).
    rewrite R. f_equal. f_equal. apply (row_entry self s0 s [a] Hr). now apply HAE.
Qed.

(* ----------------------------------------------------------------- *)
(** *** The main loop *)

Lemma In_firstn_prefixes (w : word) i :
  1 <= i <= length w -> In (firstn i w) (map (fun i => firstn i w) (seq 1 (length w))).
Proof. intros H. apply (in_map (fun i => firstn i w)). apply in_seq. lia. Qed.

Lemma run_round_cases fuel_in self r self' :
  run_round fuel_in self = Ok (Some r, self') ->
  exists self0 h,
    build_dfa self0 = Ok (h, self0) /\
    match r with
    | inl h' => h' = h /\ fst (equivalence_query h) = true
    | inr _ => fst (equivalence_query h) = false /\
               forall i, 1 <= i <= length (snd (equivalence_query h)) ->
                 In (firstn i (snd (equivalence_query h))) (elems (self_S self'))
    end.
Proof.
  unfold run_round. unfold bind at 1.
  destruct (run_refine fuel_in self) as [[done s1]|e]; [|discriminate].
  destruct done; [|discriminate].
  unfold bind at 1. destruct (build_dfa s1) as [[h s2]|e] eqn:B; [|discriminate].
  pose proof (readonly_build_dfa _ B) as ->.
  destruct (equivalence_query h) as [equivalent counterexample] eqn:Q.
  destruct equivalent.
  - intros [= <- <-]. exists s1, h. rewrite Q. auto.
  - unfold bind. rewrite query_eq, add_prefixes_eq. intros [= <- <-].
    exists s1, h. rewrite Q. simpl. repeat split; auto.
    intros i Hi. apply In_S_adds. left. now apply In_firstn_prefixes.
Qed.

(** C7.  (1) [run] returns only a machine built by [build_dfa] for which
    the teacher's equivalence query answered true.  (2) A round of the
    outer loop that does not return has built a hypothesis [h] which the
    teacher refused with a counterexample [w], and the learner with which
    the next round starts has every prefix of [w] of length 1 to [|w|] in
    [S]. *)
Theorem run_returns_only_accepted_hypotheses :
  (forall fuel fuel_in self h self',
      run fuel fuel_in self = Ok (Some h, self') ->
      fst (equivalence_query h) = true /\
      exists self0, build_dfa self0 = Ok (h, self0)) /\
  (forall fuel fuel_in self self1,
      run_round fuel_in self = Ok (Some (inr tt), self1) ->
      run (S fuel) fuel_in self = run fuel fuel_in self1 /\
      exists self0 h w,
        build_dfa self0 = Ok (h, self0) /\
        equivalence_query h = (false, w) /\
        forall i, 1 <= i <= length w -> In (firstn i w) (elems (self_S self1))).
Proof.
  split.
  - induction fuel as [|fuel IH]; intros fuel_in self h self'; simpl; [discriminate|].
    unfold bind. destruct (run_round fuel_in self) as [[[[h'|[]]|] s1]|e] eqn:R;
      try discriminate.
    + intros [= <- <-]. apply run_round_cases in R.
      destruct R as (self0 & h0 & B & -> & Q). split; [exact Q | now exists self0].
    + apply IH.
  - intros fuel fuel_in self self1 R. split.
    + simpl. unfold bind. now rewrite R.
    + apply run_round_cases in R. destruct R as (self0 & h & B & Q & P).
      exists self0, h, (snd (equivalence_query h)). repeat split; auto.
      destruct (equivalence_query h); simpl in *; now subst.
Qed.

(* ----------------------------------------------------------------- *)
(** *** Invariants of the table *)

(** The operations performed on a learner between observations. *)
Inductive operation : Type :=
| Op_step
| Op_build_dfa
| Op_counterexample (w : word).

Definition perform (op : operation) : M Learner unit :=
  match op with
  | Op_step => step
  | Op_build_dfa => build_dfa ;;; ret tt
  | Op_counterexample w => add_prefixes w
  end.

Lemma In_fold_NotifierSet_add l ns x :
  In x (elems (fold_left (fun E a => NotifierSet_add a E) l ns)) <-> In x l \/ In x (elems ns).
Proof.
  revert ns. induction l as [|a l IH]; intros ns; simpl; [tauto|].
  rewrite IH, In_NotifierSet_add. intuition congruence.
Qed.

Lemma init_S alphabet : In [] (elems (self_S (__init__ alphabet))).
Proof. unfold __init__; cbn [self_S]. apply In_NotifierSet_add. now left. Qed.

Lemma init_A alphabet : singletons (self_A (__init__ alphabet)).
Proof.
  intros w. simpl. rewrite nodup_In, in_map_iff. intros (x & <- & _). now exists x.
Qed.

Lemma init_E alphabet a : In a alphabet -> In [a] (elems (self_E (__init__ alphabet))).
Proof.
  intros H. simpl. apply In_fold_NotifierSet_add. left.
  apply nodup_In. now apply (in_map (fun x => [x])).
Qed.

Lemma perform_grows op self :
  In [] (elems (self_S self)) -> singletons (self_A self) ->
  exists self', perform op self = Ok (tt, self') /\
                self_A self' = self_A self /\
                incl (elems (self_S self)) (elems (self_S self')) /\
                incl (elems (self_E self)) (elems (self_E self')).
Proof.
  intros H0 HA. destruct op as [| |w]; simpl.
  - exists (step_of self). split; [apply step_eq|]. split; [apply step_of_A|].
    split; intros x Hx; [now apply step_of_S | now apply step_of_E].
  - exists self. unfold bind. rewrite build_dfa_eq by assumption.
    repeat split; auto using incl_refl.
  - eexists. split; [apply add_prefixes_eq|]. split; [apply S_adds_A|].
    split; intros x Hx; [apply In_S_adds; now right | now rewrite S_adds_E].
Qed.

(** C8.  After the constructor and any sequence of [step], [build_dfa] and
    counterexample integrations, every one of which returns normally, the
    empty word is in [S] and [(a,)] is in [E] for every symbol [a] of the
    alphabet; and whatever operation comes next keeps every element of [S]
    and of [E]. *)
Theorem empty_word_and_alphabet_stay (alphabet : list Sym) (ops : list operation) :
  exists self,
    for_each ops perform (__init__ alphabet) = Ok (tt, self) /\
    In [] (elems (self_S self)) /\
    (forall a, In a alphabet -> In [a] (elems (self_E self))) /\
    (forall op, exists self',
        perform op self = Ok (tt, self') /\
        incl (elems (self_S self)) (elems (self_S self')) /\
        incl (elems (self_E self)) (elems (self_E self'))).
Proof.
  assert (G : forall ops self0,
             In [] (elems (self_S self0)) -> singletons (self_A self0) ->
             exists self, for_each ops perform self0 = Ok (tt, self) /\
                          singletons (self_A self) /\
                          incl (elems (self_S self0)) (elems (self_S self)) /\
                          incl (elems (self_E self0)) (elems (self_E self))).
  { clear ops. induction ops as [|op ops IH]; intros self0 H0 HA; simpl.
    - exists self0. repeat split; auto using incl_refl.
    - destruct (@perform_grows op self0 H0 HA) as (s1 & P & A1 & S1 & E1).
      destruct (IH s1) as (s2 & P2 & A2 & S2 & E2).
      + now apply S1.
      + now rewrite A1.
      + exists s2. unfold bind. rewrite P. repeat split; auto.
        * eapply incl_tran; eauto.
        * eapply incl_tran; eauto. }
  destruct (G ops (__init__ alphabet) (init_S alphabet) (init_A alphabet))
    as (self & P & HA & HS & HE).
  exists self. split; [exact P|]. split; [apply HS, init_S|].
  split; [intros a Ha; apply HE; now apply init_E|].
  intros op. destruct (@perform_grows op self) as (s' & P' & _ & S' & E'); auto.
  - apply HS, init_S.
  - exists s'. auto.
Qed.

(* ----------------------------------------------------------------- *)
(** *** The memoization decorators

    [_get_row], [_is_closed] and [_is_consistent] are decorated with
    [depends_on_S_E]; the definitions above are the decorated bodies.  The
    decorator keeps, per function, the pair of change counters it last saw
    ([self._watch]) and a dictionary from arguments to results
    ([self._mem]).  It is modelled here on its own, and shown to return
    what the body returns. *)

Record Memo (Arg Val : Type) : Type := {
  watch : option (nat * nat);     (* None: the name is not yet in _watch *)
  mem : list (Arg * Val)
}.

Definition counters (self : Learner) : nat * nat :=
  (change_counter (self_S self), change_counter (self_E self)).

Definition counters_eq_dec : forall x y : nat * nat, {x = y} + {x <> y}.
Proof. decide equality; apply Nat.eq_dec. Defined.

(** The wrapper that [depends_on_S_E(func)] returns.  A name that is missing from [_watch]
    is entered with the counters (-1, -1), which no set has, so the memory
    is emptied as it is when the counters have moved. *)
Definition depends_on_S_E {Arg Val : Type}
  (Arg_eq_dec : forall x y : Arg, {x = y} + {x <> y})
  (func : Arg -> M Learner Val) (args : Arg) (memo : Memo Arg Val)
  : M Learner (Val * Memo Arg Val) :=
  fun self =>
    let valid := match watch memo with
                 | Some last_seen =>
                     if counters_eq_dec last_seen (counters self) then true else false
                 | None => false
                 end in
    let memo1 := if valid then memo
                 else {| watch := Some (counters self); mem := [] |} in
    match dict_get Arg_eq_dec (mem memo1) args with
    | Some v => Ok ((v, memo1), self)
    | None =>
        match func args self with
        | Ok (tmp, self') =>
            Ok ((tmp, {| watch := watch memo1;
                         mem := dict_set Arg_eq_dec (mem memo1) args tmp |}), self')
        | Raise e => Raise e
        end
    end.

(** The memory agrees with the body on the table as it stands. *)
Definition memo_coherent {Arg Val : Type} (func : Arg -> M Learner Val)
  (self : Learner) (memo : Memo Arg Val) : Prop :=
  watch memo = Some (counters self) ->
  forall args v, In (args, v) (mem memo) -> func args self = Ok (v, self).

(** The counters seen last are not ahead of the sets. *)
Definition memo_behind {Arg Val : Type} (self : Learner) (memo : Memo Arg Val) : Prop :=
  match watch memo with
  | Some (cS, cE) =>
      cS <= change_counter (self_S self) /\ cE <= change_counter (self_E self)
  | None => True
  end.

Lemma In_dict_set {K V} (dec : forall x y : K, {x = y} + {x <> y}) (d : list (K * V)) k v k' v' :
  In (k', v') (dict_set dec d k v) -> (k' = k /\ v' = v) \/ In (k', v') d.
Proof.
  induction d as [|[k0 v0] d IH]; simpl.
  - intros [[= <- <-]|[]]. now left.
  - destruct (dec k0 k) as [->|N]; simpl.
    + intros [[= <- <-]|H]; auto.
    + intros [H|H]; auto. destruct (IH H); auto.
Qed.

(** The decorated function returns what its body returns, for a body that
    leaves the learner as it is, and keeps the memory coherent. *)
Lemma depends_on_S_E_transparent {Arg Val : Type}
  (Arg_eq_dec : forall x y : Arg, {x = y} + {x <> y})
  (func : Arg -> M Learner Val) (args : Arg) (memo : Memo Arg Val) (self : Learner) :
  (forall a, readonly (func a)) ->
  memo_coherent func self memo ->
  match func args self with
  | Ok (v, _) =>
      exists memo',
        depends_on_S_E Arg_eq_dec func args memo self = Ok ((v, memo'), self) /\
        watch memo' = Some (counters self) /\
        memo_coherent func self memo'
  | Raise e => depends_on_S_E Arg_eq_dec func args memo self = Raise e
  end.
Proof.
  intros Hro Hco. unfold depends_on_S_E.
  set (memo1 := if match watch memo with
                   | Some last_seen =>
                       if counters_eq_dec last_seen (counters self) then true else false
                   | None => false
                   end
                then memo else {| watch := Some (counters self); mem := [] |}).
  assert (W1 : watch memo1 = Some (counters self)).
  { unfold memo1. destruct (watch memo) as [p|] eqn:W; [|reflexivity].
    destruct (counters_eq_dec p (counters self)) as [->|]; [exact W | reflexivity]. }
  assert (C1 : memo_coherent func self memo1).
  { unfold memo1. destruct (watch memo) as [p|] eqn:W; [|intros _ a v []].
    destruct (counters_eq_dec p (counters self)); [exact Hco | intros _ a v []]. }
  destruct (dict_get Arg_eq_dec (mem memo1) args) as [v|] eqn:G.
  - apply dict_get_In in G. rewrite (C1 W1 args v G).
    exists memo1. auto.
  - destruct (func args self) as [[tmp self']|e] eqn:F; [|reflexivity].
    pose proof (Hro args _ _ _ F) as ->.
    eexists. split; [reflexivity|]. split; [exact W1|].
    intros _ a v Hin. simpl in Hin. apply In_dict_set in Hin.
    destruct Hin as [[-> ->]|Hin]; [exact F | now apply (C1 W1)].
Qed.

(** Every [add] moves a counter, so a memory that is not ahead of the
    sets is stale, hence coherent, after it. *)
Lemma memo_coherent_after_S_add {Arg Val : Type} (func : Arg -> M Learner Val)
  (self : Learner) (memo : Memo Arg Val) x :
  memo_behind self memo ->
  memo_coherent func (S_add x self) memo /\ memo_behind (S_add x self) memo.
Proof.
  unfold memo_behind, memo_coherent, counters. simpl.
  destruct (watch memo) as [[cS cE]|]; [|split; [discriminate | exact I]].
  intros [H1 H2]. split; [intros [= -> ->]; lia | lia].
Qed.

Lemma memo_coherent_after_E_add {Arg Val : Type} (func : Arg -> M Learner Val)
  (self : Learner) (memo : Memo Arg Val) x :
  memo_behind self memo ->
  memo_coherent func (E_add x self) memo /\ memo_behind (E_add x self) memo.
Proof.
  unfold memo_behind, memo_coherent, counters. simpl.
  destruct (watch memo) as [[cS cE]|]; [|split; [discriminate | exact I]].
  intros [H1 H2]. split; [intros [= -> ->]; lia | lia].
Qed.

(** The memoized [_get_row] returns the row that [_get_row] computes. *)
Lemma memoized_get_row (memo : Memo word Row) (self : Learner) (s : word) :
  In s (_SUSA self) ->
  memo_coherent _get_row self memo ->
  exists memo',
    depends_on_S_E word_eq_dec _get_row s memo self = Ok ((row self s, memo'), self) /\
    memo_coherent _get_row self memo'.
Proof.
  intros Hs Hco.
  pose proof (@depends_on_S_E_transparent word Row word_eq_dec _get_row s memo self
                readonly_get_row Hco) as T.
  rewrite (_get_row_in self s Hs) in T. destruct T as (memo' & T1 & _ & T2).
  exists memo'. auto.
Qed.

(* ================================================================= *)
(** *** Further properties of the observation table *)

Lemma In_SUSA_iff self t :
  In t (_SUSA self) <-> In t (elems (self_S self)) \/ In t (_SA self).
Proof. unfold _SUSA. now rewrite nodup_In, in_app_iff. Qed.

Lemma In_SA_iff self t :
  In t (_SA self) <->
  (exists s a, In s (elems (self_S self)) /\ In a (self_A self) /\ t = s ++ a)
  \/ In t (self_A self).
Proof.
  split; [apply In_SA_inv|].
  intros [(s & a & Hs & Ha & ->)|H]; [now apply In_app_SA|].
  unfold _SA. rewrite nodup_In, in_app_iff. now right.
Qed.

(** X1.  [_SA()] is a set (no word twice) that holds exactly the words
    [s + a] for [s] in [S] and [a] in [A], and the words of [A]; once the
    empty word is in [S] the [union(self.A)] adds nothing, every word of
    [A] being [() + a]. *)
Theorem SA_is_S_times_A (self : Learner) :
  NoDup (_SA self) /\
  (forall t, In t (_SA self) <->
     (exists s a, In s (elems (self_S self)) /\ In a (self_A self) /\ t = s ++ a)
     \/ In t (self_A self)) /\
  (In [] (elems (self_S self)) ->
   forall t, In t (_SA self) <->
     exists s a, In s (elems (self_S self)) /\ In a (self_A self) /\ t = s ++ a) /\
  NoDup (_SUSA self) /\
  (forall t, In t (_SUSA self) <-> In t (elems (self_S self)) \/ In t (_SA self)).
Proof.
  split; [apply NoDup_nodup|]. split; [apply In_SA_iff|].
  split; [|split; [apply NoDup_nodup | apply In_SUSA_iff]].
  intros H0 t. rewrite In_SA_iff. split; [|auto].
  intros [H|H]; [exact H|]. exists [], t. auto.
Qed.

(** X2.  [_get_row(s)] has two outcomes and no other: for [s] in [S], in
    [A] or of the form [s' + a] it returns the row of [s] and leaves the
    learner as it was; for any other word it raises the exception
    "s not in S u S.A", whatever the teacher. *)
Theorem get_row_raises_outside_the_table (self : Learner) (s : word) :
  ((In s (elems (self_S self)) \/ In s (self_A self) \/
    exists s' a, In s' (elems (self_S self)) /\ In a (self_A self) /\ s = s' ++ a) /\
   _get_row s self = Ok (map (fun e => member_query (s ++ e)) (elems (self_E self)), self))
  \/
  (~ In s (elems (self_S self)) /\ ~ In s (self_A self) /\
   (forall s' a, In s' (elems (self_S self)) -> In a (self_A self) -> s <> s' ++ a) /\
   _get_row s self = Raise (Exception 0)).
Proof.
  destruct (in_dec word_eq_dec s (_SUSA self)) as [I|N].
  - left. split; [|now apply _get_row_in].
    apply In_SUSA_iff in I. destruct I as [I|I]; [now left|].
    apply In_SA_iff in I. tauto.
  - right. rewrite In_SUSA_iff, In_SA_iff in N.
    split; [tauto|]. split; [tauto|]. split; [|now apply _get_row_out; rewrite In_SUSA_iff, In_SA_iff].
    intros s' a Hs Ha E. apply N. right. left. now exists s', a.
Qed.

Lemma _get_col_in self e :
  In e (elems (self_E self)) ->
  _get_col e self = Ok (map (fun s => member_query (s ++ e)) (_SUSA self), self).
Proof.
  intros H. unfold _get_col, bind, gets.
  destruct (in_dec word_eq_dec e (elems (self_E self))) as [_|N]; [|contradiction].
  apply comprehension_pure. intros; apply query_eq.
Qed.

(** X3.  [_get_col(e)] raises "e not in E" exactly when [e] is not in
    [E]; otherwise it returns one answer per word of S u S.A and leaves the
    learner as it was.  Columns are the table read the other way: the
    entry of the column of the [j]-th suffix at the [i]-th word is the
    entry of the row of the [i]-th word at the [j]-th suffix. *)
Theorem get_col_transposes_get_row (self : Learner) (e : word) :
  (~ In e (elems (self_E self)) /\ _get_col e self = Raise (Exception 1))
  \/
  (In e (elems (self_E self)) /\
   exists col,
     _get_col e self = Ok (col, self) /\
     length col = length (_SUSA self) /\
     forall i j s,
       nth_error (_SUSA self) i = Some s ->
       nth_error (elems (self_E self)) j = Some e ->
       exists r, _get_row s self = Ok (r, self) /\ nth_error col i = nth_error r j).
Proof.
  destruct (in_dec word_eq_dec e (elems (self_E self))) as [I|N].
  - right. split; [exact I|]. eexists. split; [now apply _get_col_in|].
    split; [apply length_map|]. intros i j s Hi Hj.
    exists (row self s). split; [apply _get_row_in; eapply nth_error_In; eauto|].
    unfold row. rewrite !nth_error_map, Hi, Hj. reflexivity.
  - left. split; [exact N|]. unfold _get_col, bind, gets.
    destruct (in_dec word_eq_dec e (elems (self_E self))); [contradiction | reflexivity].
Qed.

Lemma closed_iff self :
  closed self = true <->
  forall t, In t (_SA self) ->
    exists s, In s (elems (self_S self)) /\ row self t = row self s.
Proof.
  unfold closed. rewrite forallb_forall. split.
  - intros H t Ht. specialize (H t Ht). apply in_rows_true in H.
    unfold S_rows_of in H. apply in_map_iff in H. destruct H as (s & E & Hs).
    exists s. auto.
  - intros H t Ht. apply in_rows_true. destruct (H t Ht) as (s & Hs & E).
    unfold S_rows_of. rewrite E. now apply in_map.
Qed.

Lemma consistent_iff self :
  consistent self = true <->
  forall s1 s2 a,
    In s1 (elems (self_S self)) -> In s2 (elems (self_S self)) ->
    row self s1 = row self s2 -> In a (self_A self) ->
    row self (s1 ++ a) = row self (s2 ++ a).
Proof.
  split; [intros C s1 s2 a H1 H2 R Ha; now apply consistent_rows|].
  intros H. unfold consistent. apply forallb_forall. intros [s1 s2] Hp.
  apply forallb_forall. intros a Ha. apply same_row_true. simpl.
  unfold eqrows_of in Hp. apply filter_In in Hp. destruct Hp as [Hc Hr].
  apply same_row_true in Hr. apply in_combinations2 in Hc. destruct Hc.
  now apply H.
Qed.

(** X4.  [_is_closed()] never raises and leaves the learner as it was; it
    answers [True] exactly when the table is closed: every word of S.A has
    the row of some member of [S]. *)
Theorem is_closed_decides_closedness (self : Learner) :
  exists verdict,
    _is_closed self = Ok (verdict, self) /\
    (verdict = true <->
     forall t, In t (_SA self) ->
       exists s, In s (elems (self_S self)) /\
                 map (fun e => member_query (t ++ e)) (elems (self_E self))
                 = map (fun e => member_query (s ++ e)) (elems (self_E self))).
Proof.
  exists (closed self). split; [apply _is_closed_eq | apply closed_iff].
Qed.

(** X5.  [_is_consistent()] never raises and leaves the learner as it
    was; it answers [True] exactly when the table is consistent: any two
    members of [S] with the same row still have the same row after any
    word of [A] is appended to both. *)
Theorem is_consistent_decides_consistency (self : Learner) :
  exists verdict,
    _is_consistent self = Ok (verdict, self) /\
    (verdict = true <->
     forall s1 s2 a,
       In s1 (elems (self_S self)) -> In s2 (elems (self_S self)) ->
       row self s1 = row self s2 -> In a (self_A self) ->
       row self (s1 ++ a) = row self (s2 ++ a)).
Proof.
  exists (consistent self). split; [apply _is_consistent_eq | apply consistent_iff].
Qed.

Lemma find_AE_Some s1 s2 AE x :
  find_AE s1 s2 AE = Some x ->
  exists a e, In (a, e) AE /\ x = a ++ e /\
              member_query (s1 ++ a ++ e) <> member_query (s2 ++ a ++ e).
Proof.
  induction AE as [|[a e] AE IH]; simpl; [discriminate|].
  destruct (Ans_eq_dec _ _) as [E|N].
  - intros H. destruct (IH H) as (a' & e' & Hin & Hx & Hd). exists a', e'. auto.
  - intros [= <-]. exists a, e. auto.
Qed.

Lemma find_AE_None s1 s2 AE :
  find_AE s1 s2 AE = None ->
  forall a e, In (a, e) AE -> member_query (s1 ++ a ++ e) = member_query (s2 ++ a ++ e).
Proof.
  induction AE as [|[a0 e0] AE IH]; simpl; [intros _ a e []|].
  destruct (Ans_eq_dec _ _) as [E|N]; [|discriminate].
  intros H a e [[= <- <-]|Hin]; [exact E | now apply IH].
Qed.

Lemma find_eqrows_Some eqs AE x :
  find_eqrows eqs AE = Some x ->
  exists s1 s2 a e, In (s1, s2) eqs /\ In (a, e) AE /\ x = a ++ e /\
                    member_query (s1 ++ a ++ e) <> member_query (s2 ++ a ++ e).
Proof.
  induction eqs as [|[s1 s2] eqs IH]; simpl; [discriminate|].
  destruct (find_AE s1 s2 AE) as [y|] eqn:F.
  - intros [= <-]. destruct (find_AE_Some _ _ _ F) as (a & e & H1 & H2 & H3).
    exists s1, s2, a, e. auto.
  - intros H. destruct (IH H) as (t1 & t2 & a & e & H1 & H2 & H3 & H4).
    exists t1, t2, a, e. auto.
Qed.

Lemma find_eqrows_None eqs AE :
  find_eqrows eqs AE = None ->
  forall s1 s2 a e, In (s1, s2) eqs -> In (a, e) AE ->
    member_query (s1 ++ a ++ e) = member_query (s2 ++ a ++ e).
Proof.
  induction eqs as [|[t1 t2] eqs IH]; simpl; [intros _ s1 s2 a e []|].
  destruct (find_AE t1 t2 AE) as [y|] eqn:F; [discriminate|].
  intros H s1 s2 a e [[= <- <-]|Hin] Hae.
  - now apply (find_AE_None _ _ _ F).
  - now apply IH.
Qed.

Lemma step_of_E_eq self :
  self_E (step_of self) = self_E (after_consistency self).
Proof. unfold step_of. destruct (closed self); [reflexivity | apply S_adds_E]. Qed.

(** X6.  [step] never raises.  On a consistent table it leaves [E] as it
    was.  On an inconsistent table it adds exactly one suffix at the end of
    [E]: a word [a + e], with [a] in [A] and [e] in [E], that was not in
    [E], on which two members [s1], [s2] of [S] with equal rows are
    answered differently; after the step their rows differ. *)
Theorem step_repairs_one_inconsistency (self : Learner) :
  exists self',
    step self = Ok (tt, self') /\
    (_is_consistent self = Ok (true, self) -> self_E self' = self_E self) /\
    (_is_consistent self = Ok (false, self) ->
     exists s1 s2 a e,
       In s1 (elems (self_S self)) /\ In s2 (elems (self_S self)) /\
       row self s1 = row self s2 /\
       In a (self_A self) /\ In e (elems (self_E self)) /\
       member_query (s1 ++ a ++ e) <> member_query (s2 ++ a ++ e) /\
       ~ In (a ++ e) (elems (self_E self)) /\
       elems (self_E self') = elems (self_E self) ++ [a ++ e] /\
       row self' s1 <> row self' s2).
Proof.
  exists (step_of self). split; [apply step_eq|].
  rewrite _is_consistent_eq, step_of_E_eq. unfold after_consistency. split.
  - intros [= ->]. reflexivity.
  - intros [= C]. rewrite C.
    destruct (find_eqrows (eqrows_of self) (list_prod (self_A self) (elems (self_E self))))
      as [x|] eqn:F.
    + destruct (find_eqrows_Some _ _ F) as (s1 & s2 & a & e & Hp & Hae & -> & Hd).
      apply in_prod_iff in Hae. destruct Hae as [Ha He].
      unfold eqrows_of in Hp. apply filter_In in Hp. destruct Hp as [Hc Hr].
      apply same_row_true in Hr. simpl in Hr.
      apply in_combinations2 in Hc. destruct Hc as [H1 H2].
      assert (Hnew : ~ In (a ++ e) (elems (self_E self))).
      { intros I. apply Hd. now apply (row_entry self s1 s2 (a ++ e) Hr). }
      exists s1, s2, a, e. repeat split; auto.
      * simpl. destruct (in_dec word_eq_dec (a ++ e) (elems (self_E self)));
          [contradiction | reflexivity].
      * rewrite row_eq_iff. intros R. apply Hd. apply R.
        rewrite step_of_E_eq. unfold after_consistency. rewrite C, F.
        apply In_NotifierSet_add. now left.
    + exfalso. unfold consistent in C. apply forallb_false in C.
      destruct C as ([s1 s2] & Hp & C). apply forallb_false in C.
      destruct C as (a & Ha & C). simpl in C.
      assert (R : row self (s1 ++ a) = row self (s2 ++ a)).
      { apply row_eq_iff. intros e He. rewrite <- !app_assoc.
        apply (find_eqrows_None _ _ F s1 s2 a e Hp). now apply in_prod. }
      assert (R' : same_row self (s1 ++ a, s2 ++ a) = true)
        by (apply same_row_true; exact R).
      congruence.
Qed.

(** X7.  [step] never raises, never touches [T] or [A], and keeps every
    word of [S] and of [E] at its place, new words coming after them.  On
    a table that is closed and consistent it changes nothing at all. *)
Theorem step_only_extends_the_table (self : Learner) :
  exists self',
    step self = Ok (tt, self') /\
    self_T self' = self_T self /\
    self_A self' = self_A self /\
    (exists new, elems (self_S self') = elems (self_S self) ++ new) /\
    (exists new, elems (self_E self') = elems (self_E self) ++ new) /\
    (_is_closed self = Ok (true, self) -> _is_consistent self = Ok (true, self) ->
     self' = self).
Proof.
  exists (step_of self). split; [apply step_eq|].
  split; [apply step_of_T|]. split; [apply step_of_A|].
  split; [|split].
  - unfold step_of. destruct (closed self).
    + rewrite after_consistency_S. exists []. now rewrite app_nil_r.
    + destruct (S_adds_extends (unclosed (after_consistency self)) (after_consistency self))
        as [new H]. rewrite after_consistency_S in H. now exists new.
  - rewrite step_of_E_eq.
    destruct (after_consistency_cases self) as [->|[x ->]].
    + exists []. now rewrite app_nil_r.
    + apply NotifierSet_add_extends.
  - rewrite _is_closed_eq, _is_consistent_eq. intros [= Hc] [= Hs].
    unfold step_of, after_consistency. now rewrite Hc, Hs.
Qed.

(* ----------------------------------------------------------------- *)
(** *** Further properties of the hypothesis *)

Definition state_names (states : list (Row * MealyState Sym Ans Row)) : list nat :=
  map (fun x => name (snd x)) states.

Lemma state_names_dict_set states r q q' :
  dict_get Row_eq_dec states r = Some q -> name q' = name q ->
  state_names (dict_set Row_eq_dec states r q') = state_names states.
Proof.
  intros G N. induction states as [|[r0 q0] states IH]; simpl in *; [discriminate|].
  destruct (Row_eq_dec r0 r) as [->|Nr]; simpl.
  - injection G as ->. now rewrite N.
  - now rewrite IH.
Qed.

Lemma state_names_try_add_edge states r a o t :
  state_names (try_add_edge states r a o t) = state_names states.
Proof.
  unfold try_add_edge. destruct (dict_get Row_eq_dec states r) as [q|] eqn:G; [|reflexivity].
  rewrite add_edge_no_override.
  destruct (dict_get Sym_eq_dec (edges q) a) as [[t0 o0]|].
  - destruct (Row_eq_dec t0 t); [destruct (Ans_eq_dec o0 o)|]; try reflexivity.
    now apply state_names_dict_set with (q := q).
  - now apply state_names_dict_set with (q := q).
Qed.

Lemma state_names_edges_of self syms s states :
  state_names (edges_of self syms states s) = state_names states.
Proof.
  unfold edges_of. revert states.
  induction syms as [|a syms IHs]; intros st; simpl; [reflexivity|].
  rewrite IHs. unfold edge_of. destruct (in_dec _ _ _); [|reflexivity].
  apply state_names_try_add_edge.
Qed.

Lemma state_names_states_of self syms l states :
  state_names (fold_left (edges_of self syms) l states) = state_names states.
Proof.
  revert states. induction l as [|s l IH]; intros states; simpl; [reflexivity|].
  rewrite IH. apply state_names_edges_of.
Qed.

Lemma state_names_new_states rows :
  state_names (new_states rows) = seq 1 (length rows).
Proof.
  unfold state_names, new_states, enumerate. rewrite map_map. simpl.
  assert (G : forall n, map (fun x : nat * Row => fst x + 1)
                            (combine (seq n (length rows)) rows)
                        = seq (n + 1) (length rows)).
  { induction rows as [|r rows IH]; intros n; simpl; [reflexivity|].
    now rewrite IH. }
  apply (G 0).
Qed.

Lemma hypothesis_of_keys self :
  dict_keys (states (hypothesis_of self)) = nodup Row_eq_dec (S_rows_of self).
Proof. simpl. unfold states_of. now rewrite states_keys, dict_keys_new_states. Qed.

(** The edges are on the symbols [syms] and lead to states. *)
Definition edges_within (syms : list Sym) (keys : list Row)
  (states : list (Row * MealyState Sym Ans Row)) : Prop :=
  forall r a t o, edge_at states r a = Some (t, o) -> In a syms /\ In t keys.

Lemma edge_of_within self syms keys s states a0 :
  In a0 syms -> dict_keys states = keys ->
  edges_within syms keys states ->
  edges_within syms keys (edge_of self s states a0).
Proof.
  intros Ha Hk P r a t o H.
  destruct (in_dec Row_eq_dec (row self (s ++ [a0])) (dict_keys states)) as [I|N].
  - destruct (edge_of_cases self s states a0 r a) as [E|(-> & -> & E)].
    + rewrite E in H. now apply (P r a t o).
    + rewrite E in H. injection H as <- <-. split; [exact Ha | now rewrite <- Hk].
  - unfold edge_of in H. destruct (in_dec _ _ _); [contradiction|]. now apply (P r a t o).
Qed.

Lemma edges_of_within self syms keys s states :
  dict_keys states = keys ->
  edges_within syms keys states ->
  edges_within syms keys (edges_of self syms states s).
Proof.
  unfold edges_of.
  assert (G : forall l, incl l syms -> forall st,
             dict_keys st = keys -> edges_within syms keys st ->
             edges_within syms keys (fold_left (edge_of self s) l st)).
  { induction l as [|a0 l IH]; intros Hl st Hk P; simpl; [exact P|].
    apply IH; [intros y Hy; apply Hl; now right | now rewrite edge_of_keys |].
    apply edge_of_within; auto. apply Hl. now left. }
  apply G. apply incl_refl.
Qed.

Lemma states_within self syms keys l states :
  dict_keys states = keys ->
  edges_within syms keys states ->
  edges_within syms keys (fold_left (edges_of self syms) l states).
Proof.
  revert states. induction l as [|s l IH]; intros states Hk P; simpl; [exact P|].
  apply IH; [now rewrite edges_of_keys | now apply edges_of_within].
Qed.

(** Modelled from the spec: the states of the machine
    [MealyMachine(initial_state)], which is not among the sources (section
    4.2): "constructing a MealyMachine binds an initial state; all
    reachable states are transitively referenced".  The machine holds the
    states that its initial state reaches along edges. *)
Inductive reachable (h : MealyMachine Sym Ans Row) : Row -> Prop :=
| reachable_initial : reachable h (initial_state h)
| reachable_edge r a t o :
    reachable h r -> edge_at (states h) r a = Some (t, o) -> reachable h t.

(** Every word of [S] but the empty one is a word of [S] followed by a
    symbol of the alphabet. *)
Definition S_prefix_closed (self : Learner) : Prop :=
  forall s, In s (elems (self_S self)) ->
    s = [] \/
    exists s' a, s = s' ++ [a] /\ In s' (elems (self_S self)) /\ In [a] (self_A self).

Lemma reachable_rows self :
  In [] (elems (self_S self)) ->
  forall r, reachable (hypothesis_of self) r ->
            In r (nodup Row_eq_dec (S_rows_of self)).
Proof.
  intros H0 r R. induction R as [|r a t o R IH H].
  - simpl. apply nodup_In. unfold S_rows_of.
    now apply (in_map (row self)) in H0.
  - assert (W : edges_within (concat (self_A self)) (nodup Row_eq_dec (S_rows_of self))
                             (states (hypothesis_of self))).
    { simpl. unfold states_of. apply states_within; [apply dict_keys_new_states|].
      intros r1 a1 t1 o1 H1. now rewrite edge_at_new_states in H1. }
    now destruct (W r a t o H).
Qed.

Lemma rows_reachable self :
  In [] (elems (self_S self)) -> singletons (self_A self) ->
  closed self = true -> consistent self = true ->
  incl (self_A self) (elems (self_E self)) -> S_prefix_closed self ->
  forall s, In s (elems (self_S self)) -> reachable (hypothesis_of self) (row self s).
Proof.
  intros H0 HA Hcl Hco HAE Hp.
  destruct (build_dfa_edges self H0 HA) as (h & B & _ & P).
  rewrite (build_dfa_eq self H0 HA) in B. injection B as <-.
  specialize (P Hcl Hco HAE).
  assert (G : forall n s, length s = n -> In s (elems (self_S self)) ->
                          reachable (hypothesis_of self) (row self s)).
  { induction n as [|n IH]; intros s L Hs.
    - destruct s; [|discriminate]. apply reachable_initial.
    - destruct (Hp s Hs) as [->|(s' & a & -> & Hs' & Ha)]; [discriminate|].
      rewrite length_app in L. simpl in L.
      apply reachable_edge with (r := row self s') (a := a)
                                (o := member_query (s' ++ [a])).
      + apply IH; [lia | exact Hs'].
      + now apply P. }
  intros s Hs. now apply (G (length s)).
Qed.

(** X8.  On a table with the empty word in [S], the dictionary [states]
    that [build_dfa] builds has one state object for each distinct row of
    [S] and no other, called s1, s2, ..., sn in the order of the
    dictionary.  The machine that [build_dfa] returns is
    [MealyMachine(initial_state)]: its initial state is the state of the
    row of the empty word, and it holds the states that the initial state
    reaches, each of them the state of the row of a member of [S]; a state
    of the dictionary that no edge leads to is not in the machine.  On a
    closed and consistent table whose [E] contains [A] and whose [S] is
    closed under prefixes, the initial state reaches the state of every
    row: the machine has exactly one state for each distinct row of [S]. *)
Theorem build_dfa_states_are_the_rows (self : Learner) :
  In [] (elems (self_S self)) ->
  singletons (self_A self) ->
  exists h,
    build_dfa self = Ok (h, self) /\
    initial_state h = row self [] /\
    NoDup (dict_keys (states h)) /\
    (forall r, In r (dict_keys (states h)) <->
               exists s, In s (elems (self_S self)) /\ r = row self s) /\
    map (fun x => name (snd x)) (states h) = seq 1 (length (states h)) /\
    (forall r, reachable h r ->
               In r (dict_keys (states h)) /\
               exists s, In s (elems (self_S self)) /\ r = row self s) /\
    (closed self = true -> consistent self = true ->
     incl (self_A self) (elems (self_E self)) -> S_prefix_closed self ->
     forall r, reachable h r <->
               exists s, In s (elems (self_S self)) /\ r = row self s).
Proof.
  intros H0 HA. exists (hypothesis_of self). split; [now apply build_dfa_eq|].
  split; [reflexivity|]. rewrite hypothesis_of_keys.
  assert (Hin : forall r, In r (nodup Row_eq_dec (S_rows_of self)) <->
                          exists s, In s (elems (self_S self)) /\ r = row self s).
  { intros r. rewrite nodup_In. unfold S_rows_of. rewrite in_map_iff.
    split; intros (s & A & B); exists s; auto. }
  split; [apply NoDup_nodup|]. split; [exact Hin|]. split.
  { change (map (fun x => name (snd x)) (states (hypothesis_of self)))
      with (state_names (states (hypothesis_of self))).
    assert (L : length (states (hypothesis_of self))
                = length (nodup Row_eq_dec (S_rows_of self))).
    { rewrite <- hypothesis_of_keys. unfold dict_keys. now rewrite length_map. }
    rewrite L. simpl. unfold states_of.
    now rewrite state_names_states_of, state_names_new_states. }
  split.
  - intros r R. apply reachable_rows in R; [|exact H0]. split; [exact R | now apply Hin].
  - intros Hcl Hco HAE Hp r. split.
    + intros R. apply Hin. now apply reachable_rows.
    + intros (s & Hs & ->). now apply rows_reachable.
Qed.

(** X9.  Every edge of the machine that [build_dfa] returns is on a symbol
    of the alphabet, leaves a state of the machine and leads to a state of
    the machine.  When [_is_closed()] answers [True] the machine is total:
    every state has an edge on every symbol of the alphabet. *)
Theorem build_dfa_is_total_on_a_closed_table (self : Learner) :
  In [] (elems (self_S self)) ->
  singletons (self_A self) ->
  exists h,
    build_dfa self = Ok (h, self) /\
    (forall r a t o, edge_at (states h) r a = Some (t, o) ->
       In [a] (self_A self) /\ In r (dict_keys (states h)) /\
       In t (dict_keys (states h))) /\
    (_is_closed self = Ok (true, self) ->
     forall r a, In r (dict_keys (states h)) -> In [a] (self_A self) ->
       exists t o, edge_at (states h) r a = Some (t, o)).
Proof.
  intros H0 HA. exists (hypothesis_of self). split; [now apply build_dfa_eq|].
  assert (Hk : forall st, In st (elems (self_S self)) ->
                          In (row self st) (nodup Row_eq_dec (S_rows_of self))).
  { intros st Hst. apply nodup_In. unfold S_rows_of. now apply in_map. }
  split.
  - intros r a t o H. rewrite hypothesis_of_keys.
    assert (Hr : In r (nodup Row_eq_dec (S_rows_of self))).
    { unfold edge_at in H.
      destruct (dict_get Row_eq_dec (states (hypothesis_of self)) r) as [q|] eqn:G;
        [|discriminate].
      apply dict_get_Some_key in G. now rewrite hypothesis_of_keys in G. }
    assert (W : edges_within (concat (self_A self)) (nodup Row_eq_dec (S_rows_of self))
                             (states (hypothesis_of self))).
    { simpl. unfold states_of. apply states_within; [apply dict_keys_new_states|].
      intros r1 a1 t1 o1 H1. now rewrite edge_at_new_states in H1. }
    destruct (W r a t o H) as [W1 W2].
    split; [now apply In_concat_singletons | auto].
  - rewrite _is_closed_eq. intros [= Hc] r a Hr Ha. rewrite hypothesis_of_keys in Hr.
    apply nodup_In in Hr. unfold S_rows_of in Hr. apply in_map_iff in Hr.
    destruct Hr as (s & <- & Hs).
    assert (N : edge_at (states (hypothesis_of self)) (row self s) a <> None).
    { simpl. unfold states_of. apply states_sets; auto.
      - apply in_concat. exists [a]. split; [exact Ha | now left].
      - rewrite dict_keys_new_states. apply nodup_In.
        apply closed_rows; [exact Hc | now apply In_app_SA].
      - rewrite dict_keys_new_states. now apply Hk. }
    destruct (edge_at (states (hypothesis_of self)) (row self s) a) as [[t o]|];
      [now exists t, o | congruence].
Qed.

(** X10.  Without the empty word in [S], [build_dfa] builds no machine: it
    raises the exception of [_get_row], "s not in S u S.A", when it asks
    for the row of the empty word. *)
Theorem build_dfa_needs_the_empty_word (self : Learner) :
  singletons (self_A self) ->
  ~ In [] (elems (self_S self)) ->
  build_dfa self = Raise (Exception 0).
Proof.
  intros HA H0. unfold build_dfa. unfold bind at 1. unfold gets at 1.
  unfold bind at 1. rewrite rows_S. unfold bind at 1.
  rewrite _get_row_out; [reflexivity|].
  rewrite In_SUSA_iff, In_SA_iff. intros [H|[(s & a & Hs & Ha & E)|H]].
  - contradiction.
  - destruct (HA a Ha) as [x ->]. symmetry in E. now apply app_eq_nil in E as [_ E].
  - destruct (HA [] H) as [x E]. discriminate.
Qed.

(* ----------------------------------------------------------------- *)
(** *** Further properties of the main loop *)

Lemma run_refine_spec fuel :
  forall self,
  exists done self',
    run_refine fuel self = Ok (done, self') /\
    self_A self' = self_A self /\
    incl (elems (self_S self)) (elems (self_S self')) /\
    incl (elems (self_E self)) (elems (self_E self')) /\
    (done = true -> closed self' = true /\ consistent self' = true).
Proof.
  induction fuel as [|fuel IH]; intros self; simpl.
  - exists false, self. repeat split; auto using incl_refl; discriminate.
  - unfold bind at 1. rewrite _is_closed_eq. unfold bind at 1.
    assert (G : (if closed self then _is_consistent else ret false) self
                = Ok (closed self && consistent self, self)).
    { destruct (closed self); [apply _is_consistent_eq | reflexivity]. }
    rewrite G. destruct (closed self && consistent self) eqn:B.
    + exists true, self. apply andb_true_iff in B.
      repeat split; auto using incl_refl; tauto.
    + unfold bind. rewrite step_eq.
      destruct (IH (step_of self)) as (done & s' & R & HA & HS & HE & Hd).
      exists done, s'. split; [exact R|]. split; [now rewrite HA, step_of_A|].
      split; [|split; [|exact Hd]].
      * intros x Hx. apply HS. now apply step_of_S.
      * intros x Hx. apply HE. now apply step_of_E.
Qed.

Lemma add_prefixes_grows w self :
  incl (elems (self_S self))
       (elems (self_S (S_adds (map (fun i => firstn i w) (seq 1 (length w))) self))).
Proof. intros x Hx. apply In_S_adds. now right. Qed.

Lemma run_spec fuel fuel_in :
  forall self,
    In [] (elems (self_S self)) -> singletons (self_A self) ->
    exists r self',
      run fuel fuel_in self = Ok (r, self') /\
      self_A self' = self_A self /\
      incl (elems (self_S self)) (elems (self_S self')) /\
      incl (elems (self_E self)) (elems (self_E self')) /\
      forall h, r = Some h ->
        closed self' = true /\ consistent self' = true /\
        build_dfa self' = Ok (h, self') /\ fst (equivalence_query h) = true.
Proof.
  induction fuel as [|fuel IH]; intros self H0 HA; simpl.
  - exists None, self. repeat split; auto using incl_refl; discriminate.
  - unfold bind at 1. unfold run_round. unfold bind at 1.
    destruct (run_refine_spec fuel_in self) as (done & s1 & R & A1 & S1 & E1 & D1).
    rewrite R. destruct done.
    + unfold bind at 1.
      assert (B : build_dfa s1 = Ok (hypothesis_of s1, s1)).
      { apply build_dfa_eq; [now apply S1 | now rewrite A1]. }
      rewrite B. destruct (equivalence_query (hypothesis_of s1)) as [eqv cex] eqn:Q.
      destruct eqv.
      * exists (Some (hypothesis_of s1)), s1. repeat split; auto.
        -- now apply D1.
        -- now apply D1.
        -- injection H as <-. exact B.
        -- injection H as <-. now rewrite Q.
      * unfold bind at 1. rewrite query_eq. unfold bind at 1.
        rewrite add_prefixes_eq. unfold ret at 1.
        set (s2 := S_adds (map (fun i => firstn i cex) (seq 1 (length cex))) s1).
        destruct (IH s2) as (r & s3 & R3 & A3 & S3 & E3 & D3).
        -- apply add_prefixes_grows. now apply S1.
        -- unfold s2. now rewrite S_adds_A, A1.
        -- exists r, s3. split; [exact R3|].
           split; [unfold s2 in A3; now rewrite A3, S_adds_A|].
           split; [|split; [|exact D3]].
           ++ intros x Hx. apply S3. apply add_prefixes_grows. now apply S1.
           ++ intros x Hx. apply E3. unfold s2. rewrite S_adds_E. now apply E1.
    + exists None, s1. repeat split; auto. all: discriminate.
Qed.

(** X11.  From a learner with the empty word in [S], [run] never raises:
    it returns a machine or runs out of fuel, and [S] and [E] have kept
    their words.  A machine that it returns was built by [build_dfa] from
    the table as [run] leaves it, and on that table [_is_closed()] and
    [_is_consistent()] both answer [True]: no hypothesis is built from a
    table that is not closed and consistent. *)
Theorem run_builds_from_closed_consistent_tables (fuel fuel_in : nat) (self : Learner) :
  In [] (elems (self_S self)) ->
  singletons (self_A self) ->
  exists r self',
    run fuel fuel_in self = Ok (r, self') /\
    incl (elems (self_S self)) (elems (self_S self')) /\
    incl (elems (self_E self)) (elems (self_E self')) /\
    forall h, r = Some h ->
      _is_closed self' = Ok (true, self') /\
      _is_consistent self' = Ok (true, self') /\
      build_dfa self' = Ok (h, self').
Proof.
  intros H0 HA. destruct (@run_spec fuel fuel_in self H0 HA) as (r & s' & R & _ & HS & HE & D).
  exists r, s'. repeat split; auto.
  - rewrite _is_closed_eq. now destruct (D h H) as (-> & _).
  - rewrite _is_consistent_eq. now destruct (D h H) as (_ & -> & _).
  - now destruct (D h H) as (_ & _ & B & _).
Qed.

Lemma S_adds_known l self :
  (forall x, In x l -> In x (elems (self_S self))) ->
  elems (self_S (S_adds l self)) = elems (self_S self).
Proof.
  unfold S_adds. revert self. induction l as [|x l IH]; intros self H; simpl; [reflexivity|].
  rewrite IH.
  - simpl. destruct (in_dec word_eq_dec x (elems (self_S self))) as [_|N]; [reflexivity|].
    exfalso. apply N. apply H. now left.
  - intros y Hy. change (self_S (S_add x self)) with (NotifierSet_add x (self_S self)).
    apply In_NotifierSet_add. right. apply H. now right.
Qed.

(** X12.  The integration of a counterexample [w] never raises, leaves
    [E], [T] and [A] as they were, keeps the words of [S] at their place
    and makes [S] hold, besides them, exactly the prefixes of [w] of length
    1 to [|w|] (the empty prefix is not added).  Integrating the same
    counterexample once more adds no word. *)
Theorem add_prefixes_adds_the_prefixes (w : word) (self : Learner) :
  exists self',
    add_prefixes w self = Ok (tt, self') /\
    self_E self' = self_E self /\ self_T self' = self_T self /\
    self_A self' = self_A self /\
    (exists new, elems (self_S self') = elems (self_S self) ++ new) /\
    (forall t, In t (elems (self_S self')) <->
       In t (elems (self_S self)) \/ exists i, 1 <= i <= length w /\ t = firstn i w) /\
    exists self'',
      add_prefixes w self' = Ok (tt, self'') /\
      elems (self_S self'') = elems (self_S self').
Proof.
  set (l := map (fun i => firstn i w) (seq 1 (length w))).
  exists (S_adds l self). split; [apply add_prefixes_eq|].
  split; [apply S_adds_E|]. split; [apply S_adds_T|]. split; [apply S_adds_A|].
  split; [apply S_adds_extends|]. split.
  - intros t. rewrite In_S_adds. unfold l. rewrite in_map_iff. split.
    + intros [(i & <- & Hi)|H]; [right|now left]. apply in_seq in Hi.
      exists i. split; [lia | reflexivity].
    + intros [H|(i & Hi & ->)]; [now right|left]. exists i. split; [reflexivity|].
      apply in_seq. lia.
  - exists (S_adds l (S_adds l self)). split; [apply add_prefixes_eq|].
    apply S_adds_known. intros x Hx. apply In_S_adds. now left.
Qed.

(* ----------------------------------------------------------------- *)
(** *** Further properties of the memoization decorators *)

(** [self._watch[name]] and [self._mem[name]] of a function decorated
    with [depends_on_S]; [None] says that the name is not in the
    dictionary. *)
Record Memo_S (Val : Type) : Type := {
  watch_S : option nat;
  mem_S : option Val
}.

(** The wrapper that [depends_on_S(func)] returns.  A name that is missing
    from [_watch] is entered with the counter 0. *)
Definition depends_on_S {Val : Type} (func : M Learner Val) (memo : Memo_S Val)
  : M Learner (Val * Memo_S Val) :=
  fun self =>
    let counter := change_counter (self_S self) in
    let last_seen := match watch_S memo with
                     | Some n => n
                     | None => 0
                     end in
    if Nat.eq_dec last_seen counter then
      match mem_S memo with
      | Some v => Ok ((v, {| watch_S := Some last_seen; mem_S := Some v |}), self)
      | None => Raise KeyError                   (* self._mem[func.__name__] *)
      end
    else
      match func self with
      | Ok (tmp, self') =>
          Ok ((tmp, {| watch_S := Some counter; mem_S := Some tmp |}), self')
      | Raise e => Raise e
      end.

(** The memory of [depends_on_S] agrees with the body on the learner as
    it stands. *)
Definition memo_S_coherent {Val : Type} (func : M Learner Val) (self : Learner)
  (memo : Memo_S Val) : Prop :=
  match watch_S memo with
  | Some n =>
      n = change_counter (self_S self) ->
      exists v, mem_S memo = Some v /\ func self = Ok (v, self)
  | None => True
  end.

(** X13.  The wrapper of [depends_on_S] starts from the counter 0 for a
    function it has not seen: called for the first time while the change
    counter of [S] is still 0, it looks the result up in an empty memory
    and raises [KeyError], whatever the function.  Once the counter is
    above 0 (the constructor adds the empty word to [S]), the wrapper of a
    function that leaves the learner as it is returns what the function
    returns, from the memory or by a call, and the memory stays coherent;
    and a call that follows one that returned, the counter of [S] being
    the same, returns the same value from the memory, whatever the function
    does. *)
Theorem depends_on_S_misses_at_counter_zero :
  (forall Val (func : M Learner Val) self,
      change_counter (self_S self) = 0 ->
      depends_on_S func {| watch_S := None; mem_S := None |} self = Raise KeyError) /\
  (forall Val (func : M Learner Val) memo self,
      readonly func ->
      1 <= change_counter (self_S self) ->
      memo_S_coherent func self memo ->
      match func self with
      | Ok (v, _) =>
          exists memo',
            depends_on_S func memo self = Ok ((v, memo'), self) /\
            watch_S memo' = Some (change_counter (self_S self)) /\
            memo_S_coherent func self memo'
      | Raise e => depends_on_S func memo self = Raise e
      end) /\
  (forall Val (func : M Learner Val) memo self v memo' self',
      depends_on_S func memo self = Ok ((v, memo'), self') ->
      change_counter (self_S self') = change_counter (self_S self) ->
      depends_on_S func memo' self' = Ok ((v, memo'), self')) /\
  (forall alphabet, change_counter (self_S (__init__ alphabet)) = 1).
Proof.
  split; [|split; [|split]].
  - intros Val func self H. unfold depends_on_S. simpl. rewrite H. reflexivity.
  - intros Val func memo self Hro Hc Hco. unfold depends_on_S.
    unfold memo_S_coherent in Hco.
    destruct (watch_S memo) as [n|] eqn:W.
    + destruct (Nat.eq_dec n (change_counter (self_S self))) as [E|N].
      * destruct (Hco E) as (v & Hm & Hf). rewrite Hf, Hm.
        eexists. split; [reflexivity|]. simpl. split; [now rewrite E|].
        unfold memo_S_coherent. simpl. intros _. now exists v.
      * destruct (func self) as [[tmp self']|e] eqn:F; [|reflexivity].
        pose proof (Hro _ _ _ F) as ->.
        eexists. split; [reflexivity|]. simpl. split; [reflexivity|].
        unfold memo_S_coherent. simpl. intros _. now exists tmp.
    + destruct (Nat.eq_dec 0 (change_counter (self_S self))) as [E|N]; [lia|].
      destruct (func self) as [[tmp self']|e] eqn:F; [|reflexivity].
      pose proof (Hro _ _ _ F) as ->.
      eexists. split; [reflexivity|]. simpl. split; [reflexivity|].
      unfold memo_S_coherent. simpl. intros _. now exists tmp.
  - intros Val func memo self v memo' self'. unfold depends_on_S.
    destruct (Nat.eq_dec _ (change_counter (self_S self))) as [E|N].
    + destruct (mem_S memo) as [v0|]; [|discriminate].
      intros [= <- <- <-] _. simpl.
      destruct (Nat.eq_dec _ _) as [_|N]; [reflexivity | contradiction].
    + destruct (func self) as [[tmp s1]|e]; [|discriminate].
      intros [= <- <- <-] Hc. simpl. rewrite Hc.
      destruct (Nat.eq_dec _ _) as [_|N']; [reflexivity | contradiction].
  - reflexivity.
Qed.

(** X14.  The wrapper of [depends_on_S_E] never fails for a missing name:
    with a coherent memory and a function that leaves the learner as it is
    it returns what the function returns (and raises what it raises).  A
    call that follows one that returned, with the same arguments and the
    counters of [S] and [E] unmoved, returns the same value and the same
    memory without a call of the function, whatever the function does. *)
Theorem depends_on_S_E_caches {Arg Val : Type}
  (Arg_eq_dec : forall x y : Arg, {x = y} + {x <> y}) (func : Arg -> M Learner Val) :
  (forall args memo self,
      (forall a, readonly (func a)) ->
      memo_coherent func self memo ->
      match func args self with
      | Ok (v, _) =>
          exists memo',
            depends_on_S_E Arg_eq_dec func args memo self = Ok ((v, memo'), self) /\
            memo_coherent func self memo'
      | Raise e => depends_on_S_E Arg_eq_dec func args memo self = Raise e
      end) /\
  (forall args memo self v memo' self',
      depends_on_S_E Arg_eq_dec func args memo self = Ok ((v, memo'), self') ->
      counters self' = counters self ->
      depends_on_S_E Arg_eq_dec func args memo' self' = Ok ((v, memo'), self')).
Proof.
  split.
  - intros args memo self Hro Hco.
    pose proof (@depends_on_S_E_transparent Arg Val Arg_eq_dec func args memo self Hro Hco)
      as T.
    destruct (func args self) as [[v s1]|e]; [|exact T].
    destruct T as (memo' & T1 & _ & T2). now exists memo'.
  - intros args memo self v memo' self'. unfold depends_on_S_E.
    set (memo1 := if match watch memo with
                     | Some last_seen =>
                         if counters_eq_dec last_seen (counters self) then true else false
                     | None => false
                     end
                  then memo else {| watch := Some (counters self); mem := [] |}).
    assert (W1 : watch memo1 = Some (counters self)).
    { unfold memo1. destruct (watch memo) as [p|] eqn:W; [|reflexivity].
      destruct (counters_eq_dec p (counters self)) as [->|]; [exact W | reflexivity]. }
    destruct (dict_get Arg_eq_dec (mem memo1) args) as [v0|] eqn:G.
    + intros [= <- <- <-] _. rewrite W1.
      destruct (counters_eq_dec (counters self) (counters self)) as [_|N];
        [|contradiction]. now rewrite G.
    + destruct (func args self) as [[tmp s1]|e]; [|discriminate].
      intros [= <- <- <-] Hc. simpl. rewrite W1, Hc.
      destruct (counters_eq_dec (counters self) (counters self)) as [_|N];
        [|contradiction]. simpl. now rewrite dict_get_set_same.
Qed.

End WithTeacher.

(* ----------------------------------------------------------------- *)
(** *** The table over a teacher that answers with output words

    Section 4.1 of the specification: [membership_query(w)] is the output
    word of the SUL on [w], of length [|w|]. *)

Section OutputWords.
Context {Sym Out : Type}.
Variable Sym_eq_dec : forall x y : Sym, {x = y} + {x <> y}.

(** The output word of the SUL on a word. *)
Variable sul : list Sym -> list Out.
Hypothesis sul_length : forall w, length (sul w) = length w.

(** The entry [T(s.e)] in the words of the specification: the output of
    the SUL on [s.e], projected to the suffix of length [|e|]. *)
Definition projected_output (s e : list Sym) : list Out :=
  skipn (length s) (sul (s ++ e)).

(** The row as the specification describes it. *)
Definition projected_row (self : @Learner Sym (list Out)) (s : list Sym) : list (list Out) :=
  map (projected_output s) (elems (self_E self)).

(** The last symbol of the output word of the SUL on [w], as a word. *)
Definition last_output (w : list Sym) : list Out :=
  skipn (length w - 1) (sul w).

(** C1, as amended.  For [s] in S u S.A, [_get_row(s)] returns normally
    and leaves the learner as it is; the row is the vector, over [e] in
    [E] in the order of [E], of the teacher's answers to the membership
    queries on [s + e], whole: the entry for [e] is the output word on
    [s + e], of length [|s| + |e|], and the projection of the
    specification is what is left of it after its first [|s|] symbols. *)
Theorem get_row_holds_whole_answers (self : @Learner Sym (list Out)) (s : list Sym) :
  In s (_SUSA Sym_eq_dec self) ->
  exists r,
    _get_row Sym_eq_dec sul s self = Ok (r, self) /\
    r = map (fun e => sul (s ++ e)) (elems (self_E self)) /\
    Forall2 (fun e entry => length entry = length s + length e /\
                            skipn (length s) entry = projected_output s e)
            (elems (self_E self)) r.
Proof.
  intros H. exists (row sul self s). split; [now apply _get_row_in|].
  split; [reflexivity|]. unfold row.
  induction (elems (self_E self)) as [|e E IH]; simpl; constructor; [|exact IH].
  split; [|reflexivity]. now rewrite sul_length, length_app.
Qed.

End OutputWords.

(* ----------------------------------------------------------------- *)
(** *** The teacher that answers with the final output symbol *)

Section FinalOutputSymbol.
Context {Sym Out : Type}.
Variable Sym_eq_dec : forall x y : Sym, {x = y} + {x <> y}.
Variable Out_eq_dec : forall x y : Out, {x = y} + {x <> y}.

(** The output word of the SUL on a word. *)
Variable sul : list Sym -> list Out.

(** C5.  The teacher answers a membership query with the last symbol of
    the output word of the SUL.  Every edge of the dictionary of states
    that [build_dfa] builds was added for some [s] in [S] and [a] in [A]:
    it goes from the state of [row(s)] to the state of [row(s + (a,))] and
    its output is the last symbol of the output word of the SUL on
    [s + (a,)].  When [E] contains [A], the edge that the state of
    [row(s)] has on [a] carries the last symbol of the output word on
    [s + (a,)] for every [s] in [S] with that row, whichever of them the
    edge was added for.  On a closed and consistent table the state of
    [row(s)] has that edge on [a], to the state of [row(s + (a,))], for
    every [s] in [S] and [a] in [A]. *)
Theorem build_dfa_edge_output_is_the_last_symbol (self : @Learner Sym (option Out)) :
  In [] (elems (self_S self)) ->
  singletons (self_A self) ->
  exists h,
    build_dfa Sym_eq_dec (option_eq_dec Out_eq_dec) (final_symbol_teacher sul) self
    = Ok (h, self) /\
    (forall r a t o,
       edge_at Sym_eq_dec (option_eq_dec Out_eq_dec) (states h) r a = Some (t, o) ->
       exists s, In s (elems (self_S self)) /\ In [a] (self_A self) /\
                 row (final_symbol_teacher sul) self s = r /\
                 t = row (final_symbol_teacher sul) self (s ++ [a]) /\
                 o = final_symbol (sul (s ++ [a]))) /\
    (incl (self_A self) (elems (self_E self)) ->
     forall s a t o, In s (elems (self_S self)) -> In [a] (self_A self) ->
       edge_at Sym_eq_dec (option_eq_dec Out_eq_dec) (states h)
               (row (final_symbol_teacher sul) self s) a = Some (t, o) ->
       o = final_symbol (sul (s ++ [a]))) /\
    (closed Sym_eq_dec (option_eq_dec Out_eq_dec) (final_symbol_teacher sul) self = true ->
     consistent (option_eq_dec Out_eq_dec) (final_symbol_teacher sul) self = true ->
     incl (self_A self) (elems (self_E self)) ->
     forall s a, In s (elems (self_S self)) -> In [a] (self_A self) ->
       edge_at Sym_eq_dec (option_eq_dec Out_eq_dec) (states h)
               (row (final_symbol_teacher sul) self s) a
       = Some (row (final_symbol_teacher sul) self (s ++ [a]),
               final_symbol (sul (s ++ [a])))).
Proof.
  intros H0 HA.
  destruct (@build_dfa_edges Sym (option Out) Sym_eq_dec (option_eq_dec Out_eq_dec)
              (final_symbol_teacher sul) self H0 HA) as (h & B & P1 & P2).
  exists h. split; [exact B|]. split; [exact P1|]. split; [|exact P2].
  intros HAE s a t o Hs Ha H.
  destruct (P1 _ _ _ _ H) as (s0 & Hs0 & _ & Hr & _ & ->).
  apply (@row_entry Sym (option Out) (final_symbol_teacher sul) self s0 s [a] Hr).
  now apply HAE.
Qed.

End FinalOutputSymbol.
End LStar.

(* ================================================================= *)
(** ** Words as text ([_tostr], [_rebuildquery], [memoize])

    Symbols are strings here, so [str(x)] is [x].  A Python string is
    modelled by its UTF-8 bytes: the comma is one byte that occurs in no
    other character, so splitting at commas and comparing strings come out
    the same. *)

Module LStarText.
Import String.StringSyntax Ascii.AsciiSyntax.
Delimit Scope string_scope with string.
Delimit Scope char_scope with char.

Definition string_eq_dec : forall x y : String.string, {x = y} + {x <> y} :=
  String.string_dec.

(** [s.split(sep)] for a one-character separator. *)
Fixpoint split (sep : Ascii.ascii) (s : String.string) : list String.string :=
  match s with
  | String.EmptyString => [String.EmptyString]
  | String.String c s' =>
      if Ascii.ascii_dec c sep then String.EmptyString :: split sep s'
      else match split sep s' with
           | h :: t => String.String c h :: t
           | [] => [String.String c String.EmptyString]
           end
  end.

(** [c in s]. *)
Fixpoint contains (c : Ascii.ascii) (s : String.string) : bool :=
  match s with
  | String.EmptyString => false
  | String.String c' s' => if Ascii.ascii_dec c' c then true else contains c s'
  end.

(** [_tostr]: the word with commas between its symbols, by
    [reduce(lambda x, y: str(x) + ',' + str(y), actionlist)], and the
    letter lambda for the empty word. *)
Definition _tostr (actionlist : list String.string) : String.string :=
  match actionlist with
  | [] => "λ"%string
  | x :: rest =>
      fold_left (fun x y => String.append x (String.append ","%string y)) rest x
  end.

(** The body of [_rebuildquery]:
    [tuple(filter(lambda x: x != 'λ', strquery.split(',')))]. *)
Definition _rebuildquery (strquery : String.string) : list String.string :=
  filter (fun x => if string_eq_dec x "λ"%string then false else true)
         (split ","%char strquery).

(** The wrapper that [memoize(f)] returns, on the dictionary [memo]:
    [if args not in memo: memo[args] = f(args)] and [return memo[args]].
    The result is the value and the dictionary after the call. *)
Definition memoize {Arg Val : Type} (Arg_eq_dec : forall x y : Arg, {x = y} + {x <> y})
  (f : Arg -> Val) (args : Arg) (memo : list (Arg * Val)) : Val * list (Arg * Val) :=
  match dict_get Arg_eq_dec memo args with
  | Some v => (v, memo)
  | None =>
      let memo' := dict_set Arg_eq_dec memo args (f args) in
      match dict_get Arg_eq_dec memo' args with
      | Some v => (v, memo')
      | None => (f args, memo')
      end
  end.

Lemma split_not_nil sep s : split sep s <> [].
Proof.
  destruct s as [|c s]; simpl; [discriminate|].
  destruct (Ascii.ascii_dec c sep); [discriminate|].
  destruct (split sep s); discriminate.
Qed.

Lemma split_no_sep sep s : contains sep s = false -> split sep s = [s].
Proof.
  induction s as [|c s IH]; simpl; [reflexivity|].
  destruct (Ascii.ascii_dec c sep); [discriminate|].
  intros H. now rewrite IH.
Qed.

Lemma split_snoc sep acc y :
  contains sep y = false ->
  split sep (String.append acc (String.String sep y)) = split sep acc ++ [y].
Proof.
  intros Hy. induction acc as [|c acc IH]; simpl.
  - destruct (Ascii.ascii_dec sep sep) as [_|N]; [|contradiction].
    now rewrite split_no_sep.
  - destruct (Ascii.ascii_dec c sep); [now rewrite IH|].
    rewrite IH. pose proof (split_not_nil sep acc) as N.
    destruct (split sep acc); [contradiction | reflexivity].
Qed.

Lemma split_join sep rest :
  Forall (fun y => contains sep y = false) rest ->
  forall acc,
    split sep (fold_left (fun x y => String.append x (String.String sep y)) rest acc)
    = split sep acc ++ rest.
Proof.
  induction 1 as [|y rest Hy Hrest IH]; intros acc; simpl.
  - now rewrite app_nil_r.
  - rewrite IH, split_snoc by exact Hy. now rewrite <- app_assoc.
Qed.

(** X15.  [_rebuildquery] undoes [_tostr] on every word whose symbols
    contain no comma and are not the letter lambda: the empty word comes
    back from its lambda, any other word from its comma-separated text;
    and through [memoize], with a dictionary that holds only results of
    [_rebuildquery], the same word comes back and the dictionary still
    holds only results of [_rebuildquery].  A symbol that is the letter
    lambda is lost, and a symbol with a comma comes back as two. *)
Theorem rebuildquery_undoes_tostr :
  (forall w : list String.string,
      Forall (fun x => contains ","%char x = false /\ x <> "λ"%string) w ->
      _rebuildquery (_tostr w) = w /\
      forall memo,
        (forall k v, In (k, v) memo -> v = _rebuildquery k) ->
        fst (memoize string_eq_dec _rebuildquery (_tostr w) memo) = w /\
        forall k v, In (k, v) (snd (memoize string_eq_dec _rebuildquery (_tostr w) memo)) ->
                    v = _rebuildquery k) /\
  _rebuildquery (_tostr ["λ"%string]) = [] /\
  _rebuildquery (_tostr ["a,b"%string]) = ["a"%string; "b"%string].
Proof.
  split; [|split; reflexivity].
  intros w Hw.
  assert (R : _rebuildquery (_tostr w) = w).
  { unfold _rebuildquery. destruct w as [|x rest]; [reflexivity|].
    inversion Hw as [|? ? [Hx1 Hx2] Hrest]; subst. unfold _tostr.
    change (fun x0 y : String.string => String.append x0 (String.append ","%string y))
      with (fun x0 y : String.string => String.append x0 (String.String ","%char y)).
    rewrite split_join.
    - rewrite split_no_sep by exact Hx1. simpl.
      destruct (string_eq_dec x "λ"%string) as [E|_]; [contradiction|].
      f_equal. clear Hw. induction Hrest as [|y rest [_ Hy] _ IH]; simpl; [reflexivity|].
      destruct (string_eq_dec y "λ"%string) as [E|_]; [contradiction|]. now rewrite IH.
    - eapply Forall_impl; [|exact Hrest]. intros y [Hy _]. exact Hy. }
  split; [exact R|]. intros memo Hm. unfold memoize.
  destruct (dict_get string_eq_dec memo (_tostr w)) as [v|] eqn:G.
  - simpl. split; [|exact Hm]. apply dict_get_In in G. rewrite (Hm _ _ G). exact R.
  - rewrite dict_get_set_same. simpl. split; [exact R|].
    intros k v Hin. apply dict_get_None in G.
    rewrite (@dict_keys_set_new _ _ string_eq_dec memo (_tostr w)
               (_rebuildquery (_tostr w)) G) in Hin.
    apply in_app_or in Hin. destruct Hin as [Hin|[[= <- <-]|[]]]; [now apply Hm | reflexivity].
Qed.

End LStarText.

(* ================================================================= *)
(** ** The TTT learner ([_ttt_mealy_learner.py]) *)

Module TTT.
Section WithTeacher.
Context {Sym Ans : Type}.
Variable Sym_eq_dec : forall x y : Sym, {x = y} + {x <> y}.
Variable Ans_eq_dec : forall x y : Ans, {x = y} + {x <> y}.

Local Notation "'word'" := (list Sym).

(** A [State] object is called s<n> and is identified by the number [n]:
    a state is created as [State(f's{len(self.S)}')] and stored under a
    fresh key of [self.S] at once, so no two states share a number. *)
Definition State : Type := nat.

Definition word_eq_dec : forall x y : word, {x = y} + {x <> y} :=
  list_eq_dec Sym_eq_dec.

(** Modelled from the spec: [self.query] of [TTTAbstractLearner], which is
    not among the sources; "query SUL on w.v" (section 4.4). *)
Variable member_query : word -> Ans.

(** Modelled from the spec: the discrimination tree of
    [TTTAbstractLearner] (section 3): inner nodes carry a suffix, their
    children are keyed by the outputs observed, leaves hold a state. *)
#[local] Unset Elimination Schemes.
Inductive DTreeNode : Type :=
| Leaf (state : State)
| Inner (suffix : word) (temporary : bool) (children : list (Ans * DTreeNode)).
#[local] Set Elimination Schemes.

(** The states at the leaves of a tree, from left to right. *)
Fixpoint leaves (n : DTreeNode) : list State :=
  match n with
  | Leaf q => [q]
  | Inner _ _ children => flat_map (fun rc => leaves (snd rc)) children
  end.

Definition leaves_of_root (root : option DTreeNode) : list State :=
  match root with
  | Some n => leaves n
  | None => []
  end.

Record Learner : Type := {
  self_S : list (word * State);                       (* self.S, a dict *)
  DTree_root : option DTreeNode;                      (* self.DTree.root *)
  self_A : list word;                                 (* self.A *)
  heap : list (State * MealyState Sym Ans State)      (* the State objects *)
}.

Definition set_S (f : list (word * State) -> list (word * State)) (self : Learner) :=
  {| self_S := f (self_S self); DTree_root := DTree_root self;
     self_A := self_A self; heap := heap self |}.
Definition set_root (r : option DTreeNode) (self : Learner) :=
  {| self_S := self_S self; DTree_root := r;
     self_A := self_A self; heap := heap self |}.
Definition set_heap (f : list (State * MealyState Sym Ans State) ->
                         list (State * MealyState Sym Ans State)) (self : Learner) :=
  {| self_S := self_S self; DTree_root := DTree_root self;
     self_A := self_A self; heap := f (heap self) |}.

(** [State(f's{n}')]: a new object without edges. *)
Definition new_State (n : nat) : M Learner State :=
  modify (set_heap (fun h => h ++ [(n, {| name := n; edges := [] |})])) ;;; ret n.

(** [q.add_edge(a, o, q', override=True)] on the object of [q]. *)
Definition State_add_edge (q : State) (a : Sym) (o : Ans) (q' : State) : M Learner unit :=
  modify (set_heap (fun h =>
    let obj := match dict_get Nat.eq_dec h q with
               | Some obj => obj
               | None => {| name := q; edges := [] |}
               end in
    match add_edge Sym_eq_dec Ans_eq_dec Nat.eq_dec obj a o q' true with
    | Ok obj' => dict_set Nat.eq_dec h q obj'
    | Raise _ => h
    end)).

(** Modelled from the spec: the constructor of [TTTAbstractLearner]
    (section 4.4): "Access-sequence map S (the empty word maps to q0
    initially).  Discrimination tree with a single leaf for q0 under a root
    whose suffix is the empty word." *)
Definition __init__ (alphabet : list Sym) : Learner :=
  {| self_S := [([], 0)];
     DTree_root := Some (Inner [] false [(member_query [], Leaf 0)]);
     self_A := nodup word_eq_dec (map (fun x => [x]) alphabet);
     heap := [(0, {| name := 0; edges := [] |})] |}.

(** The [while] loop of [sift], from the node [cur]; the result is
    [(cur_dtree_node, response)] as the loop leaves them.  The walk ends at
    a leaf, or at [None] under the inner node that has no child for the
    response ([prev_dtree_node]). *)
Fixpoint sift_loop (cur : DTreeNode) (sequence : word) (response : option Ans)
  : option DTreeNode * option Ans :=
  match cur with
  | Leaf _ => (Some cur, response)
  | Inner suffix _ children =>
      let seq := sequence ++ suffix in
      let response := member_query seq in
      (fix child (l : list (Ans * DTreeNode)) : option DTreeNode * option Ans :=
         match l with
         | [] => (None, Some response)                  (* response not in children *)
         | (r, c) :: l' =>
             if Ans_eq_dec r response then sift_loop c sequence (Some response)
             else child l'
         end) children
  end.

(** [prev_dtree_node.add(response, new_dtree_node)]: the tree in which the
    inner node where the walk of [sequence] from [cur] ends without a child
    has got [new_dtree_node] under the response, as a new key of its
    dictionary of children. *)
Fixpoint attach (cur : DTreeNode) (sequence : word) (new_dtree_node : DTreeNode)
  : DTreeNode :=
  match cur with
  | Leaf _ => cur
  | Inner suffix temporary children =>
      let response := member_query (sequence ++ suffix) in
      Inner suffix temporary
        ((fix child (l : list (Ans * DTreeNode)) : list (Ans * DTreeNode) :=
            match l with
            | [] => [(response, new_dtree_node)]
            | (r, c) :: l' =>
                if Ans_eq_dec r response
                then (r, attach c sequence new_dtree_node) :: l'
                else (r, c) :: child l'
            end) children)
  end.

(** [sift].  [prev_dtree_node] is [None] only when the loop body never
    ran, and then [response] is [None] too: the assertion on
    [prev_dtree_node] never fails after the one on [response] passed. *)
Definition sift (sequence : word) : M Learner State :=
  root <- gets DTree_root ;;
  let walk := match root with
              | Some cur => sift_loop cur sequence None
              | None => (None, None)
              end in
  match fst walk with
  | None =>
      let new_acc_seq := sequence in
      S <- gets self_S ;;
      if in_dec word_eq_dec new_acc_seq (dict_keys S) then raise AssertionError
      else
        new_state <- new_State (length S) ;;
        let new_dtree_node := Leaf new_state in
        modify (set_S (fun S => dict_set word_eq_dec S new_acc_seq new_state)) ;;;
        match snd walk, root with
        | Some _, Some cur =>
            modify (set_root (Some (attach cur sequence new_dtree_node))) ;;;
            ret new_state
        | _, _ => raise AssertionError     (* assert response is not None *)
        end
  | Some (Leaf state) => ret state
  | Some (Inner _ _ _) => raise AssertionError   (* assert cur_dtree_node.isLeaf *)
  end.

(** [a[0]]. *)
Definition item0 (a : word) : M Learner Sym :=
  match a with
  | x :: _ => ret x
  | [] => raise IndexError
  end.

(** The body of [for a in self.A] in the first loop of
    [construct_hypothesis]. *)
Definition add_transition (access_seq : word) (cur_state : State) (a : word)
  : M Learner unit :=
  next_state <- sift (access_seq ++ a) ;;
  let output := member_query (access_seq ++ a) in
  a0 <- item0 a ;;
  State_add_edge cur_state a0 output next_state.

(** One pass of the [while items_added] loop: the transitions of every
    entry of [list(self.S.items())]. *)
Definition add_transitions : M Learner unit :=
  items <- gets self_S ;;
  A <- gets self_A ;;
  for_each items (fun item =>
    for_each A (add_transition (fst item) (snd item))).

(** The [while items_added] loop; [n] is the number of states before the
    pass.  The result is [false] when the fuel ran out. *)
Fixpoint add_transitions_loop (fuel : nat) (n : nat) : M Learner bool :=
  match fuel with
  | 0 => ret false
  | S fuel' =>
      add_transitions ;;;
      n2 <- gets (fun self => length (self_S self)) ;;
      if Nat.eq_dec n n2 then ret true else add_transitions_loop fuel' n2
  end.

(** The body of the loop "Add spanning tree transitions". *)
Definition add_spanning_edge (item : word * State) : M Learner unit :=
  let (access_seq, state) := item in
  if 0 <? length access_seq then
    let ancestor_acc_seq := removelast access_seq in
    S <- gets self_S ;;
    ancestor_state <- dict_item word_eq_dec S ancestor_acc_seq ;;
    match rev access_seq with
    | a :: _ =>
        let output := member_query (ancestor_acc_seq ++ [a]) in
        State_add_edge ancestor_state a output state
    | [] => ret tt
    end
  else ret tt.

(** [construct_hypothesis]; [None] when the fuel ran out. *)
Definition construct_hypothesis (fuel : nat)
  : M Learner (option (MealyMachine Sym Ans State)) :=
  S <- gets self_S ;;
  initial_state <- dict_item word_eq_dec S [] ;;
  let n := length S in
  done <- add_transitions_loop fuel n ;;
  if done then
    S <- gets self_S ;;
    for_each S add_spanning_edge ;;;
    h <- gets heap ;;
    ret (Some {| initial_state := initial_state; states := h |})
  else ret None.

(** Modelled from the spec: [decompose] of [TTTAbstractLearner] (section
    4.4), "must return (u, a, v) with |a| = 1", and
    [get_state_from_sequence], "the state reached by ... in the current
    hypothesis".  Both are parameters. *)
Variable decompose : Learner -> word -> word * Sym * word.
Variable get_state_from_sequence : Learner -> word -> State.

(** Modelled from the spec: [get_access_sequence_from_state] of
    [TTTAbstractLearner] (section 4.4, "u_old = access sequence of
    q_old"): the key of [self.S] under which the state is stored. *)
Definition get_access_sequence_from_state (state : State) : M Learner word :=
  S <- gets self_S ;;
  match find (fun item => Nat.eqb (snd item) state) S with
  | Some item => ret (fst item)
  | None => raise AssertionError
  end.

(** Modelled from the spec: [get_access_sequence] of [TTTAbstractLearner]
    (section 4.4, "access_sequence(u)"): the access sequence of the state
    that [u] reaches. *)
Definition get_access_sequence (u : word) : M Learner word :=
  self <- gets (fun self => self) ;;
  get_access_sequence_from_state (get_state_from_sequence self u).

(** Modelled from the spec: [DTree.getLeaf] and [replace] of
    [TTTAbstractLearner] (section 4.4, "replace the DTree leaf of q_old
    with a new temporary inner node"): the tree in which the first leaf
    that holds [q] is replaced by [new]; [None] when no leaf holds [q]. *)
Fixpoint replace_leaf (q : State) (new : DTreeNode) (n : DTreeNode) : option DTreeNode :=
  match n with
  | Leaf q' => if Nat.eq_dec q' q then Some new else None
  | Inner suffix temporary children =>
      option_map (Inner suffix temporary)
        ((fix child (l : list (Ans * DTreeNode)) : option (list (Ans * DTreeNode)) :=
            match l with
            | [] => None
            | (r, c) :: l' =>
                match replace_leaf q new c with
                | Some c' => Some ((r, c') :: l')
                | None => option_map (cons (r, c)) (child l')
                end
            end) children)
  end.

(** [process_counterexample].  The new inner node is spliced into the tree
    once both children hang under it: the tree holds a reference to the
    node, so the two [add]s that follow [replace] in the source show in the
    tree. *)
Definition process_counterexample (counterexample : word) : M Learner unit :=
  self0 <- gets (fun self => self) ;;
  let '(u, a, v) := decompose self0 counterexample in
  let q_old_state := get_state_from_sequence self0 (u ++ [a]) in
  q_old_acc_seq <- get_access_sequence_from_state q_old_state ;;
  acc_u <- get_access_sequence u ;;
  let q_new_acc_seq := acc_u ++ [a] in
  S <- gets self_S ;;
  q_new_state <- new_State (length S) ;;
  if in_dec word_eq_dec q_new_acc_seq (dict_keys S) then raise AssertionError
  else
    modify (set_S (fun S => dict_set word_eq_dec S q_new_acc_seq q_new_state)) ;;;
    root <- gets DTree_root ;;
    let q_old_leaf := Leaf q_old_state in
    let response_q_old := member_query (q_old_acc_seq ++ v) in
    let response_q_new := member_query (q_new_acc_seq ++ v) in
    if Ans_eq_dec response_q_new response_q_old then raise AssertionError
    else
      let q_new_leaf := Leaf q_new_state in
      let new_inner :=
        Inner v true
              (dict_set Ans_eq_dec (dict_set Ans_eq_dec [] response_q_new q_new_leaf)
                        response_q_old q_old_leaf) in
      match root with
      | Some r =>
          match replace_leaf q_old_state new_inner r with
          | Some r' => modify (set_root (Some r'))
          | None => raise AttributeError        (* getLeaf found no leaf *)
          end
      | None => raise AttributeError
      end.

(* ----------------------------------------------------------------- *)
(** *** Induction on discrimination trees *)

Section DTreeNode_induction.
Variable P : DTreeNode -> Prop.
Hypothesis P_Leaf : forall q, P (Leaf q).
Hypothesis P_Inner : forall suffix temporary children,
    Forall (fun rc => P (snd rc)) children -> P (Inner suffix temporary children).

Fixpoint DTreeNode_ind (n : DTreeNode) : P n :=
  match n with
  | Leaf q => P_Leaf q
  | Inner suffix temporary children =>
      P_Inner suffix temporary
        ((fix all (l : list (Ans * DTreeNode)) : Forall (fun rc => P (snd rc)) l :=
            match l with
            | [] => Forall_nil _
            | rc :: l' => Forall_cons rc (DTreeNode_ind (snd rc)) (all l')
            end) children)
  end.
End DTreeNode_induction.

(* ----------------------------------------------------------------- *)
(** *** The walk of [sift] *)

(** The walk ends on a leaf of the tree, or under an inner node with a
    response in hand; in the second case [attach] adds the leaves of the
    new node to the tree and keeps all others. *)
Lemma sift_loop_result (cur : DTreeNode) (sequence : word) :
  forall response,
    match sift_loop cur sequence response with
    | (Some n, _) => exists q, n = Leaf q /\ In q (leaves cur)
    | (None, r) =>
        r <> None /\
        forall new, Permutation (leaves (attach cur sequence new)) (leaves new ++ leaves cur)
    end.
Proof.
  induction cur as [q|suffix temporary children IH] using DTreeNode_ind; intros response.
  - simpl. exists q. auto.
  - simpl. induction children as [|[r c] l IHl]; simpl.
    + split; [discriminate|]. intros new. now rewrite !app_nil_r.
    + inversion IH as [|? ? IHc IHl']; subst. simpl in IHc.
      destruct (Ans_eq_dec r (member_query (sequence ++ suffix))) as [E|N].
      * specialize (IHc (Some (member_query (sequence ++ suffix)))).
        destruct (sift_loop c sequence (Some (member_query (sequence ++ suffix))))
          as [[n|] r'].
        -- destruct IHc as (q & -> & Hq). exists q. split; [reflexivity|].
           apply in_or_app. now left.
        -- destruct IHc as [Hr Hp]. split; [exact Hr|]. intros new. simpl.
           rewrite (Hp new). now rewrite app_assoc.
      * specialize (IHl IHl').
        match goal with
        | |- match ?w with _ => _ end => destruct w as [[n|] r']
        end.
        -- destruct IHl as (q & -> & Hq). exists q. split; [reflexivity|].
           apply in_or_app. now right.
        -- destruct IHl as [Hr Hp]. split; [exact Hr|]. intros new. simpl.
           specialize (Hp new). simpl in Hp. rewrite Hp.
           rewrite !app_assoc. apply Permutation_app_tail. apply Permutation_app_comm.
Qed.



(* ----------------------------------------------------------------- *)
(** *** What [sift] returns *)

(** The learner after a [sift] of [w] that discovered a state. *)
Definition discovered (self : Learner) (w : word) (root' : DTreeNode) : Learner :=
  {| self_S := self_S self ++ [(w, length (self_S self))];
     DTree_root := Some root';
     self_A := self_A self;
     heap := heap self ++ [(length (self_S self),
                            {| name := length (self_S self); edges := [] |})] |}.

Lemma sift_reaches self w root q :
  DTree_root self = Some root ->
  fst (sift_loop root w None) = Some (Leaf q) ->
  sift w self = Ok (q, self).
Proof.
  intros R W. unfold sift, bind, gets. rewrite R. now rewrite W.
Qed.

Lemma sift_asserts self w root :
  DTree_root self = Some root ->
  fst (sift_loop root w None) = None ->
  In w (dict_keys (self_S self)) ->
  sift w self = Raise AssertionError.
Proof.
  intros R W I. unfold sift, bind, gets. rewrite R, W.
  destruct (in_dec word_eq_dec w (dict_keys (self_S self))); [reflexivity | contradiction].
Qed.

Lemma sift_discovers self w root :
  DTree_root self = Some root ->
  fst (sift_loop root w None) = None ->
  ~ In w (dict_keys (self_S self)) ->
  sift w self
  = Ok (length (self_S self),
        discovered self w (attach root w (Leaf (length (self_S self))))).
Proof.
  intros R W N. unfold sift, bind, gets. rewrite R, W.
  destruct (in_dec word_eq_dec w (dict_keys (self_S self))); [contradiction|].
  pose proof (sift_loop_result root w None) as L.
  destruct (sift_loop root w None) as [[n0|] [r|]]; simpl in W; try discriminate.
  - unfold new_State, modify, bind, ret, set_S, set_heap, set_root, discovered. simpl.
    now rewrite dict_keys_set_new.
  - destruct L as [L _]. congruence.
Qed.


(* ----------------------------------------------------------------- *)
(** *** States and leaves *)

(** The states of [S] are numbered below the size of [S]. *)
Definition names_below (self : Learner) : Prop :=
  forall q, In q (map snd (self_S self)) -> q < length (self_S self).

(** The bijection between the states stored in [S] and the leaves of the
    tree: no state is stored twice, and the leaves hold the states of [S],
    each once. *)
Definition states_match_leaves (self : Learner) : Prop :=
  NoDup (map snd (self_S self)) /\
  NoDup (leaves_of_root (DTree_root self)) /\
  Permutation (leaves_of_root (DTree_root self)) (map snd (self_S self)).

(** From [self0] to [self], [S] has got new entries at its end, and the
    tree has got one leaf for the state of each and has lost none. *)
Definition grows_from (self0 self : Learner) : Prop :=
  exists new,
    self_S self = self_S self0 ++ new /\
    Permutation (leaves_of_root (DTree_root self))
                (leaves_of_root (DTree_root self0) ++ map snd new).

Definition bijection_inv (self0 self : Learner) : Prop :=
  names_below self /\ states_match_leaves self /\ grows_from self0 self.

Lemma grows_from_refl self : grows_from self self.
Proof. exists []. now rewrite !app_nil_r. Qed.

Lemma bijection_inv_set_heap self0 self f :
  bijection_inv self0 self -> bijection_inv self0 (set_heap f self).
Proof. intros H. exact H. Qed.

(** A new entry [(w, n)] at the end of [S], for the new state [n] = |S|,
    with one new leaf for [n] in the tree. *)
Lemma bijection_inv_new self0 self self' w :
  bijection_inv self0 self ->
  self_S self' = self_S self ++ [(w, length (self_S self))] ->
  Permutation (leaves_of_root (DTree_root self'))
              (length (self_S self) :: leaves_of_root (DTree_root self)) ->
  bijection_inv self0 self'.
Proof.
  intros (Hn & (Hd & Hl & Hp) & (new & Hs & Hg)) HS HP.
  set (n := length (self_S self)) in *.
  assert (Hm : map snd (self_S self') = map snd (self_S self) ++ [n])
    by (rewrite HS, map_app; reflexivity).
  assert (Hfresh : ~ In n (map snd (self_S self))).
  { intros I. apply Hn in I. unfold n in I. lia. }
  assert (Hp' : Permutation (leaves_of_root (DTree_root self')) (map snd (self_S self'))).
  { rewrite HP, Hm, Hp. apply Permutation_cons_append. }
  assert (Hd' : NoDup (map snd (self_S self'))).
  { rewrite Hm. apply (Permutation_NoDup (Permutation_cons_append _ n)).
    now constructor. }
  split; [|split; [split; [|split]|]].
  - intros q Hq. rewrite Hm in Hq. rewrite HS, length_app. simpl.
    apply in_app_or in Hq. destruct Hq as [Hq|[<-|[]]]; [apply Hn in Hq|]; fold n; lia.
  - exact Hd'.
  - apply (Permutation_NoDup (Permutation_sym Hp')). exact Hd'.
  - exact Hp'.
  - exists (new ++ [(w, n)]). split; [now rewrite HS, Hs, app_assoc|].
    rewrite HP, Hg, map_app. simpl.
    rewrite app_assoc. apply Permutation_cons_append.
Qed.

Lemma sift_keeps_bijection self0 w :
  hoare (bijection_inv self0) (sift w) (fun _ => bijection_inv self0) (fun _ => True).
Proof.
  intros self I.
  destruct (DTree_root self) as [root|] eqn:R.
  - pose proof (sift_loop_result root w None) as L.
    destruct (sift_loop root w None) as [[n|] r] eqn:W.
    + destruct L as (q & -> & _).
      rewrite (@sift_reaches self w root q R) by now rewrite W. exact I.
    + destruct (in_dec word_eq_dec w (dict_keys (self_S self))) as [K|K].
      * rewrite (@sift_asserts self w root R) by (auto; now rewrite W). exact Logic.I.
      * rewrite (@sift_discovers self w root R) by (auto; now rewrite W).
        destruct L as [_ L].
        eapply bijection_inv_new; [exact I | reflexivity |].
        simpl. rewrite R. simpl. apply (L (Leaf (length (self_S self)))).
  - unfold sift, bind, gets. rewrite R. simpl.
    destruct (in_dec word_eq_dec w (dict_keys (self_S self))); exact Logic.I.
Qed.

(* ----------------------------------------------------------------- *)
(** *** Invariants through [construct_hypothesis] *)

Section Construct_hypothesis_invariant.
(** An invariant [I] and a set [E] of exceptions that may be raised, such
    that changes of the state objects keep [I], [sift] of a key extended by
    a member of the alphabet keeps [I] and the keys of [S], and [E] holds
    of [KeyError] unless [S] is closed under the prefixes that
    [construct_hypothesis] looks up. *)
Variable I : Learner -> Prop.
Variable E : PyExc -> Prop.
Hypothesis E_AssertionError : E AssertionError.
Hypothesis E_IndexError : E IndexError.
Hypothesis I_set_heap : forall self f, I self -> I (set_heap f self).
Hypothesis I_sift : forall self k a,
    I self -> In k (dict_keys (self_S self)) -> In a (self_A self) ->
    match sift (k ++ a) self with
    | Ok (_, self') =>
        I self' /\ incl (dict_keys (self_S self)) (dict_keys (self_S self')) /\
        self_A self' = self_A self
    | Raise e => E e
    end.
Hypothesis I_empty : forall self, I self -> E KeyError \/ In [] (dict_keys (self_S self)).
Hypothesis I_prefix : forall self k,
    I self -> In k (dict_keys (self_S self)) -> k <> [] ->
    E KeyError \/ In (removelast k) (dict_keys (self_S self)).

(** The invariant of the loops over a snapshot of [S] and [A]. *)
Definition loop_inv (ks : list word) (A : list word) (self : Learner) : Prop :=
  I self /\ incl ks (dict_keys (self_S self)) /\ self_A self = A.

Lemma loop_inv_set_heap ks A self f :
  loop_inv ks A self -> loop_inv ks A (set_heap f self).
Proof. intros (H1 & H2 & H3). split; [now apply I_set_heap | auto]. Qed.

Lemma State_add_edge_keeps ks A q a o q' :
  hoare (loop_inv ks A) (State_add_edge q a o q') (fun _ => loop_inv ks A) E.
Proof. apply hoare_modify. intros self H. now apply loop_inv_set_heap. Qed.

Lemma add_transition_keeps ks A access_seq cur_state a :
  In access_seq ks -> In a A ->
  hoare (loop_inv ks A) (add_transition access_seq cur_state a)
        (fun _ => loop_inv ks A) E.
Proof.
  intros Hk Ha. unfold add_transition.
  apply hoare_bind with (R := fun _ => loop_inv ks A).
  - intros self (H1 & H2 & H3).
    assert (Hs := @I_sift self access_seq a H1 (H2 _ Hk)).
    rewrite H3 in Hs. specialize (Hs Ha).
    destruct (sift (access_seq ++ a) self) as [[q self']|e]; [|exact Hs].
    destruct Hs as (J1 & J2 & J3). split; [exact J1|]. split; [|congruence].
    eapply incl_tran; eauto.
  - intros next_state. apply hoare_bind with (R := fun _ => loop_inv ks A).
    + destruct a as [|x a]; [now apply hoare_raise | now apply hoare_ret].
    + intros a0. apply State_add_edge_keeps.
Qed.

Lemma add_transitions_keeps :
  hoare I add_transitions (fun _ => I) E.
Proof.
  intros self H. unfold add_transitions, bind, gets.
  assert (G : hoare (loop_inv (dict_keys (self_S self)) (self_A self))
                (for_each (self_S self) (fun item =>
                   for_each (self_A self) (add_transition (fst item) (snd item))))
                (fun _ => loop_inv (dict_keys (self_S self)) (self_A self)) E).
  { apply hoare_for_each. intros [k q] Hi. apply hoare_for_each. intros a Ha.
    apply add_transition_keeps; [|exact Ha]. now apply (in_map fst) in Hi. }
  specialize (G self). simpl in G.
  match goal with
  | |- match ?c with _ => _ end => destruct c as [[u self']|e]
  end.
  - apply G. split; [exact H|]. split; [apply incl_refl | reflexivity].
  - apply G. split; [exact H|]. split; [apply incl_refl | reflexivity].
Qed.

Lemma add_transitions_loop_keeps fuel :
  forall n, hoare I (add_transitions_loop fuel n) (fun _ => I) E.
Proof.
  induction fuel as [|fuel IH]; intros n; simpl.
  - now apply hoare_ret.
  - apply hoare_bind with (R := fun _ => I); [apply add_transitions_keeps|]. intros u.
    apply hoare_bind with (R := fun _ => I); [apply hoare_gets; intros self H; exact H|].
    intros n2.
    destruct (Nat.eq_dec n n2); [now apply hoare_ret | apply IH].
Qed.

Lemma add_spanning_edge_keeps ks A item :
  In (fst item) ks ->
  hoare (loop_inv ks A) (add_spanning_edge item) (fun _ => loop_inv ks A) E.
Proof.
  intros Hk. destruct item as [access_seq state]. simpl in Hk. unfold add_spanning_edge.
  destruct (0 <? length access_seq) eqn:L; [|now apply hoare_ret].
  intros self H. unfold bind, gets, dict_item.
  assert (Hne : access_seq <> []).
  { intros ->. simpl in L. discriminate. }
  destruct H as (H1 & H2 & H3).
  destruct (dict_get word_eq_dec (self_S self) (removelast access_seq)) as [anc|] eqn:G.
  - unfold ret at 1. destruct (rev access_seq) as [|a r].
    + simpl. repeat split; auto.
    + apply State_add_edge_keeps. repeat split; auto.
  - simpl. destruct (@I_prefix self access_seq H1 (H2 _ Hk) Hne) as [K|K]; [exact K|].
    apply dict_get_None in G. contradiction.
Qed.

Lemma construct_hypothesis_keeps fuel :
  hoare I (construct_hypothesis fuel) (fun _ => I) E.
Proof.
  intros self H. unfold construct_hypothesis. unfold bind at 1. unfold gets at 1.
  unfold bind at 1. unfold dict_item.
  destruct (dict_get word_eq_dec (self_S self) []) as [initial_state|] eqn:G.
  - unfold ret at 1.
    pose proof (add_transitions_loop_keeps fuel (length (self_S self)) H) as L.
    unfold bind at 1.
    destruct (add_transitions_loop fuel (length (self_S self)) self) as [[done s1]|e];
      [|exact L].
    destruct done; [|exact L].
    unfold bind at 1. unfold gets at 1. unfold bind at 1.
    assert (G2 : hoare (loop_inv (dict_keys (self_S s1)) (self_A s1))
                   (for_each (self_S s1) add_spanning_edge)
                   (fun _ => loop_inv (dict_keys (self_S s1)) (self_A s1)) E).
    { apply hoare_for_each. intros item Hi. apply add_spanning_edge_keeps.
      now apply (in_map fst) in Hi. }
    specialize (G2 s1). 
    destruct (for_each (self_S s1) add_spanning_edge s1) as [[u s2]|e].
    + unfold bind, gets, ret. apply G2. split; [exact L|].
      split; [apply incl_refl | reflexivity].
    + apply G2. split; [exact L|]. split; [apply incl_refl | reflexivity].
  - simpl. destruct (I_empty H) as [K|K]; [exact K|].
    apply dict_get_None in G. contradiction.
Qed.

End Construct_hypothesis_invariant.

Lemma sift_cases self w q self' :
  sift w self = Ok (q, self') ->
  self' = self \/
  exists root', self' = discovered self w root' /\ q = length (self_S self) /\
                ~ In w (dict_keys (self_S self)).
Proof.
  destruct (DTree_root self) as [root|] eqn:R.
  - pose proof (sift_loop_result root w None) as L.
    destruct (sift_loop root w None) as [[n|] r] eqn:W.
    + destruct L as (q0 & -> & _).
      rewrite (@sift_reaches self w root q0 R) by now rewrite W.
      intros [= <- <-]. now left.
    + destruct (in_dec word_eq_dec w (dict_keys (self_S self))) as [K|K].
      * rewrite (@sift_asserts self w root R) by (auto; now rewrite W). discriminate.
      * rewrite (@sift_discovers self w root R) by (auto; now rewrite W).
        intros [= <- <-]. right. eexists. repeat split; auto.
  - unfold sift, bind, gets. rewrite R. simpl.
    destruct (in_dec word_eq_dec w (dict_keys (self_S self))); discriminate.
Qed.

Lemma sift_keeps_keys self w q self' :
  sift w self = Ok (q, self') ->
  incl (dict_keys (self_S self)) (dict_keys (self_S self')) /\ self_A self' = self_A self.
Proof.
  intros H. destruct (@sift_cases self w q self' H) as [->|(root' & -> & _)].
  - split; [apply incl_refl | reflexivity].
  - split; [|reflexivity]. simpl. unfold dict_keys. rewrite map_app.
    apply incl_appl. apply incl_refl.
Qed.

Lemma construct_hypothesis_keeps_bijection self0 fuel :
  hoare (bijection_inv self0) (construct_hypothesis fuel)
        (fun _ => bijection_inv self0) (fun _ => True).
Proof.
  apply construct_hypothesis_keeps; auto.
  intros self k a H _ _. pose proof (@sift_keeps_bijection self0 (k ++ a) self H) as K.
  destruct (sift (k ++ a) self) as [[q self']|e] eqn:Q; [|exact Logic.I].
  split; [exact K|]. exact (@sift_keeps_keys self (k ++ a) q self' Q).
Qed.

Lemma replace_leaf_leaves q new n :
  forall n', replace_leaf q new n = Some n' ->
  exists l1 l2, leaves n = l1 ++ q :: l2 /\ leaves n' = l1 ++ leaves new ++ l2.
Proof.
  induction n as [q0|v t children IH] using DTreeNode_ind; intros n'; simpl.
  - destruct (Nat.eq_dec q0 q) as [->|]; [|discriminate]. intros [= <-].
    exists [], []. simpl. now rewrite app_nil_r.
  - assert (G : forall children',
        (fix child (l : list (Ans * DTreeNode)) : option (list (Ans * DTreeNode)) :=
           match l with
           | [] => None
           | (r, c) :: l' =>
               match replace_leaf q new c with
               | Some c' => Some ((r, c') :: l')
               | None => option_map (cons (r, c)) (child l')
               end
           end) children = Some children' ->
        exists l1 l2,
          flat_map (fun rc => leaves (snd rc)) children = l1 ++ q :: l2 /\
          flat_map (fun rc => leaves (snd rc)) children' = l1 ++ leaves new ++ l2).
    { induction children as [|[r c] l IHl]; intros children'; [discriminate|].
      inversion IH as [|? ? IHc IHl']; subst. simpl in IHc.
      destruct (replace_leaf q new c) as [c'|] eqn:Rc.
      - intros [= <-]. destruct (IHc c' eq_refl) as (l1 & l2 & E1 & E2).
        exists l1, (l2 ++ flat_map (fun rc => leaves (snd rc)) l). simpl.
        rewrite E1, E2. now rewrite <- !app_assoc.
      - match goal with
        | |- option_map _ ?x = _ -> _ => destruct x as [l'|] eqn:Rl
        end; [|discriminate].
        intros [= <-]. destruct (IHl IHl' l' eq_refl) as (l1 & l2 & E1 & E2).
        exists (leaves c ++ l1), l2. simpl. rewrite E1, E2. now rewrite <- !app_assoc. }
    match goal with
    | |- option_map _ ?x = _ -> _ => destruct x as [children'|] eqn:Rl
    end; [|discriminate].
    intros [= <-]. simpl. now apply G.
Qed.

Lemma find_state_In (S : list (word * State)) state item :
  find (fun item => Nat.eqb (snd item) state) S = Some item ->
  In (fst item) (dict_keys S) /\ snd item = state.
Proof.
  intros H. apply find_some in H. destruct H as [H1 H2].
  apply Nat.eqb_eq in H2. split; [now apply (in_map fst) | exact H2].
Qed.

(** What [process_counterexample] does when it returns: [S] has the new
    state, numbered by its size, under the access sequence of the state
    that [u] reaches, extended by [a]; the leaf of the old state has
    become an inner node over a leaf for the new state and one for the
    old. *)
Lemma process_counterexample_cases counterexample self self' :
  process_counterexample counterexample self = Ok (tt, self') ->
  exists k a root l1 l2 q_old,
    In k (dict_keys (self_S self)) /\
    ~ In (k ++ [a]) (dict_keys (self_S self)) /\
    self_S self' = self_S self ++ [(k ++ [a], length (self_S self))] /\
    self_A self' = self_A self /\
    DTree_root self = Some root /\
    leaves root = l1 ++ q_old :: l2 /\
    leaves_of_root (DTree_root self') = l1 ++ [length (self_S self); q_old] ++ l2.
Proof.
  unfold process_counterexample, get_access_sequence, get_access_sequence_from_state,
    new_State, bind, gets, modify, ret, raise.
  destruct (decompose self counterexample) as [[u a] v].
  destruct (find (fun item : word * nat =>
                    snd item =? get_state_from_sequence self (u ++ [a])) (self_S self))
    as [item_old|]; [|discriminate].
  destruct (find (fun item : word * nat => snd item =? get_state_from_sequence self u)
                 (self_S self)) as [item_u|] eqn:Fu; [|discriminate].
  apply find_state_In in Fu. destruct Fu as [Fu _].
  destruct (in_dec word_eq_dec (fst item_u ++ [a]) (dict_keys (self_S self))) as [K|K];
    [discriminate|].
  destruct (Ans_eq_dec (member_query ((fst item_u ++ [a]) ++ v))
                       (member_query (fst item_old ++ v))) as [|Nr]; [discriminate|].
  simpl. destruct (DTree_root self) as [root|] eqn:R; [|discriminate].
  match goal with
  | |- match replace_leaf ?q ?new root with _ => _ end _ = _ -> _ =>
      destruct (replace_leaf q new root) as [r'|] eqn:Rp; [|discriminate];
      pose proof (replace_leaf_leaves _ _ _ Rp) as (l1 & l2 & E1 & E2)
  end.
  intros [= <-]. exists (fst item_u), a, root, l1, l2. eexists.
  split; [exact Fu|]. split; [exact K|]. simpl.
  split; [now rewrite dict_keys_set_new|]. split; [reflexivity|].
  split; [reflexivity|]. split; [exact E1|]. rewrite E2. simpl.
  destruct (Ans_eq_dec _ _) as [Eq|_]; [|reflexivity].
  exfalso. apply Nr. exact Eq.
Qed.

(** The operations of the TTT learner. *)
Inductive operation : Type :=
| Op_sift (w : word)
| Op_construct_hypothesis (fuel : nat)
| Op_process_counterexample (w : word).

Definition perform (op : operation) : M Learner unit :=
  match op with
  | Op_sift w => sift w ;;; ret tt
  | Op_construct_hypothesis fuel => construct_hypothesis fuel ;;; ret tt
  | Op_process_counterexample w => process_counterexample w
  end.

(** C9.  Let the states of [S] be in bijection with the leaves of the
    tree (no state is stored twice, no two leaves hold the same state, the
    leaves hold exactly the states of [S]), the states being numbered below
    the size of [S].  When [sift], [construct_hypothesis] or
    [process_counterexample] returns, the bijection holds again; [S] has
    kept its entries and got new ones at its end, and the tree has kept its
    leaves and got exactly one leaf for the state of each new entry. *)
Theorem operations_keep_states_and_leaves_in_bijection
  (op : operation) (self self' : Learner) :
  names_below self ->
  states_match_leaves self ->
  perform op self = Ok (tt, self') ->
  states_match_leaves self' /\ names_below self' /\ grows_from self self'.
Proof.
  intros Hn Hm H.
  assert (I0 : bijection_inv self self) by (repeat split; auto using grows_from_refl; apply Hm).
  cut (bijection_inv self self'); [intros (A & B & C); auto|].
  destruct op as [w|fuel|w]; simpl in H.
  - unfold bind in H. pose proof (@sift_keeps_bijection self w self I0) as K.
    destruct (sift w self) as [[q s1]|e]; [|discriminate].
    injection H as <-. exact K.
  - unfold bind in H.
    pose proof (@construct_hypothesis_keeps_bijection self fuel self I0) as K.
    destruct (construct_hypothesis fuel self) as [[h s1]|e]; [|discriminate].
    injection H as <-. exact K.
  - apply process_counterexample_cases in H.
    destruct H as (k & a & root & l1 & l2 & q_old & _ & _ & HS & _ & R & E1 & E2).
    eapply bijection_inv_new; [exact I0 | exact HS |].
    rewrite E2, R. simpl. rewrite E1. symmetry. apply Permutation_middle.
Qed.

(* ----------------------------------------------------------------- *)
(** *** Prefix-closed access sequences *)

Definition prefix_closed (keys : list word) : Prop :=
  In [] keys /\ forall k, In k keys -> k <> [] -> In (removelast k) keys.

Definition singletons (A : list word) : Prop :=
  forall w, In w A -> exists x, w = [x].

Lemma prefix_closed_extend keys k x :
  prefix_closed keys -> In k keys -> prefix_closed (keys ++ [k ++ [x]]).
Proof.
  intros [H0 H] Hk. split; [apply in_or_app; now left|].
  intros k' Hk' N. apply in_or_app. left.
  apply in_app_or in Hk'. destruct Hk' as [Hk'|[<-|[]]].
  - now apply H.
  - now rewrite removelast_last.
Qed.

Lemma sift_raises self w e : sift w self = Raise e -> e = AssertionError.
Proof.
  unfold sift, bind, gets, new_State, modify, ret, raise.
  destruct (DTree_root self) as [root|].
  - destruct (sift_loop root w None) as [[[q|v t ch]|] [r|]]; simpl;
      try discriminate; try (intros [= <-]; reflexivity);
      destruct (in_dec word_eq_dec w (dict_keys (self_S self)));
      try discriminate; intros [= <-]; reflexivity.
  - simpl. destruct (in_dec word_eq_dec w (dict_keys (self_S self)));
      intros [= <-]; reflexivity.
Qed.

Lemma process_counterexample_raises counterexample self e :
  process_counterexample counterexample self = Raise e -> e <> KeyError.
Proof.
  unfold process_counterexample, get_access_sequence, get_access_sequence_from_state,
    new_State, bind, gets, modify, ret, raise.
  destruct (decompose self counterexample) as [[u a] v].
  destruct (find (fun item : word * nat =>
                    snd item =? get_state_from_sequence self (u ++ [a])) (self_S self))
    as [item_old|]; [|intros [= <-]; discriminate].
  destruct (find (fun item : word * nat => snd item =? get_state_from_sequence self u)
                 (self_S self)) as [item_u|]; [|intros [= <-]; discriminate].
  destruct (in_dec word_eq_dec (fst item_u ++ [a]) (dict_keys (self_S self)));
    [intros [= <-]; discriminate|].
  destruct (Ans_eq_dec (member_query ((fst item_u ++ [a]) ++ v))
                       (member_query (fst item_old ++ v))); [intros [= <-]; discriminate|].
  simpl. destruct (DTree_root self) as [root|]; [|intros [= <-]; discriminate].
  match goal with
  | |- match replace_leaf ?q ?new root with _ => _ end _ = _ -> _ =>
      destruct (replace_leaf q new root); [discriminate | intros [= <-]; discriminate]
  end.
Qed.

Definition prefix_inv (self : Learner) : Prop :=
  prefix_closed (dict_keys (self_S self)) /\ singletons (self_A self).

Lemma sift_keeps_prefix_closed self k a :
  prefix_inv self -> In k (dict_keys (self_S self)) -> In a (self_A self) ->
  match sift (k ++ a) self with
  | Ok (_, self') =>
      prefix_inv self' /\
      (dict_keys (self_S self') = dict_keys (self_S self) \/
       exists x, dict_keys (self_S self') = dict_keys (self_S self) ++ [k ++ [x]])
  | Raise e => e <> KeyError
  end.
Proof.
  intros [Hp HA] Hk Ha.
  destruct (sift (k ++ a) self) as [[q self']|e] eqn:Q.
  - destruct (sift_cases _ _ Q) as [->|(root' & -> & _)].
    + split; [split; assumption | now left].
    + destruct (HA a Ha) as [x ->].
      assert (Hkeys : dict_keys (self_S (discovered self (k ++ [x]) root'))
                      = dict_keys (self_S self) ++ [k ++ [x]]).
      { simpl. unfold dict_keys. now rewrite map_app. }
      split; [|right; now exists x].
      split; [|exact HA]. rewrite Hkeys. now apply prefix_closed_extend.
  - apply sift_raises in Q. subst. discriminate.
Qed.

(** C10.  Let the keys of [S] be prefix-closed and the members of [A] be
    one-symbol words.  Then [sift] of a key extended by a member of [A]
    adds no key or the key extended by one symbol; [construct_hypothesis]
    never raises [KeyError], neither at [S[()]] nor at the ancestor
    [access_seq[0:-1]] of a key in the spanning-tree pass, and when it
    returns the keys of [S] are prefix-closed; [process_counterexample]
    never raises [KeyError] either, and when it returns it has added one
    key, a key of [S] extended by one symbol, and the keys are
    prefix-closed. *)
Theorem access_sequences_stay_prefix_closed (self : Learner) :
  prefix_closed (dict_keys (self_S self)) ->
  singletons (self_A self) ->
  (forall k a, In k (dict_keys (self_S self)) -> In a (self_A self) ->
     match sift (k ++ a) self with
     | Ok (_, self') =>
         prefix_closed (dict_keys (self_S self')) /\
         (dict_keys (self_S self') = dict_keys (self_S self) \/
          exists x, dict_keys (self_S self') = dict_keys (self_S self) ++ [k ++ [x]])
     | Raise e => e <> KeyError
     end) /\
  (forall fuel,
     match construct_hypothesis fuel self with
     | Ok (_, self') => prefix_closed (dict_keys (self_S self'))
     | Raise e => e <> KeyError
     end) /\
  (forall counterexample,
     match process_counterexample counterexample self with
     | Ok (_, self') =>
         prefix_closed (dict_keys (self_S self')) /\
         exists k x, In k (dict_keys (self_S self)) /\
                     dict_keys (self_S self') = dict_keys (self_S self) ++ [k ++ [x]]
     | Raise e => e <> KeyError
     end).
Proof.
  intros Hp HA. assert (I0 : prefix_inv self) by (split; assumption).
  split; [|split].
  - intros k a Hk Ha. pose proof (@sift_keeps_prefix_closed self k a I0 Hk Ha) as K.
    destruct (sift (k ++ a) self) as [[q self']|e]; [|exact K].
    destruct K as [[K1 _] K2]. auto.
  - intros fuel.
    assert (K : hoare prefix_inv (construct_hypothesis fuel) (fun _ => prefix_inv)
                      (fun e => e <> KeyError)).
    { apply construct_hypothesis_keeps; try discriminate.
      - intros s f H. exact H.
      - intros s k a H Hk Ha. pose proof (@sift_keeps_prefix_closed s k a H Hk Ha) as K.
        destruct (sift (k ++ a) s) as [[q s']|e] eqn:Q; [|exact K].
        split; [apply K|]. exact (@sift_keeps_keys s (k ++ a) q s' Q).
      - intros s [[H _] _]. now right.
      - intros s k [[_ H] _] Hk N. right. now apply H. }
    specialize (K self I0).
    destruct (construct_hypothesis fuel self) as [[h self']|e]; [apply K | exact K].
  - intros counterexample.
    destruct (process_counterexample counterexample self) as [[[] self']|e] eqn:Q.
    + apply process_counterexample_cases in Q.
      destruct Q as (k & a & root & l1 & l2 & q_old & Hk & _ & HS & _).
      assert (Hkeys : dict_keys (self_S self') = dict_keys (self_S self) ++ [k ++ [a]]).
      { rewrite HS. unfold dict_keys. now rewrite map_app. }
      split; [|now exists k, a]. rewrite Hkeys. now apply prefix_closed_extend.
    + now apply process_counterexample_raises in Q.
Qed.

(* ================================================================= *)
(** *** Further properties of [sift] *)

(** After [attach], the walk of the same word ends on the new leaf. *)
Lemma sift_loop_attach_same (cur : DTreeNode) (w : word) (q : State) :
  forall r r',
    fst (sift_loop cur w r) = None ->
    fst (sift_loop (attach cur w (Leaf q)) w r') = Some (Leaf q).
Proof.
  induction cur as [q0|v t children IH] using DTreeNode_ind; intros r r'.
  - simpl. discriminate.
  - simpl. set (resp := member_query (w ++ v)).
    induction children as [|[k c] l IHl]; simpl.
    + intros _. destruct (Ans_eq_dec resp resp) as [_|N]; [reflexivity | contradiction].
    + inversion IH as [|? ? IHc IHl']; subst. simpl in IHc.
      destruct (Ans_eq_dec k resp) as [E|N]; simpl.
      * destruct (Ans_eq_dec k resp) as [_|N]; [|contradiction]. apply IHc.
      * destruct (Ans_eq_dec k resp) as [E|_]; [contradiction|]. now apply IHl.
Qed.

(** After [attach] for a word [w], the walk of a word [w'] that ended on
    a leaf ends on the same leaf. *)
Lemma sift_loop_attach_other (cur : DTreeNode) (w w' : word) (new : DTreeNode) (q : State) :
  forall r r',
    fst (sift_loop cur w' r) = Some (Leaf q) ->
    fst (sift_loop (attach cur w new) w' r') = Some (Leaf q).
Proof.
  induction cur as [q0|v t children IH] using DTreeNode_ind; intros r r'.
  - simpl. auto.
  - simpl. set (resp := member_query (w ++ v)). set (resp' := member_query (w' ++ v)).
    induction children as [|[k c] l IHl]; simpl.
    + discriminate.
    + inversion IH as [|? ? IHc IHl']; subst. simpl in IHc.
      destruct (Ans_eq_dec k resp) as [E|N]; simpl.
      * destruct (Ans_eq_dec k resp') as [E'|N']; [apply IHc | auto].
      * destruct (Ans_eq_dec k resp') as [E'|N']; [auto | now apply IHl].
Qed.

Lemma sift_cases_attach self w q self' :
  sift w self = Ok (q, self') ->
  (self' = self /\ exists root, DTree_root self = Some root /\
                               fst (sift_loop root w None) = Some (Leaf q))
  \/
  (exists root,
     DTree_root self = Some root /\ fst (sift_loop root w None) = None /\
     self' = discovered self w (attach root w (Leaf (length (self_S self)))) /\
     q = length (self_S self) /\ ~ In w (dict_keys (self_S self))).
Proof.
  destruct (DTree_root self) as [root|] eqn:R.
  - pose proof (sift_loop_result root w None) as L.
    destruct (sift_loop root w None) as [[n|] r] eqn:W.
    + destruct L as (q0 & -> & _).
      rewrite (@sift_reaches self w root q0 R) by now rewrite W.
      intros [= <- <-]. left. split; [reflexivity|]. exists root. now rewrite W.
    + destruct (in_dec word_eq_dec w (dict_keys (self_S self))) as [K|K].
      * rewrite (@sift_asserts self w root R) by (auto; now rewrite W). discriminate.
      * rewrite (@sift_discovers self w root R) by (auto; now rewrite W).
        intros [= <- <-]. right. exists root. rewrite W. auto.
  - unfold sift, bind, gets. rewrite R. simpl.
    destruct (in_dec word_eq_dec w (dict_keys (self_S self))); discriminate.
Qed.

(** X16.  [sift] is stable.  When [sift(w)] has returned a state, found
    or new, a second [sift(w)] returns the same state and changes nothing;
    and every word [w'] that [sift] classified before without a change
    (it reached a leaf) is classified as before: a discovery adds a leaf
    and moves no word from one state to another. *)
Theorem sift_is_stable (self self' : Learner) (w : word) (q : State) :
  sift w self = Ok (q, self') ->
  sift w self' = Ok (q, self') /\
  forall w' q', sift w' self = Ok (q', self) -> sift w' self' = Ok (q', self').
Proof.
  intros H.
  destruct (sift_cases_attach _ _ H) as [[-> _]|(root & R & W & -> & -> & K)].
  - split; [exact H | auto].
  - split.
    + apply sift_reaches with (root := attach root w (Leaf (length (self_S self))));
        [reflexivity|]. now apply sift_loop_attach_same with (r := None).
    + intros w' q' H'.
      destruct (sift_cases_attach _ _ H') as [[_ (root1 & R1 & W1)]|(root1 & _ & _ & D & _)].
      * rewrite R in R1. injection R1 as <-.
        apply sift_reaches with (root := attach root w (Leaf (length (self_S self))));
          [reflexivity|]. now apply sift_loop_attach_other with (r := None).
      * exfalso. apply (f_equal (fun s => length (self_S s))) in D. simpl in D.
        rewrite length_app in D. simpl in D. lia.
Qed.


(* ================================================================= *)
(** *** The hypothesis of [construct_hypothesis] *)

(** The edge of the state [q] on the symbol [x] in a heap of state
    objects. *)
Definition heap_edge (h : list (State * MealyState Sym Ans State)) (q : State) (x : Sym)
  : option (State * Ans) :=
  match dict_get Nat.eq_dec h q with
  | Some obj => dict_get Sym_eq_dec (edges obj) x
  | None => None
  end.

Definition has_edge (self : Learner) (q : State) (x : Sym) : Prop :=
  heap_edge (heap self) q x <> None.

(** [self'] extends [self]: [S] has new entries at its end only, the
    alphabet is the same, and no edge is lost. *)
Definition extends (self self' : Learner) : Prop :=
  (exists new, self_S self' = self_S self ++ new) /\
  self_A self' = self_A self /\
  forall q x, has_edge self q x -> has_edge self' q x.

(** Every state of [S] has an edge on the first symbol of every member of
    the alphabet. *)
Definition total (self : Learner) : Prop :=
  forall k q x rest,
    In (k, q) (self_S self) -> In (x :: rest) (self_A self) -> has_edge self q x.

Lemma extends_refl self : extends self self.
Proof.
  split; [exists []; now rewrite app_nil_r|]. split; [reflexivity | auto].
Qed.

Lemma extends_trans s1 s2 s3 : extends s1 s2 -> extends s2 s3 -> extends s1 s3.
Proof.
  intros ((n1 & H1) & A1 & E1) ((n2 & H2) & A2 & E2).
  split; [exists (n1 ++ n2); now rewrite H2, H1, app_assoc|].
  split; [congruence | auto].
Qed.

Lemma for_each_establishes {X} (P : X -> Learner -> Prop) (l : list X)
      (body : X -> M Learner unit) :
  (forall x s s', extends s s' -> P x s -> P x s') ->
  (forall x s s', In x l -> body x s = Ok (tt, s') -> extends s s' /\ P x s') ->
  forall s s', for_each l body s = Ok (tt, s') ->
               extends s s' /\ forall x, In x l -> P x s'.
Proof.
  intros Mono. induction l as [|x l IH]; intros B s s'; simpl.
  - intros [= <-]. split; [apply extends_refl | contradiction].
  - unfold bind. destruct (body x s) as [[[] s1]|e] eqn:Bx; [|discriminate].
    intros F. destruct (B x s s1 (or_introl eq_refl) Bx) as [E1 P1].
    destruct (IH (fun y t t' Hy => B y t t' (or_intror Hy)) s1 s' F) as [E2 P2].
    split; [eapply extends_trans; eauto|].
    intros y [<-|Hy]; [eapply Mono; eauto | auto].
Qed.

Lemma dict_get_app {K V} (K_eq_dec : forall x y : K, {x = y} + {x <> y})
      (d d' : list (K * V)) (k : K) :
  dict_get K_eq_dec (d ++ d') k =
  match dict_get K_eq_dec d k with
  | Some v => Some v
  | None => dict_get K_eq_dec d' k
  end.
Proof.
  induction d as [|[k0 v0] d IH]; simpl; [reflexivity|].
  destruct (K_eq_dec k0 k); [reflexivity | exact IH].
Qed.

Lemma dict_get_app_in {K V} (K_eq_dec : forall x y : K, {x = y} + {x <> y})
      (d d' : list (K * V)) (k : K) :
  In k (dict_keys d) -> dict_get K_eq_dec (d ++ d') k = dict_get K_eq_dec d k.
Proof.
  intros H. rewrite dict_get_app.
  destruct (dict_get K_eq_dec d k) eqn:G; [reflexivity|].
  exfalso. induction d as [|[k0 v0] d IH]; simpl in *; [contradiction|].
  destruct (K_eq_dec k0 k) as [|N]; [discriminate|].
  destruct H as [H|H]; [contradiction | auto].
Qed.

(** A new state object has no edge: it takes none away. *)
Lemma heap_edge_new h n q x :
  heap_edge (h ++ [(n, {| name := n; edges := [] |})]) q x = heap_edge h q x.
Proof.
  unfold heap_edge. rewrite dict_get_app.
  destruct (dict_get Nat.eq_dec h q) as [obj|]; [reflexivity|].
  simpl. destruct (Nat.eq_dec n q); reflexivity.
Qed.

(** [add_edge] with [override=True] sets the edge of [q] on [a] and no
    other. *)
Lemma State_add_edge_sets self q a o q' :
  exists self',
    State_add_edge q a o q' self = Ok (tt, self') /\
    self_S self' = self_S self /\ self_A self' = self_A self /\
    DTree_root self' = DTree_root self /\
    forall q0 x0,
      heap_edge (heap self') q0 x0 =
      if Nat.eq_dec q q0 then
        if Sym_eq_dec a x0 then Some (q', o) else heap_edge (heap self) q0 x0
      else heap_edge (heap self) q0 x0.
Proof.
  eexists. split; [reflexivity|]. repeat (split; [reflexivity|]).
  intros q0 x0. unfold set_heap, add_edge, heap_edge. cbn [heap].
  rewrite dict_get_set. destruct (Nat.eq_dec q q0) as [<-|N]; [|reflexivity].
  cbn [edges]. rewrite dict_get_set.
  destruct (Sym_eq_dec a x0); [reflexivity|].
  destruct (dict_get Nat.eq_dec (heap self) q); reflexivity.
Qed.

Lemma State_add_edge_extends self q a o q' self' :
  State_add_edge q a o q' self = Ok (tt, self') ->
  extends self self' /\ has_edge self' q a.
Proof.
  destruct (State_add_edge_sets self q a o q') as (s & -> & HS & HA & _ & HE).
  intros [= <-]. split.
  - split; [exists []; now rewrite app_nil_r|]. split; [exact HA|].
    unfold has_edge. intros q0 x0 H. rewrite HE.
    destruct (Nat.eq_dec q q0); [|exact H].
    destruct (Sym_eq_dec a x0); [discriminate | exact H].
  - unfold has_edge. rewrite HE.
    destruct (Nat.eq_dec q q) as [_|N]; [|contradiction].
    destruct (Sym_eq_dec a a) as [_|N]; [discriminate | contradiction].
Qed.

Lemma sift_extends self w q self' :
  sift w self = Ok (q, self') -> extends self self'.
Proof.
  intros H.
  destruct (sift_cases_attach _ _ H) as [[-> _]|(root & _ & _ & -> & _ & _)].
  - apply extends_refl.
  - split; [eexists; reflexivity|]. split; [reflexivity|].
    unfold has_edge, discovered. cbn [heap]. intros q0 x0.
    now rewrite heap_edge_new.
Qed.

Lemma add_transition_extends access_seq cur_state a self self' :
  add_transition access_seq cur_state a self = Ok (tt, self') ->
  extends self self' /\
  forall x rest, a = x :: rest -> has_edge self' cur_state x.
Proof.
  unfold add_transition. unfold bind at 1.
  destruct (sift (access_seq ++ a) self) as [[next_state s1]|e] eqn:Q; [|discriminate].
  apply sift_extends in Q. destruct a as [|x0 rest0]; [discriminate|].
  unfold item0, bind, ret. intros H. apply State_add_edge_extends in H.
  destruct H as [E1 H1]. split; [eapply extends_trans; eauto|].
  now intros x rest [= <- <-].
Qed.

Lemma has_edge_extends self self' q x :
  extends self self' -> has_edge self q x -> has_edge self' q x.
Proof. intros (_ & _ & H). apply H. Qed.

(** One pass of the first loop gives an edge to every state that was in
    [S] when it began, for every member of the alphabet. *)
Lemma add_transitions_extends self self' :
  add_transitions self = Ok (tt, self') ->
  extends self self' /\
  forall k q x rest,
    In (k, q) (self_S self) -> In (x :: rest) (self_A self) -> has_edge self' q x.
Proof.
  unfold add_transitions, bind, gets. intros H.
  apply (@for_each_establishes _
           (fun item s => forall x rest, In (x :: rest) (self_A self) ->
                                         has_edge s (snd item) x)) in H.
  - destruct H as [E1 H1]. split; [exact E1|].
    intros k q x rest Hi Ha. exact (H1 (k, q) Hi x rest Ha).
  - intros item s s' E1 P1 x rest Ha. eapply has_edge_extends; eauto.
  - intros item s s' _ F.
    apply (@for_each_establishes _
             (fun a s => forall x rest, a = x :: rest -> has_edge s (snd item) x)) in F.
    + destruct F as [E1 F1]. split; [exact E1|].
      intros x rest Ha. exact (F1 _ Ha x rest eq_refl).
    + intros a t t' E1 P1 x rest Ha. eapply has_edge_extends; eauto.
    + intros a t t' _ B. now apply add_transition_extends in B.
Qed.

(** The [while] loop ends after a pass that added no state: the edges of
    that pass are those of all of [S]. *)
Lemma add_transitions_loop_total fuel :
  forall self self',
    add_transitions_loop fuel (length (self_S self)) self = Ok (true, self') ->
    extends self self' /\ total self'.
Proof.
  induction fuel as [|fuel IH]; intros self self'; simpl; [discriminate|].
  unfold bind at 1.
  destruct (add_transitions self) as [[[] s1]|e] eqn:P; [|discriminate].
  apply add_transitions_extends in P. destruct P as [E1 P1].
  unfold bind, gets.
  destruct (Nat.eq_dec (length (self_S self)) (length (self_S s1))) as [L|L].
  - intros [= <-]. split; [exact E1|].
    destruct E1 as ((new & HS) & HA & _).
    assert (new = []) as ->.
    { rewrite HS, length_app in L. destruct new; [reflexivity | simpl in L; lia]. }
    rewrite app_nil_r in HS. intros k q x rest Hi Ha.
    rewrite HS in Hi. rewrite HA in Ha. eauto.
  - intros H. apply IH in H. destruct H as [E2 T].
    split; [eapply extends_trans; eauto | exact T].
Qed.

Lemma add_spanning_edge_extends item self self' :
  add_spanning_edge item self = Ok (tt, self') ->
  extends self self' /\ self_S self' = self_S self.
Proof.
  destruct item as [access_seq state]. unfold add_spanning_edge.
  destruct (0 <? length access_seq).
  - unfold bind, gets, dict_item.
    destruct (dict_get word_eq_dec (self_S self) (removelast access_seq))
      as [ancestor_state|]; [|discriminate].
    unfold ret at 1. destruct (rev access_seq) as [|a l].
    + intros [= <-]. split; [apply extends_refl | reflexivity].
    + intros H.
      destruct (State_add_edge_sets self ancestor_state a
                  (member_query (removelast access_seq ++ [a])) state)
        as (s & Q & HS & _).
      rewrite Q in H. injection H as <-. split; [|exact HS].
      now apply State_add_edge_extends in Q.
  - intros [= <-]. split; [apply extends_refl | reflexivity].
Qed.

Lemma spanning_loop_extends l :
  forall self self',
    for_each l add_spanning_edge self = Ok (tt, self') ->
    extends self self' /\ self_S self' = self_S self.
Proof.
  induction l as [|item l IH]; intros self self'; simpl.
  - intros [= <-]. split; [apply extends_refl | reflexivity].
  - unfold bind. destruct (add_spanning_edge item self) as [[[] s1]|e] eqn:B; [|discriminate].
    apply add_spanning_edge_extends in B. destruct B as [E1 S1].
    intros H. apply IH in H. destruct H as [E2 S2].
    split; [eapply extends_trans; eauto | congruence].
Qed.

Lemma construct_hypothesis_spec fuel self h self' :
  construct_hypothesis fuel self = Ok (Some h, self') ->
  extends self self' /\ total self' /\ states h = heap self' /\
  dict_get word_eq_dec (self_S self) [] = Some (initial_state h).
Proof.
  unfold construct_hypothesis. unfold bind at 1. unfold gets at 1.
  unfold bind at 1. unfold dict_item.
  destruct (dict_get word_eq_dec (self_S self) []) as [q0|]; [|discriminate].
  unfold ret at 1. unfold bind at 1.
  destruct (add_transitions_loop fuel (length (self_S self)) self) as [[done s1]|e] eqn:L;
    [|discriminate].
  destruct done; [|discriminate].
  apply add_transitions_loop_total in L. destruct L as [E1 T1].
  unfold bind at 1. unfold gets at 1. unfold bind at 1.
  destruct (for_each (self_S s1) add_spanning_edge s1) as [[[] s2]|e] eqn:F; [|discriminate].
  apply spanning_loop_extends in F. destruct F as [E2 S2].
  unfold bind, gets, ret. intros [= <- <-]. cbn [states initial_state].
  split; [eapply extends_trans; eauto|]. split; [|auto].
  intros k q x rest Hi Ha. rewrite S2 in Hi.
  destruct E2 as (_ & A2 & K2). rewrite A2 in Ha. apply K2. eauto.
Qed.

Lemma dict_get_In_keys {K V} (K_eq_dec : forall x y : K, {x = y} + {x <> y})
      (d : list (K * V)) (k : K) (v : V) :
  dict_get K_eq_dec d k = Some v -> In k (dict_keys d).
Proof.
  induction d as [|[k0 v0] d IH]; simpl; [discriminate|].
  destruct (K_eq_dec k0 k); [now left | right; auto].
Qed.

(** X18.  The hypothesis of [construct_hypothesis] is complete.  When
    [construct_hypothesis] returns a machine, its initial state is [S[()]],
    and every state of [S] has in it an edge on [a[0]] for every member
    [a] of the alphabet: the [while] loop ends only after a pass that
    created no state, and the spanning-tree loop overrides edges and takes
    none away. *)
Theorem construct_hypothesis_is_complete
        (fuel : nat) (self self' : Learner) (h : MealyMachine Sym Ans State) :
  construct_hypothesis fuel self = Ok (Some h, self') ->
  dict_get word_eq_dec (self_S self') [] = Some (initial_state h) /\
  forall k q x rest,
    In (k, q) (self_S self') -> In (x :: rest) (self_A self') ->
    exists t o, heap_edge (states h) q x = Some (t, o).
Proof.
  intros H. apply construct_hypothesis_spec in H.
  destruct H as (((new & HS) & _ & _) & T & -> & G). split.
  - rewrite HS, dict_get_app_in; [exact G | eapply dict_get_In_keys; eauto].
  - intros k q x rest Hi Ha. specialize (T k q x rest Hi Ha). unfold has_edge in T.
    destruct (heap_edge (heap self') q x) as [[t o]|]; [eauto | contradiction].
Qed.

Lemma process_counterexample_extends_S counterexample self self' :
  process_counterexample counterexample self = Ok (tt, self') ->
  (exists new, self_S self' = self_S self ++ new) /\ self_A self' = self_A self.
Proof.
  intros H. apply process_counterexample_cases in H.
  destruct H as (k & a & root & l1 & l2 & q_old & _ & _ & HS & HA & _).
  split; [eexists; exact HS | exact HA].
Qed.

(** X19.  The operations only append to [S].  Whatever the state of the
    learner, when a sequence of calls of [sift], [construct_hypothesis]
    and [process_counterexample] returns, [S] is the [S] before the calls
    with new entries at its end: no access sequence is removed, and every
    key keeps its state, so that [S[()]] stays the initial state; and the
    alphabet is as it was. *)
Theorem operations_only_append_to_S (ops : list operation) :
  forall self self',
    for_each ops perform self = Ok (tt, self') ->
    (exists new, self_S self' = self_S self ++ new) /\
    self_A self' = self_A self /\
    forall k, In k (dict_keys (self_S self)) ->
              dict_get word_eq_dec (self_S self') k = dict_get word_eq_dec (self_S self) k.
Proof.
  assert (G : forall self self',
             for_each ops perform self = Ok (tt, self') ->
             (exists new, self_S self' = self_S self ++ new) /\
             self_A self' = self_A self).
  { induction ops as [|op ops IH]; intros self self'; simpl.
    - intros [= <-]. split; [exists []; now rewrite app_nil_r | reflexivity].
    - unfold bind. destruct (perform op self) as [[[] s1]|e] eqn:P; [|discriminate].
      intros H. apply IH in H. destruct H as ((n2 & H2) & A2).
      assert ((exists new, self_S s1 = self_S self ++ new) /\ self_A s1 = self_A self)
        as ((n1 & H1) & A1).
      { destruct op as [w|fuel|w]; simpl in P.
        - unfold bind in P. destruct (sift w self) as [[q s]|e] eqn:Q; [|discriminate].
          injection P as <-. apply sift_extends in Q. destruct Q as (Q1 & Q2 & _). auto.
        - unfold bind in P.
          destruct (construct_hypothesis fuel self) as [[[h|] s]|e] eqn:Q; [| |discriminate].
          + injection P as <-. apply construct_hypothesis_spec in Q.
            destruct Q as ((Q1 & Q2 & _) & _). auto.
          + injection P as <-. revert Q. unfold construct_hypothesis.
            unfold bind at 1. unfold gets at 1. unfold bind at 1. unfold dict_item.
            destruct (dict_get word_eq_dec (self_S self) []); [|discriminate].
            unfold ret at 1. unfold bind at 1.
            destruct (add_transitions_loop fuel (length (self_S self)) self)
              as [[done s1']|e] eqn:L; [|discriminate].
            destruct done.
            * unfold bind at 1. unfold gets at 1. unfold bind at 1.
              destruct (for_each (self_S s1') add_spanning_edge s1') as [[[] s2]|e];
                discriminate.
            * intros [= <-]. clear - L. revert L.
              generalize (length (self_S self)). revert self.
              induction fuel as [|fuel IHf]; intros self n; simpl.
              -- intros [= <-]. split; [exists []; now rewrite app_nil_r | reflexivity].
              -- unfold bind at 1.
                 destruct (add_transitions self) as [[[] s2]|e] eqn:P; [|discriminate].
                 apply add_transitions_extends in P. destruct P as [((m1 & M1) & MA & _) _].
                 unfold bind, gets.
                 destruct (Nat.eq_dec n (length (self_S s2))); [discriminate|].
                 intros H. apply IHf in H. destruct H as ((m2 & M2) & MA2).
                 split; [exists (m1 ++ m2); now rewrite M2, M1, app_assoc | congruence].
        - now apply process_counterexample_extends_S in P. }
      split; [exists (n1 ++ n2); now rewrite H2, H1, app_assoc | congruence]. }
  intros self self' H. destruct (G _ _ H) as ((new & HS) & HA).
  split; [eauto|]. split; [exact HA|].
  intros k Hk. rewrite HS. now apply dict_get_app_in.
Qed.

(* ================================================================= *)
(** *** The learner from its construction on *)

(** The calls of the learning loop: [construct_hypothesis] and
    [process_counterexample]; [sift] is called by [construct_hypothesis]
    only. *)
Definition learning (op : operation) : bool :=
  match op with
  | Op_sift _ => false
  | Op_construct_hypothesis _ | Op_process_counterexample _ => true
  end.

Lemma construct_hypothesis_keeps_prefix_closed fuel :
  hoare prefix_inv (construct_hypothesis fuel) (fun _ => prefix_inv)
        (fun e => e <> KeyError).
Proof.
  apply construct_hypothesis_keeps; try discriminate.
  - intros s f H. exact H.
  - intros s k a H Hk Ha. pose proof (@sift_keeps_prefix_closed s k a H Hk Ha) as K.
    destruct (sift (k ++ a) s) as [[q s']|e] eqn:Q; [|exact K].
    split; [apply K|]. exact (@sift_keeps_keys s (k ++ a) q s' Q).
  - intros s [[H _] _]. now right.
  - intros s k [[_ H] _] Hk N. right. now apply H.
Qed.

Definition learner_inv (self0 self : Learner) : Prop :=
  prefix_inv self /\ bijection_inv self0 self.

Lemma learning_keeps_learner_inv self0 op :
  learning op = true ->
  hoare (learner_inv self0) (perform op) (fun _ => learner_inv self0)
        (fun e => e <> KeyError).
Proof.
  intros L self [Hp Hb]. destruct op as [w|fuel|w]; [discriminate| |]; simpl.
  - unfold bind.
    pose proof (@construct_hypothesis_keeps_prefix_closed fuel self Hp) as K1.
    pose proof (@construct_hypothesis_keeps_bijection self0 fuel self Hb) as K2.
    destruct (construct_hypothesis fuel self) as [[h s1]|e]; [|exact K1].
    simpl. split; assumption.
  - destruct (process_counterexample w self) as [[[] self']|e] eqn:Q.
    + apply process_counterexample_cases in Q.
      destruct Q as (k & a & root & l1 & l2 & q_old & Hk & _ & HS & HA & R & E1 & E2).
      split.
      * destruct Hp as [Hp Hs]. split; [|now rewrite HA].
        assert (Hkeys : dict_keys (self_S self') = dict_keys (self_S self) ++ [k ++ [a]]).
        { rewrite HS. unfold dict_keys. now rewrite map_app. }
        rewrite Hkeys. now apply prefix_closed_extend.
      * eapply bijection_inv_new; [exact Hb | exact HS |].
        rewrite E2, R. simpl. rewrite E1. symmetry. apply Permutation_middle.
    + now apply process_counterexample_raises in Q.
Qed.

Lemma learner_inv_init alphabet :
  learner_inv (__init__ alphabet) (__init__ alphabet).
Proof.
  split; [split|split; [|split]].
  - split; [now left|]. intros k [<-|[]] N. now elim N.
  - intros w H. simpl in H. apply nodup_In in H. apply in_map_iff in H.
    destruct H as (x & <- & _). now exists x.
  - intros q [<-|[]]. simpl. lia.
  - simpl. repeat split; try (constructor; [intros []|constructor]).
    apply Permutation_refl.
  - apply grows_from_refl.
Qed.

(** X20.  The learner from its construction on.  From the learner as
    constructed for any alphabet, a sequence of calls of
    [construct_hypothesis] and [process_counterexample] never raises
    [KeyError]; and when it returns, the keys of [S] are prefix-closed,
    the states of [S] are in bijection with the leaves of the tree and
    numbered below the size of [S], [S[()]] is the initial state [s0], and
    the members of the alphabet are one-symbol words. *)
Theorem learning_never_raises_KeyError (alphabet : list Sym) (ops : list operation) :
  forallb learning ops = true ->
  match for_each ops perform (__init__ alphabet) with
  | Ok (_, self) =>
      prefix_closed (dict_keys (self_S self)) /\
      states_match_leaves self /\ names_below self /\
      dict_get word_eq_dec (self_S self) [] = Some 0 /\
      singletons (self_A self)
  | Raise e => e <> KeyError
  end.
Proof.
  intros L.
  assert (H : hoare (learner_inv (__init__ alphabet)) (for_each ops perform)
                    (fun _ => learner_inv (__init__ alphabet)) (fun e => e <> KeyError)).
  { apply hoare_for_each. intros op Hop. apply learning_keeps_learner_inv.
    rewrite forallb_forall in L. now apply L. }
  specialize (H _ (learner_inv_init alphabet)).
  destruct (for_each ops perform (__init__ alphabet)) as [[u self]|e]; [|exact H].
  destruct H as [[Hp Hs] (Hn & Hm & (new & HS & _))].
  split; [exact Hp|]. split; [exact Hm|]. split; [exact Hn|]. split; [|exact Hs].
  rewrite HS. reflexivity.
Qed.

End WithTeacher.

(* ================================================================= *)
(** *** The teacher that answers with the final output symbol *)

Section FinalOutputSymbol.
Context {Sym Out : Type}.
Variable Sym_eq_dec : forall x y : Sym, {x = y} + {x <> y}.
Variable Out_eq_dec : forall x y : Out, {x = y} + {x <> y}.

(** The output word of the SUL on a word. *)
Variable sul : list Sym -> list Out.




End FinalOutputSymbol.
End TTT.

(* ================================================================= *)
(** ** The distinguishing-set checks ([_minsepseq.py])

    [get_dset_outputs] and [check_distinguishing_set].  The machine [fsm]
    is a [MealyMachine] or a [DFA]; both branches of [get_dset_outputs]
    build a machine of the kind of [fsm] that starts in [state].  The
    outputs of [process_input] are values that can be compared and hashed.
    What is printed and rendered and the prompt of [input] are left out,
    and taken not to fail, except for the pairs of states that
    [check_distinguishing_set] reports. *)

Module MinSepSeq.
Section WithMachine.
Context {Sym Out St : Type}.
Variable St_eq_dec : forall x y : St, {x = y} + {x <> y}.
Variable Out_eq_dec : forall x y : Out, {x = y} + {x <> y}.

Local Notation "'word'" := (list Sym).

Definition outs_eq_dec : forall x y : list Out, {x = y} + {x <> y} :=
  list_eq_dec Out_eq_dec.

(** Modelled from the spec: [get_states] of the machine (section 4.2,
    "for introspection"), in the order in which it is iterated. *)
Variable get_states : list St.

(** Modelled from the spec: the run of the machine from a state on a word
    (section 4.2): the output and the state reached. *)
Variable run_from : St -> word -> Out * St.

(** Modelled from the spec: a machine object (section 4.2).
    "constructing a MealyMachine binds an initial state"; [process_input]
    "runs from the current state, returns the concatenated output word,
    advances state"; [reset] "returns to the initial state". *)
Record Machine : Type := { initial : St; current : St }.

Definition new_Machine (state : St) : Machine :=
  {| initial := state; current := state |}.

Definition process_input (w : word) (mm : Machine) : Out * Machine :=
  let (o, q) := run_from (current mm) w in
  (o, {| initial := initial mm; current := q |}).

Definition reset (mm : Machine) : Machine :=
  {| initial := initial mm; current := initial mm |}.

(** The loop [for dseq in dset] of [get_dset_outputs]. *)
Definition dset_loop (dset : list word) (mm : Machine) (out : list Out)
  : list Out * Machine :=
  fold_left (fun (acc : list Out * Machine) dseq =>
               let (out, mm) := acc in
               let (o, mm') := process_input dseq mm in
               (out ++ [o], reset mm'))
            dset (out, mm).

(** [get_dset_outputs]: the dictionary [outputs]. *)
Definition get_dset_outputs (dset : list word) : list (St * list Out) :=
  fold_left (fun outputs state =>
               let mm := new_Machine state in
               let (out, _) := dset_loop dset mm [] in
               dict_set St_eq_dec outputs state out)
            get_states [].

(** The test [ka != kb and va == vb]. *)
Definition same_outputs (pair : (St * list Out) * (St * list Out)) : bool :=
  let '((ka, va), (kb, vb)) := pair in
  negb (if St_eq_dec ka kb then true else false)
  && (if outs_eq_dec va vb then true else false).

(** [check_distinguishing_set]: the pairs [(ka, kb)] of the states it
    reports (at [print('names', ka.name, kb.name)]), in the order of the
    reports, and the value returned. *)
Definition check_distinguishing_set (dset : list word) : list (St * St) * bool :=
  let outputs := get_dset_outputs dset in
  if length (nodup outs_eq_dec (map snd outputs)) <? length outputs then
    let reported :=
      fold_left (fun names (pair : (St * list Out) * (St * list Out)) =>
                   if same_outputs pair
                   then names ++ [(fst (fst pair), fst (snd pair))]
                   else names)
                (list_prod outputs outputs) [] in
    (reported, true)
  else ([], true).

(** The outputs of the machine started in [state] on each sequence. *)
Definition responses (dset : list word) (state : St) : list Out :=
  map (fun dseq => fst (run_from state dseq)) dset.

(* ----------------------------------------------------------------- *)
(** *** [get_dset_outputs] *)

Lemma dset_loop_eq (dset : list word) :
  forall mm out,
    current mm = initial mm ->
    fst (dset_loop dset mm out) =
    out ++ map (fun dseq => fst (run_from (initial mm) dseq)) dset.
Proof.
  unfold dset_loop. induction dset as [|dseq dset IH]; intros mm out C; simpl.
  - now rewrite app_nil_r.
  - unfold process_input at 2. rewrite C.
    destruct (run_from (initial mm) dseq) as [o q]. simpl.
    rewrite IH by reflexivity. simpl. now rewrite <- app_assoc.
Qed.

Lemma NoDup_dict_keys_set {V} (d : list (St * V)) k v :
  NoDup (dict_keys d) -> NoDup (dict_keys (dict_set St_eq_dec d k v)).
Proof.
  intros H. destruct (in_dec St_eq_dec k (dict_keys d)) as [I|I].
  - now rewrite dict_keys_set_in.
  - rewrite dict_keys_set_new by exact I. unfold dict_keys in *. rewrite map_app.
    simpl. apply NoDup_app; [exact H | constructor; [intros []|constructor] |].
    intros x Hx [<-|[]]. contradiction.
Qed.

Lemma outputs_fold (dset : list word) (states : list St) :
  forall d,
    NoDup (dict_keys d) ->
    let d' := fold_left (fun outputs state =>
                           let mm := new_Machine state in
                           let (out, _) := dset_loop dset mm [] in
                           dict_set St_eq_dec outputs state out) states d in
    NoDup (dict_keys d') /\
    forall k, dict_get St_eq_dec d' k =
              if in_dec St_eq_dec k states then Some (responses dset k)
              else dict_get St_eq_dec d k.
Proof.
  induction states as [|s l IH]; intros d N; simpl.
  - split; [exact N | reflexivity].
  - pose proof (@dset_loop_eq dset (new_Machine s) [] eq_refl) as L.
    destruct (dset_loop dset (new_Machine s) []) as [out mm]. simpl in L. subst out.
    destruct (IH (dict_set St_eq_dec d s (responses dset s)) (NoDup_dict_keys_set _ _ _ N))
      as [N' G].
    split; [exact N'|]. intros k. rewrite G, dict_get_set.
    destruct (in_dec St_eq_dec k l) as [I|I].
    + destruct (St_eq_dec s k); reflexivity.
    + destruct (St_eq_dec s k) as [E|E]; [now subst | reflexivity].
Qed.

Lemma In_items_iff {V} (d : list (St * V)) k v :
  NoDup (dict_keys d) -> (In (k, v) d <-> dict_get St_eq_dec d k = Some v).
Proof.
  induction d as [|[k0 v0] d IH]; simpl; intros N.
  - split; [intros [] | discriminate].
  - inversion N as [|? ? N1 N2]; subst. destruct (St_eq_dec k0 k) as [->|E].
    + split.
      * intros [[= ->]|H]; [reflexivity|].
        exfalso. apply N1. now apply (in_map fst) in H.
      * intros [= ->]. now left.
    + rewrite <- (IH N2). split; [intros [[= -> ->]|H]; [contradiction | exact H] | auto].
Qed.

Lemma get_dset_outputs_items (dset : list word) :
  NoDup (dict_keys (get_dset_outputs dset)) /\
  forall k v, In (k, v) (get_dset_outputs dset) <->
              In k get_states /\ v = responses dset k.
Proof.
  destruct (@outputs_fold dset get_states [] (NoDup_nil _)) as [N G].
  fold (get_dset_outputs dset) in N, G. split; [exact N|].
  intros k v. rewrite (In_items_iff _ _ _ N), G.
  destruct (in_dec St_eq_dec k get_states) as [I|I]; simpl.
  - split; [intros [= <-]; auto | intros [_ ->]; reflexivity].
  - split; [discriminate | tauto].
Qed.

(* ----------------------------------------------------------------- *)
(** *** [check_distinguishing_set] *)

Lemma nodup_shorter {X} (dec : forall x y : X, {x = y} + {x <> y}) (l : list X) :
  length (nodup dec l) <= length l /\
  (length (nodup dec l) = length l <-> NoDup l).
Proof.
  induction l as [|x l [IH1 IH2]]; simpl.
  - split; [lia | split; [constructor | reflexivity]].
  - destruct (in_dec dec x l) as [I|I]; simpl.
    + split; [lia|]. split; [lia|]. intros N. inversion N. contradiction.
    + split; [lia|]. split.
      * intros [= H]. constructor; [exact I | now apply IH2].
      * intros N. inversion N; subst. f_equal. now apply IH2.
Qed.

Lemma NoDup_values {K V} (d : list (K * V)) ka kb v :
  NoDup (map snd d) -> In (ka, v) d -> In (kb, v) d -> ka = kb.
Proof.
  induction d as [|[k0 v0] d IH]; simpl; [intros _ []|].
  intros N. inversion N as [|? ? N1 N2]; subst.
  intros [[= -> ->]|Ha] [[= ->]|Hb]; auto.
  - exfalso. apply N1. now apply (in_map snd) in Hb.
  - subst. exfalso. apply N1. now apply (in_map snd) in Ha.
Qed.

Lemma reported_fold (items : list ((St * list Out) * (St * list Out))) :
  forall names ka kb,
    In (ka, kb)
       (fold_left (fun names pair =>
                     if same_outputs pair
                     then names ++ [(fst (fst pair), fst (snd pair))]
                     else names) items names) <->
    In (ka, kb) names \/
    exists va vb, In ((ka, va), (kb, vb)) items /\ ka <> kb /\ va = vb.
Proof.
  induction items as [|[[k1 v1] [k2 v2]] items IH]; intros names ka kb; simpl.
  - split; [auto | intros [H|(va & vb & [] & _)]; exact H].
  - rewrite IH. unfold same_outputs.
    destruct (St_eq_dec k1 k2) as [E|E]; simpl.
    + split.
      * intros [H|(va & vb & H & R)]; [auto | right; exists va, vb; auto].
      * intros [H|(va & vb & [H|H] & N & R)]; [auto | | right; exists va, vb; auto].
        injection H as -> _ -> _. contradiction.
    + destruct (outs_eq_dec v1 v2) as [F|F]; simpl.
      * split.
        -- intros [H|(va & vb & H & R)]; [|right; exists va, vb; auto].
           apply in_app_or in H. destruct H as [H|[[= <- <-]|[]]]; [auto|].
           right. exists v1, v2. auto.
        -- intros [H|(va & vb & [H|H] & N & R)].
           ++ left. apply in_or_app. auto.
           ++ injection H as -> _ -> _. left. apply in_or_app. right. now left.
           ++ right. exists va, vb. auto.
      * split.
        -- intros [H|(va & vb & H & R)]; [auto | right; exists va, vb; auto].
        -- intros [H|(va & vb & [H|H] & N & R)]; [auto | | right; exists va, vb; auto].
           injection H as _ -> _ ->. contradiction.
Qed.

(** X21.  [get_dset_outputs] holds one entry for every state of the
    machine and no other; the entry of a state is the tuple of the outputs
    of the machine started in that state, one for every sequence of the
    set and in its order: [reset] after each [process_input] starts every
    sequence in the state itself, not where the last one ended. *)
Theorem get_dset_outputs_runs_every_sequence_from_the_state (dset : list word) :
  NoDup (dict_keys (get_dset_outputs dset)) /\
  forall state,
    dict_get St_eq_dec (get_dset_outputs dset) state =
    if in_dec St_eq_dec state get_states then Some (responses dset state) else None.
Proof.
  destruct (@outputs_fold dset get_states [] (NoDup_nil _)) as [N G].
  split; [exact N | exact G].
Qed.

(** X22.  [check_distinguishing_set] returns [True] whatever the set,
    also from the branch that found the outputs not unique (its
    [return False] is commented out), printing and rendering apart.  It
    reports the pair [(ka, kb)]
    exactly when [ka] and [kb] are two different states of the machine
    with the same outputs on every sequence of the set: comparing the
    number of different outputs with the number of states finds a
    collision exactly when there is one, and each is reported in both
    orders. *)
Theorem check_distinguishing_set_always_returns_True (dset : list word) :
  snd (check_distinguishing_set dset) = true /\
  (forall ka kb,
     In (ka, kb) (fst (check_distinguishing_set dset)) <->
     In ka get_states /\ In kb get_states /\ ka <> kb /\
     responses dset ka = responses dset kb) /\
  (forall ka kb,
     In (ka, kb) (fst (check_distinguishing_set dset)) ->
     In (kb, ka) (fst (check_distinguishing_set dset))).
Proof.
  assert (A : snd (check_distinguishing_set dset) = true).
  { unfold check_distinguishing_set.
    destruct (length (nodup outs_eq_dec (map snd (get_dset_outputs dset)))
              <? length (get_dset_outputs dset)); reflexivity. }
  assert (B : forall ka kb,
     In (ka, kb) (fst (check_distinguishing_set dset)) <->
     In ka get_states /\ In kb get_states /\ ka <> kb /\
     responses dset ka = responses dset kb).
  { intros ka kb. destruct (get_dset_outputs_items dset) as [N G].
    unfold check_distinguishing_set.
    destruct (nodup_shorter outs_eq_dec (map snd (get_dset_outputs dset))) as [L1 L2].
    rewrite length_map in L1, L2.
    destruct (length (nodup outs_eq_dec (map snd (get_dset_outputs dset)))
              <? length (get_dset_outputs dset)) eqn:C; cbn [fst].
    - rewrite reported_fold. split.
      + intros [[]|(va & vb & H & D & R)]. apply in_prod_iff in H.
        destruct H as [Ha Hb]. apply G in Ha. apply G in Hb.
        destruct Ha as [Ha ->]. destruct Hb as [Hb ->]. auto.
      + intros (Ha & Hb & D & R). right.
        exists (responses dset ka), (responses dset kb).
        split; [|auto]. apply in_prod_iff. split; apply G; auto.
    - apply Nat.ltb_ge in C. split; [intros []|].
      intros (Ha & Hb & D & R). exfalso. apply D.
      apply (@NoDup_values _ _ (get_dset_outputs dset) ka kb (responses dset ka)).
      + apply L2. lia.
      + apply G. auto.
      + apply G. auto. }
  split; [exact A|]. split; [exact B|].
  intros ka kb H. apply B in H. apply B.
  destruct H as (Ha & Hb & D & R). auto.
Qed.

End WithMachine.
End MinSepSeq.


(* ================================================================= *)
(** ** Concrete teachers for the L* learner

    Symbols and outputs are numbers.  The SULs are Mealy machines given by
    their transition functions; a teacher answers a membership query on
    [w] with the output word of the SUL on [w] (section 4.1), or with its
    final symbol (sections 4.3 and 4.4). *)

Module LStarExamples.
Import LStar.

Definition nat_list_eq_dec : forall x y : list nat, {x = y} + {x <> y} :=
  list_eq_dec Nat.eq_dec.
Definition nat_row_eq_dec : forall x y : list (list nat), {x = y} + {x <> y} :=
  list_eq_dec nat_list_eq_dec.

(** A counter that stops at 2: the i-th output is min(i, 2). *)
Definition capped (q a : nat) : nat * nat := (Nat.min (q + 1) 2, Nat.min (q + 1) 2).
Definition capped_sul : list nat -> list nat := mealy_run capped 0.

(** The learner for the alphabet {0, 1}, as constructed. *)
Definition learner01 : @Learner nat (list nat) := __init__ Nat.eq_dec [0; 1].

(** A machine whose third output tells whether the first input was 0. *)
Definition third (q a : nat) : nat * nat :=
  match q, a with
  | 0, 0 => (1, 0)
  | 0, _ => (2, 0)
  | 1, _ => (3, 0)
  | 2, _ => (4, 0)
  | 3, _ => (5, 1)
  | _, _ => (5, 0)
  end.
Definition third_sul : list nat -> list nat := mealy_run third 0.

(** The learner for the alphabet {0, 1}, after the integration of the
    counterexamples [0; 0] and [1; 0]. *)
Definition learner01_00_10 : @Learner nat (list nat) :=
  S_adds Nat.eq_dec [[0]; [0; 0]; [1]; [1; 0]] (__init__ Nat.eq_dec [0; 1]).

(** C1, as stated, fails.  In the learner for {0, 1} as constructed, [0]
    is in S.A; its row holds the whole output words [1; 2] on [0; 0] and
    on [0; 1], of length 2, where the projected entries are [2], of the
    length 1 of the suffix. *)
Lemma get_row_is_not_projected :
  In [0] (_SUSA Nat.eq_dec learner01) /\
  _get_row Nat.eq_dec capped_sul [0] learner01 = Ok ([[1; 2]; [1; 2]], learner01) /\
  projected_row capped_sul learner01 [0] = [[2]; [2]] /\
  [[1; 2]; [1; 2]] <> projected_row capped_sul learner01 [0] /\
  ~ Forall2 (fun e entry => length entry = length e)
            (elems (self_E learner01)) [[1; 2]; [1; 2]].
Proof.
  split; [vm_compute; auto|]. split; [reflexivity|]. split; [reflexivity|].
  split; [discriminate|].
  intros H. inversion H as [|e entry E r H1 H2]; subst. discriminate H1.
Qed.

Lemma get_row_holds_whole_answers_witness :
  (forall w, length (capped_sul w) = length w) /\
  In [0] (_SUSA Nat.eq_dec learner01) /\
  exists r, _get_row Nat.eq_dec capped_sul [0] learner01 = Ok (r, learner01) /\
            r = [[1; 2]; [1; 2]].
Proof.
  assert (L : forall w, length (capped_sul w) = length w)
    by (intros w; apply mealy_run_length).
  assert (I : In [0] (_SUSA Nat.eq_dec learner01)) by (vm_compute; auto).
  split; [exact L|]. split; [exact I|].
  destruct (@get_row_holds_whole_answers nat nat Nat.eq_dec capped_sul L learner01 [0] I)
    as (r & Hr & Er & _).
  exists r. split; [exact Hr | exact Er].
Defined.

(** C3, as stated, fails.  The table of the learner for {0, 1} as
    constructed is not closed, and one call of [step] adds two words to
    [S], [0] and [1]. *)
Lemma step_adds_two_words :
  _is_closed Nat.eq_dec nat_list_eq_dec capped_sul learner01 = Ok (false, learner01) /\
  elems (self_S learner01) = [[]] /\
  exists self',
    step Nat.eq_dec nat_list_eq_dec capped_sul learner01 = Ok (tt, self') /\
    elems (self_S self') = [[]; [0]; [1]].
Proof.
  split; [reflexivity|]. split; [reflexivity|].
  eexists. split; reflexivity.
Qed.

Lemma step_adds_every_unclosed_row_witness :
  In [] (elems (self_S learner01)) /\
  _is_closed Nat.eq_dec nat_list_eq_dec capped_sul learner01 = Ok (false, learner01) /\
  exists self',
    step Nat.eq_dec nat_list_eq_dec capped_sul learner01 = Ok (tt, self') /\
    exists new, new <> [] /\ elems (self_S self') = elems (self_S learner01) ++ new.
Proof.
  assert (H0 : In [] (elems (self_S learner01))) by (vm_compute; auto).
  assert (Hc : _is_closed Nat.eq_dec nat_list_eq_dec capped_sul learner01
               = Ok (false, learner01)) by reflexivity.
  split; [exact H0|]. split; [exact Hc|].
  destruct (@step_adds_every_unclosed_row nat (list nat) Nat.eq_dec nat_list_eq_dec
              capped_sul learner01 H0 Hc)
    as (self' & Hs & _ & Hn).
  exists self'. split; [exact Hs | exact Hn].
Defined.

(** C4, as stated, fails.  The learner is the one for {0, 1} after the
    counterexamples [0; 0] and [1; 0]; the rows of [0] and of [1] are
    equal.  When the loop of [build_dfa] has gone through the empty word,
    [0] and [0; 0], the state of that row has an edge on 0 to the state of
    the row of [0; 0].  For [s] = [1] the loop asks for an edge on 0 to the
    state of the row of [1; 0], another state: [add_edge] refuses it, and
    [build_dfa] returns a machine all the same. *)
Lemma build_dfa_swallows_a_conflicting_edge :
  for_each [Op_counterexample [0; 0]; Op_counterexample [1; 0]]
           (perform Nat.eq_dec nat_list_eq_dec third_sul) (__init__ Nat.eq_dec [0; 1])
  = Ok (tt, learner01_00_10) /\
  exists h sts q e,
    build_dfa Nat.eq_dec nat_list_eq_dec third_sul learner01_00_10
    = Ok (h, learner01_00_10) /\
    for_acc [[]; [0]; [0; 0]]
            (build_dfa_state Nat.eq_dec nat_list_eq_dec third_sul [0; 1])
            (new_states (nodup nat_row_eq_dec (S_rows_of third_sul learner01_00_10)), [])
            learner01_00_10
    = Ok ((sts, []), learner01_00_10) /\
    row third_sul learner01_00_10 [1] = row third_sul learner01_00_10 [0] /\
    dict_get nat_row_eq_dec sts (row third_sul learner01_00_10 [1]) = Some q /\
    dict_get Nat.eq_dec (edges q) 0 = Some (row third_sul learner01_00_10 [0; 0], [0; 0]) /\
    row third_sul learner01_00_10 [1; 0] <> row third_sul learner01_00_10 [0; 0] /\
    add_edge Nat.eq_dec nat_list_eq_dec nat_row_eq_dec q 0 (third_sul [1; 0])
             (row third_sul learner01_00_10 [1; 0]) false = Raise e /\
    edge_at Nat.eq_dec nat_list_eq_dec (states h)
            (row third_sul learner01_00_10 [1]) 0
    = Some (row third_sul learner01_00_10 [0; 0], [0; 0]).
Proof.
  split; [reflexivity|].
  do 4 eexists.
  split; [lazy; reflexivity|]. split; [lazy; reflexivity|].
  split; [reflexivity|]. split; [lazy; reflexivity|]. split; [reflexivity|].
  split; [discriminate|]. split; [lazy; reflexivity | reflexivity].
Qed.

Lemma singletons_01 : singletons (self_A learner01_00_10).
Proof. intros w [<-|[<-|[]]]; eauto. Qed.

Lemma build_dfa_ignores_refused_edges_witness :
  In [] (elems (self_S learner01_00_10)) /\
  singletons (self_A learner01_00_10) /\
  exists h, build_dfa Nat.eq_dec nat_list_eq_dec third_sul learner01_00_10
            = Ok (h, learner01_00_10).
Proof.
  assert (H0 : In [] (elems (self_S learner01_00_10))) by (vm_compute; auto).
  split; [exact H0|]. split; [exact singletons_01|].
  exact (proj1 (@build_dfa_ignores_refused_edges nat (list nat) Nat.eq_dec nat_list_eq_dec
                  third_sul learner01_00_10 H0 singletons_01)).
Defined.

(** C6 fails on the code.  In the learner for {0, 1} as constructed, the
    row lookup of the empty word returns its row and leaves [T] empty:
    [T] has no entry for the words [0] and [1] that were queried. *)
Lemma get_row_leaves_T_empty :
  exists r self',
    _get_row Nat.eq_dec capped_sul [] learner01 = Ok (r, self') /\
    elems (self_E self') = [[0]; [1]] /\
    self_T self' = [] /\
    dict_get nat_list_eq_dec (self_T self') ([] ++ [0]) = None /\
    dict_get nat_list_eq_dec (self_T self') ([] ++ [1]) = None.
Proof. do 2 eexists. split; [lazy; reflexivity|]. repeat split; reflexivity. Qed.

(** A counter modulo 3: every third output is 1.  This teacher answers a
    membership query with the last output symbol alone. *)
Definition mod3 (q a : nat) : nat * nat :=
  match q with
  | 0 => (1, 0)
  | 1 => (2, 0)
  | _ => (0, 1)
  end.
Definition mod3_last (w : list nat) : nat := last (mealy_run mod3 0 w) 0.

(** Modelled from the spec: [MealyMachine.process_input] of stmlearn.suls
    (section 4.2), run from the initial state: "returns the concatenated
    output word"; [None] when an edge is missing. *)
Fixpoint process_input (sts : list (list nat * MealyState nat nat (list nat)))
  (r : list nat) (w : list nat) : option (list nat) :=
  match w with
  | [] => Some []
  | a :: w' =>
      match edge_at Nat.eq_dec Nat.eq_dec sts r a with
      | Some (t, o) => option_map (cons o) (process_input sts t w')
      | None => None
      end
  end.

(** An equivalence oracle by testing: the first of the words 0, 00, ...,
    000000 on which the hypothesis and the SUL differ is the
    counterexample. *)
Definition mod3_equivalence (h : MealyMachine nat nat (list nat)) : bool * list nat :=
  match find (fun w => match process_input (states h) (initial_state h) w with
                       | Some out =>
                           if nat_list_eq_dec out (mealy_run mod3 0 w) then false else true
                       | None => true
                       end)
             (map (fun n => repeat 0 n) (seq 1 6)) with
  | Some w => (false, w)
  | None => (true, [])
  end.

Definition mod3_learner_after_counterexample : @Learner nat nat :=
  S_adds Nat.eq_dec [[0]; [0; 0]; [0; 0; 0]] (__init__ Nat.eq_dec [0]).

Definition mod3_learner : @Learner nat nat :=
  E_add Nat.eq_dec [0; 0] mod3_learner_after_counterexample.

Definition mod3_hypothesis : MealyMachine nat nat (list nat) :=
  {| initial_state := [0; 0];
     states := [([0; 1], {| name := 1; edges := [(0, ([1; 0], 0))] |});
                ([1; 0], {| name := 2; edges := [(0, ([0; 0], 1))] |});
                ([0; 0], {| name := 3; edges := [(0, ([0; 1], 0))] |})] |}.

Lemma run_returns_only_accepted_hypotheses_witness :
  (run Nat.eq_dec Nat.eq_dec mod3_last mod3_equivalence 3 3 (__init__ Nat.eq_dec [0])
   = Ok (Some mod3_hypothesis, mod3_learner) /\
   fst (mod3_equivalence mod3_hypothesis) = true) /\
  (run_round Nat.eq_dec Nat.eq_dec mod3_last mod3_equivalence 3 (__init__ Nat.eq_dec [0])
   = Ok (Some (inr tt), mod3_learner_after_counterexample) /\
   exists self0 h w,
     build_dfa Nat.eq_dec Nat.eq_dec mod3_last self0 = Ok (h, self0) /\
     mod3_equivalence h = (false, w) /\
     forall i, 1 <= i <= length w ->
               In (firstn i w) (elems (self_S mod3_learner_after_counterexample))).
Proof.
  assert (R : run Nat.eq_dec Nat.eq_dec mod3_last mod3_equivalence 3 3 (__init__ Nat.eq_dec [0])
              = Ok (Some mod3_hypothesis, mod3_learner)) by (vm_compute; reflexivity).
  assert (R1 : run_round Nat.eq_dec Nat.eq_dec mod3_last mod3_equivalence 3
                 (__init__ Nat.eq_dec [0])
               = Ok (Some (inr tt), mod3_learner_after_counterexample))
    by (vm_compute; reflexivity).
  split.
  - split; [exact R|].
    exact (proj1 (proj1 (@run_returns_only_accepted_hypotheses nat nat Nat.eq_dec Nat.eq_dec
                           mod3_last mod3_equivalence) _ _ _ _ _ R)).
  - split; [exact R1|].
    exact (proj2 (proj2 (@run_returns_only_accepted_hypotheses nat nat Nat.eq_dec Nat.eq_dec
                           mod3_last mod3_equivalence) 0 _ _ _ R1)).
Defined.

Lemma singletons_0 : singletons (self_A mod3_learner).
Proof. intros w [<-|[]]; eauto. Qed.

(** The teacher that answers with the final output symbol of the counter
    modulo 3, and the learner for it with the closed and consistent table
    of [mod3_learner]. *)
Definition mod3_final : list nat -> option nat :=
  final_symbol_teacher (mealy_run mod3 0).

Definition mod3_final_learner : @Learner nat (option nat) :=
  E_add Nat.eq_dec [0; 0]
        (S_adds Nat.eq_dec [[0]; [0; 0]; [0; 0; 0]] (__init__ Nat.eq_dec [0])).

Lemma singletons_final : singletons (self_A mod3_final_learner).
Proof. intros w [<-|[]]; eauto. Qed.

Lemma build_dfa_edge_output_is_the_last_symbol_witness :
  In [] (elems (self_S mod3_final_learner)) /\
  singletons (self_A mod3_final_learner) /\
  closed Nat.eq_dec (option_eq_dec Nat.eq_dec) mod3_final mod3_final_learner = true /\
  consistent (option_eq_dec Nat.eq_dec) mod3_final mod3_final_learner = true /\
  incl (self_A mod3_final_learner) (elems (self_E mod3_final_learner)) /\
  mealy_run mod3 0 ([0; 0] ++ [0]) = [0; 0; 1] /\
  exists h,
    build_dfa Nat.eq_dec (option_eq_dec Nat.eq_dec) mod3_final mod3_final_learner
    = Ok (h, mod3_final_learner) /\
    edge_at Nat.eq_dec (option_eq_dec Nat.eq_dec) (states h)
            (row mod3_final mod3_final_learner [0; 0]) 0
    = Some (row mod3_final mod3_final_learner ([0; 0] ++ [0]),
            final_symbol (mealy_run mod3 0 ([0; 0] ++ [0]))).
Proof.
  assert (H0 : In [] (elems (self_S mod3_final_learner))) by (vm_compute; auto).
  assert (Hcl : closed Nat.eq_dec (option_eq_dec Nat.eq_dec) mod3_final mod3_final_learner
                = true) by (vm_compute; reflexivity).
  assert (Hco : consistent (option_eq_dec Nat.eq_dec) mod3_final mod3_final_learner = true)
    by (vm_compute; reflexivity).
  assert (HAE : incl (self_A mod3_final_learner) (elems (self_E mod3_final_learner)))
    by (intros w [<-|[]]; vm_compute; auto).
  assert (Hs : In [0; 0] (elems (self_S mod3_final_learner))) by (vm_compute; auto).
  assert (Ha : In [0] (self_A mod3_final_learner)) by (vm_compute; auto).
  repeat (split; [assumption || exact singletons_final|]).
  split; [reflexivity|].
  destruct (@build_dfa_edge_output_is_the_last_symbol nat nat Nat.eq_dec Nat.eq_dec
              (mealy_run mod3 0) mod3_final_learner H0 singletons_final)
    as (h & B & _ & _ & P).
  exists h. split; [exact B|]. exact (P Hcl Hco HAE [0; 0] 0 Hs Ha).
Defined.

(* ----------------------------------------------------------------- *)
(** *** The further properties on the counter modulo 3 *)

Lemma empty_word_in_mod3_learner : In [] (elems (self_S mod3_learner)).
Proof. vm_compute. auto. Qed.

Lemma S_prefix_closed_mod3 : S_prefix_closed mod3_learner.
Proof.
  intros s [<-|[<-|[<-|[<-|[]]]]].
  - now left.
  - right. exists [], 0. split; [reflexivity|]. split; vm_compute; auto 10.
  - right. exists [0], 0. split; [reflexivity|]. split; vm_compute; auto 10.
  - right. exists [0; 0], 0. split; [reflexivity|]. split; vm_compute; auto 10.
Qed.

Lemma build_dfa_states_are_the_rows_witness :
  In [] (elems (self_S mod3_learner)) /\
  singletons (self_A mod3_learner) /\
  closed Nat.eq_dec Nat.eq_dec mod3_last mod3_learner = true /\
  consistent Nat.eq_dec mod3_last mod3_learner = true /\
  incl (self_A mod3_learner) (elems (self_E mod3_learner)) /\
  S_prefix_closed mod3_learner /\
  exists h,
    build_dfa Nat.eq_dec Nat.eq_dec mod3_last mod3_learner = Ok (h, mod3_learner) /\
    initial_state h = row mod3_last mod3_learner [] /\
    NoDup (dict_keys (states h)) /\
    map (fun x => name (snd x)) (states h) = seq 1 (length (states h)) /\
    forall r, reachable Nat.eq_dec Nat.eq_dec h r <->
              exists s, In s (elems (self_S mod3_learner)) /\ r = row mod3_last mod3_learner s.
Proof.
  assert (Hcl : closed Nat.eq_dec Nat.eq_dec mod3_last mod3_learner = true) by reflexivity.
  assert (Hco : consistent Nat.eq_dec mod3_last mod3_learner = true) by reflexivity.
  assert (HAE : incl (self_A mod3_learner) (elems (self_E mod3_learner)))
    by (intros w [<-|[]]; vm_compute; auto).
  split; [exact empty_word_in_mod3_learner|]. split; [exact singletons_0|].
  split; [exact Hcl|]. split; [exact Hco|]. split; [exact HAE|].
  split; [exact S_prefix_closed_mod3|].
  destruct (@build_dfa_states_are_the_rows nat nat Nat.eq_dec Nat.eq_dec mod3_last
              mod3_learner empty_word_in_mod3_learner singletons_0)
    as (h & B & I & N & _ & M & _ & R).
  exists h. split; [exact B|]. split; [exact I|]. split; [exact N|]. split; [exact M|].
  exact (R Hcl Hco HAE S_prefix_closed_mod3).
Defined.

Lemma build_dfa_is_total_on_a_closed_table_witness :
  In [] (elems (self_S mod3_learner)) /\
  singletons (self_A mod3_learner) /\
  _is_closed Nat.eq_dec Nat.eq_dec mod3_last mod3_learner = Ok (true, mod3_learner) /\
  exists h,
    build_dfa Nat.eq_dec Nat.eq_dec mod3_last mod3_learner = Ok (h, mod3_learner) /\
    forall r a, In r (dict_keys (states h)) -> In [a] (self_A mod3_learner) ->
      exists t o, edge_at Nat.eq_dec Nat.eq_dec (states h) r a = Some (t, o).
Proof.
  assert (C : _is_closed Nat.eq_dec Nat.eq_dec mod3_last mod3_learner
              = Ok (true, mod3_learner)) by (vm_compute; reflexivity).
  split; [exact empty_word_in_mod3_learner|]. split; [exact singletons_0|].
  split; [exact C|].
  destruct (@build_dfa_is_total_on_a_closed_table nat nat Nat.eq_dec Nat.eq_dec mod3_last
              mod3_learner empty_word_in_mod3_learner singletons_0)
    as (h & B & _ & T).
  exists h. split; [exact B | exact (T C)].
Defined.

(** A table without the empty word in [S], as [load_checkpoint] can
    install it. *)
Definition learner_without_empty_word : @Learner nat nat :=
  {| self_S := {| elems := [[0]]; change_counter := 1 |};
     self_E := {| elems := [[0]]; change_counter := 1 |};
     self_T := [];
     self_A := [[0]] |}.

Lemma singletons_without_empty_word : singletons (self_A learner_without_empty_word).
Proof. intros w [<-|[]]; eauto. Qed.

Lemma no_empty_word : ~ In [] (elems (self_S learner_without_empty_word)).
Proof. intros [H|[]]. discriminate. Qed.

Lemma build_dfa_needs_the_empty_word_witness :
  singletons (self_A learner_without_empty_word) /\
  ~ In [] (elems (self_S learner_without_empty_word)) /\
  build_dfa Nat.eq_dec Nat.eq_dec mod3_last learner_without_empty_word
  = Raise (Exception 0).
Proof.
  split; [exact singletons_without_empty_word|]. split; [exact no_empty_word|].
  exact (@build_dfa_needs_the_empty_word nat nat Nat.eq_dec Nat.eq_dec mod3_last
           learner_without_empty_word singletons_without_empty_word no_empty_word).
Defined.

Lemma empty_word_in_init : In [] (elems (self_S (@__init__ nat nat Nat.eq_dec [0]))).
Proof. vm_compute. auto. Qed.

Lemma singletons_init : singletons (self_A (@__init__ nat nat Nat.eq_dec [0])).
Proof. intros w [<-|[]]; eauto. Qed.

Lemma run_builds_from_closed_consistent_tables_witness :
  In [] (elems (self_S (@__init__ nat nat Nat.eq_dec [0]))) /\
  singletons (self_A (@__init__ nat nat Nat.eq_dec [0])) /\
  exists r self',
    run Nat.eq_dec Nat.eq_dec mod3_last mod3_equivalence 3 3 (__init__ Nat.eq_dec [0])
    = Ok (r, self') /\
    incl (elems (self_S (@__init__ nat nat Nat.eq_dec [0]))) (elems (self_S self')) /\
    incl (elems (self_E (@__init__ nat nat Nat.eq_dec [0]))) (elems (self_E self')) /\
    forall h, r = Some h ->
      _is_closed Nat.eq_dec Nat.eq_dec mod3_last self' = Ok (true, self') /\
      _is_consistent Nat.eq_dec Nat.eq_dec mod3_last self' = Ok (true, self') /\
      build_dfa Nat.eq_dec Nat.eq_dec mod3_last self' = Ok (h, self').
Proof.
  split; [exact empty_word_in_init|]. split; [exact singletons_init|].
  exact (@run_builds_from_closed_consistent_tables nat nat Nat.eq_dec Nat.eq_dec mod3_last
           mod3_equivalence 3 3 (__init__ Nat.eq_dec [0])
           empty_word_in_init singletons_init).
Defined.

End LStarExamples.

(* ================================================================= *)
(** ** Concrete teachers for the TTT learner *)

Module TTTExamples.
Import TTT.

(** A toggle: the outputs are 1, 0, 1, 0, ... *)
Definition toggle (q a : nat) : nat * nat := (1 - q, 1 - q).
Definition toggle_sul : list nat -> list nat := mealy_run toggle 0.

(** The learner for the alphabet {0} as constructed, and after [sift] of
    the word [0]. *)
Definition toggle_learner : @Learner nat (list nat) := __init__ Nat.eq_dec toggle_sul [0].

Definition toggle_learner_1 : @Learner nat (list nat) :=
  {| self_S := [([], 0); ([0], 1)];
     DTree_root := Some (Inner [] false [([], Leaf 0); ([1], Leaf 1)]);
     self_A := [[0]];
     heap := [(0, {| name := 0; edges := [] |}); (1, {| name := 1; edges := [] |})] |}.





(** A teacher that answers with the last output symbol of a counter
    modulo 3, and the learner for it after [construct_hypothesis]: one
    state.  The counterexample [0; 0; 0] is decomposed into the empty
    word, the symbol 0 and the suffix [0; 0]; every word reaches state 0
    in the hypothesis. *)
Definition mod3_learner : @Learner nat nat :=
  {| self_S := [([], 0)];
     DTree_root := Some (Inner [] false [(0, Leaf 0)]);
     self_A := [[0]];
     heap := [(0, {| name := 0; edges := [(0, (0, 0))] |})] |}.

Definition mod3_decompose (self : @Learner nat nat) (w : list nat)
  : list nat * nat * list nat := ([], 0, [0; 0]).
Definition mod3_state (self : @Learner nat nat) (w : list nat) : State := 0.

Definition mod3_learner_split : @Learner nat nat :=
  {| self_S := [([], 0); ([0], 1)];
     DTree_root :=
       Some (Inner [] false [(0, Inner [0; 0] true [(1, Leaf 1); (0, Leaf 0)])]);
     self_A := [[0]];
     heap := [(0, {| name := 0; edges := [(0, (0, 0))] |});
              (1, {| name := 1; edges := [] |})] |}.

Lemma names_below_mod3 : names_below mod3_learner.
Proof. intros q [<-|[]]. simpl. lia. Qed.

Lemma states_match_leaves_mod3 : states_match_leaves mod3_learner.
Proof.
  split; [|split]; simpl.
  - constructor; [intros []|constructor].
  - constructor; [intros []|constructor].
  - apply Permutation_refl.
Qed.

Lemma operations_keep_states_and_leaves_in_bijection_witness :
  construct_hypothesis Nat.eq_dec Nat.eq_dec LStarExamples.mod3_last 3
    (__init__ Nat.eq_dec LStarExamples.mod3_last [0])
  = Ok (Some {| initial_state := 0; states := heap mod3_learner |}, mod3_learner) /\
  names_below mod3_learner /\
  states_match_leaves mod3_learner /\
  perform Nat.eq_dec Nat.eq_dec LStarExamples.mod3_last mod3_decompose mod3_state
          (Op_process_counterexample [0; 0; 0]) mod3_learner
  = Ok (tt, mod3_learner_split) /\
  states_match_leaves mod3_learner_split /\
  names_below mod3_learner_split /\
  grows_from mod3_learner mod3_learner_split.
Proof.
  assert (P : perform Nat.eq_dec Nat.eq_dec LStarExamples.mod3_last mod3_decompose
                mod3_state (Op_process_counterexample [0; 0; 0]) mod3_learner
              = Ok (tt, mod3_learner_split)) by (vm_compute; reflexivity).
  split; [vm_compute; reflexivity|].
  split; [exact names_below_mod3|]. split; [exact states_match_leaves_mod3|].
  split; [exact P|].
  exact (@operations_keep_states_and_leaves_in_bijection nat nat Nat.eq_dec Nat.eq_dec
           LStarExamples.mod3_last mod3_decompose mod3_state
           (Op_process_counterexample [0; 0; 0]) mod3_learner mod3_learner_split
           names_below_mod3 states_match_leaves_mod3 P).
Defined.

(** A teacher that answers with the last output symbol of the toggle. *)
Definition toggle_last (w : list nat) : nat := last (toggle_sul w) 0.

Definition toggle_last_learner : @Learner nat nat := __init__ Nat.eq_dec toggle_last [0].

Lemma prefix_closed_toggle : prefix_closed (dict_keys (self_S toggle_last_learner)).
Proof.
  split; [now left|]. intros k [<-|[]] N. now contradiction N.
Qed.

Lemma singletons_toggle : singletons (self_A toggle_last_learner).
Proof. intros w [<-|[]]. now exists 0. Qed.

Lemma access_sequences_stay_prefix_closed_witness :
  prefix_closed (dict_keys (self_S toggle_last_learner)) /\
  singletons (self_A toggle_last_learner) /\
  (exists h self',
     construct_hypothesis Nat.eq_dec Nat.eq_dec toggle_last 3 toggle_last_learner
     = Ok (Some h, self') /\
     dict_keys (self_S self') = [[]; [0]]) /\
  (forall fuel,
     match construct_hypothesis Nat.eq_dec Nat.eq_dec toggle_last fuel
                                toggle_last_learner with
     | Ok (_, self') => prefix_closed (dict_keys (self_S self'))
     | Raise e => e <> KeyError
     end).
Proof.
  split; [exact prefix_closed_toggle|]. split; [exact singletons_toggle|].
  split; [do 2 eexists; split; [lazy; reflexivity | reflexivity]|].
  exact (proj1 (proj2 (@access_sequences_stay_prefix_closed nat nat Nat.eq_dec Nat.eq_dec
                         toggle_last mod3_decompose mod3_state toggle_last_learner
                         prefix_closed_toggle singletons_toggle))).
Defined.

(* ----------------------------------------------------------------- *)
(** *** The further properties on the toggle and the counter *)

Lemma sift_is_stable_witness :
  sift Nat.eq_dec LStarExamples.nat_list_eq_dec toggle_sul [0] toggle_learner
  = Ok (1, toggle_learner_1) /\
  sift Nat.eq_dec LStarExamples.nat_list_eq_dec toggle_sul [0] toggle_learner_1
  = Ok (1, toggle_learner_1) /\
  forall w' q',
    sift Nat.eq_dec LStarExamples.nat_list_eq_dec toggle_sul w' toggle_learner
    = Ok (q', toggle_learner) ->
    sift Nat.eq_dec LStarExamples.nat_list_eq_dec toggle_sul w' toggle_learner_1
    = Ok (q', toggle_learner_1).
Proof.
  assert (H : sift Nat.eq_dec LStarExamples.nat_list_eq_dec toggle_sul [0] toggle_learner
              = Ok (1, toggle_learner_1)) by (lazy; reflexivity).
  split; [exact H|].
  exact (@sift_is_stable nat (list nat) Nat.eq_dec LStarExamples.nat_list_eq_dec toggle_sul
           toggle_learner toggle_learner_1 [0] 1 H).
Defined.

Definition mod3_machine : MealyMachine nat nat State :=
  {| initial_state := 0; states := heap mod3_learner |}.

Lemma construct_hypothesis_is_complete_witness :
  construct_hypothesis Nat.eq_dec Nat.eq_dec LStarExamples.mod3_last 3
    (__init__ Nat.eq_dec LStarExamples.mod3_last [0])
  = Ok (Some mod3_machine, mod3_learner) /\
  dict_get (word_eq_dec Nat.eq_dec) (self_S mod3_learner) []
  = Some (initial_state mod3_machine) /\
  forall k q x rest,
    In (k, q) (self_S mod3_learner) -> In (x :: rest) (self_A mod3_learner) ->
    exists t o, heap_edge Nat.eq_dec (states mod3_machine) q x = Some (t, o).
Proof.
  assert (H : construct_hypothesis Nat.eq_dec Nat.eq_dec LStarExamples.mod3_last 3
                (__init__ Nat.eq_dec LStarExamples.mod3_last [0])
              = Ok (Some mod3_machine, mod3_learner)) by (vm_compute; reflexivity).
  split; [exact H|].
  exact (@construct_hypothesis_is_complete nat nat Nat.eq_dec Nat.eq_dec
           LStarExamples.mod3_last 3 _ mod3_learner mod3_machine H).
Defined.

(** One round of learning: the first hypothesis, then the counterexample
    [0; 0; 0]. *)
Definition mod3_round : list (@operation nat) :=
  [Op_construct_hypothesis 3; Op_process_counterexample [0; 0; 0]].

Lemma mod3_round_runs :
  for_each mod3_round
           (perform Nat.eq_dec Nat.eq_dec LStarExamples.mod3_last mod3_decompose mod3_state)
           (__init__ Nat.eq_dec LStarExamples.mod3_last [0])
  = Ok (tt, mod3_learner_split).
Proof. vm_compute. reflexivity. Qed.

Lemma operations_only_append_to_S_witness :
  for_each mod3_round
           (perform Nat.eq_dec Nat.eq_dec LStarExamples.mod3_last mod3_decompose mod3_state)
           (__init__ Nat.eq_dec LStarExamples.mod3_last [0])
  = Ok (tt, mod3_learner_split) /\
  (exists new,
     self_S mod3_learner_split
     = self_S (__init__ Nat.eq_dec LStarExamples.mod3_last [0]) ++ new) /\
  self_A mod3_learner_split = self_A (__init__ Nat.eq_dec LStarExamples.mod3_last [0]) /\
  forall k, In k (dict_keys (self_S (__init__ Nat.eq_dec LStarExamples.mod3_last [0]))) ->
            dict_get (word_eq_dec Nat.eq_dec) (self_S mod3_learner_split) k
            = dict_get (word_eq_dec Nat.eq_dec)
                       (self_S (__init__ Nat.eq_dec LStarExamples.mod3_last [0])) k.
Proof.
  split; [exact mod3_round_runs|].
  exact (@operations_only_append_to_S nat nat Nat.eq_dec Nat.eq_dec
           LStarExamples.mod3_last mod3_decompose mod3_state mod3_round
           _ mod3_learner_split mod3_round_runs).
Defined.

Lemma learning_never_raises_KeyError_witness :
  forallb (@learning nat) mod3_round = true /\
  match for_each mod3_round
          (perform Nat.eq_dec Nat.eq_dec LStarExamples.mod3_last mod3_decompose mod3_state)
          (__init__ Nat.eq_dec LStarExamples.mod3_last [0]) with
  | Ok (_, self) =>
      prefix_closed (dict_keys (self_S self)) /\
      states_match_leaves self /\ names_below self /\
      dict_get (word_eq_dec Nat.eq_dec) (self_S self) [] = Some 0 /\
      singletons (self_A self)
  | Raise e => e <> KeyError
  end.
Proof.
  split; [reflexivity|].
  exact (@learning_never_raises_KeyError nat nat Nat.eq_dec Nat.eq_dec
           LStarExamples.mod3_last mod3_decompose mod3_state [0] mod3_round eq_refl).
Defined.

End TTTExamples.
